(** * Meal Match: match detection, favourites, notifications, realtime

    A shallow embedding of the parts of the application that decide when a
    couple has a match:

    - the [swipes] / [matches] / [couples] / [profiles] tables of
      [supabase/migrations/001_initial_schema.sql] with their constraints,
      the insert policy on [swipes] and the triggers [check_for_match] and
      [update_updated_at_column];
    - the hook [useSwipes.recordSwipe], the plain [recordSwipe] of
      [lib/supabase.ts] and the swipe handler of [SwipeScreen];
    - [useMatches.toggleFavorite];
    - [sendMatchNotification] of [utils/notifications.ts];
    - the status handler, [subscribe] and [unsubscribe] of [useRealtime].

    Modelling conventions.  A table is the list of its rows in insertion
    order.  A statement sent to the store runs in one piece, with one
    exception: an insert into [swipes] and the trigger it fires are one
    transaction that may overlap the transactions of other clients, so
    what the trigger reads may be older than the store the insert commits
    on ([trigger_reads], [commit_swipe]); [insert_swipe] is the insert
    that overlaps nothing.  Calls of different clients interleave between
    statements, and between the read and the commit of such an insert.
    What the program cannot decide itself is an input: the
    generated uuid, the clock, and whether a request is answered, answered
    by an error object, or raises ([Outcome]); a request that is not
    answered leaves the store as it was.  Every request to the store and to
    the push gateway is recorded in a trace, newest first.

    Left out: the recipe catalogue (recipe ids are opaque keys, the foreign
    key to [recipes] is not checked), the [recording] flag of the hook,
    [console.log] and breadcrumbs, and the paging of the swipe screen.

    Around these the development also covers the left-swipe handler and
    the couple the swipe screen loads, the favourite button of the recipe
    screen, the filters and sort orders of [useMatches], the storing of
    push tokens and the registration for them, the rotating error log of
    [ErrorStorage], and the shopping list of [aggregateIngredients].  The
    string operations of the runtime ([toLowerCase], [trim], [includes],
    [localeCompare]) are parameters there. *)

From Stdlib Require Import ZArith Lia.
From stdpp Require Import base tactics decidable option list strings.

Local Open Scope string_scope.
Local Open Scope list_scope.

(** ** Rows *)

Inductive Direction := like | dislike.

#[global] Instance Direction_eq_dec : EqDecision Direction.
Proof. solve_decision. Defined.

Record Couple := {
  couple_id : string;
  user1_id : string;
  user2_id : option string
}.

Record Swipe := {
  swipe_id : string;
  swipe_user_id : string;
  swipe_recipe_id : string;
  swipe_couple_id : string;
  swipe_direction : Direction;
  swipe_created_at : Z
}.

Record Match := {
  match_id : string;
  match_couple_id : string;
  match_recipe_id : string;
  is_favorite : bool;
  matched_at : Z;
  match_created_at : Z;
  match_updated_at : Z
}.

Record Profile := {
  profile_id : string;
  push_token : option string
}.

#[global] Instance Couple_eq_dec : EqDecision Couple.
Proof. solve_decision. Defined.
#[global] Instance Swipe_eq_dec : EqDecision Swipe.
Proof. solve_decision. Defined.
#[global] Instance Match_eq_dec : EqDecision Match.
Proof. solve_decision. Defined.
#[global] Instance Profile_eq_dec : EqDecision Profile.
Proof. solve_decision. Defined.

Record DB := {
  couples : list Couple;
  swipes : list Swipe;
  matches : list Match;
  profiles : list Profile
}.

Definition with_swipes (db : DB) (l : list Swipe) : DB :=
  {| couples := couples db; swipes := l;
     matches := matches db; profiles := profiles db |}.

Definition with_matches (db : DB) (l : list Match) : DB :=
  {| couples := couples db; swipes := swipes db;
     matches := l; profiles := profiles db |}.

(** ** Errors and answers of the store client *)

Inductive Error :=
| unique_violation (constraint : string)   (* SQLSTATE 23505 *)
| rls_violation (table : string)           (* SQLSTATE 42501 *)
| not_single_row                           (* PGRST116, [.single()] and [.maybeSingle()] *)
| unavailable                              (* the request was not served *)
| exception.                               (* a rejected promise *)

#[global] Instance Error_eq_dec : EqDecision Error.
Proof. solve_decision. Defined.

(** The [{ data, error }] object a supabase call resolves to. *)
Record Response (A : Type) := {
  data : option A;
  error : option Error
}.
Arguments data {A} _.
Arguments error {A} _.

Definition answer {A} (a : option A) : Response A :=
  {| data := a; error := None |}.
Definition failure {A} (err : Error) : Response A :=
  {| data := None; error := Some err |}.

Inductive Outcome := Responds | Fails | Throws.

(** What the environment contributes to one statement. *)
Record Env := {
  env_outcome : Outcome;
  env_uuid : string;          (* uuid_generate_v4() for the inserted row *)
  env_trigger_uuid : string;  (* uuid_generate_v4() inside a trigger *)
  env_now : Z                 (* NOW() *)
}.

(** ** Queries on the tables *)

Definition swipe_key (s : Swipe) : string * string * string :=
  (swipe_user_id s, swipe_recipe_id s, swipe_couple_id s).

Definition match_key (m : Match) : string * string :=
  (match_couple_id m, match_recipe_id m).

Definition find_couple (db : DB) (cid : string) : option Couple :=
  List.find (fun c => bool_decide (couple_id c = cid)) (couples db).

Definition find_swipe (db : DB) (uid rid cid : string) : option Swipe :=
  List.find (fun s => bool_decide (swipe_key s = (uid, rid, cid))) (swipes db).

Definition find_match (db : DB) (cid rid : string) : option Match :=
  List.find (fun m => bool_decide (match_key m = (cid, rid))) (matches db).

Definition is_member (c : Couple) (uid : string) : bool :=
  bool_decide (user1_id c = uid) || bool_decide (user2_id c = Some uid).

(** Policy "Users can insert their own swipes": [auth.uid() = user_id] and the
    user occupies a slot of the couple. *)
Definition swipes_insert_policy (db : DB) (auth uid cid : string) : bool :=
  bool_decide (auth = uid)
  && existsb (fun c => bool_decide (couple_id c = cid) && is_member c auth)
       (couples db).

(** The policies on [matches] (select, insert, update) and "Users can view
    swipes in their couple": the user occupies a slot of the couple of the
    row. *)
Definition in_couple_policy (db : DB) (auth cid : string) : bool :=
  existsb (fun c => bool_decide (couple_id c = cid) && is_member c auth)
    (couples db).

(** ** Statements *)

Definition new_match (id cid rid : string) (now : Z) : Match :=
  {| match_id := id; match_couple_id := cid; match_recipe_id := rid;
     is_favorite := false; matched_at := now;
     match_created_at := now; match_updated_at := now |}.

(** [INSERT INTO matches ... ON CONFLICT (couple_id, recipe_id) DO NOTHING]:
    the insert-if-absent of the store.  It raises only when the generated
    primary key is taken. *)
Definition insert_match_on_conflict_do_nothing
    (id cid rid : string) (now : Z) (db : DB) : Error + DB :=
  match find_match db cid rid with
  | Some _ => inr db
  | None =>
      if existsb (fun m => bool_decide (match_id m = id)) (matches db)
      then inl (unique_violation "matches_pkey")
      else inr (with_matches db (matches db ++ [new_match id cid rid now]))
  end.

(** The trigger function [check_for_match], run after a row [NEW] was added
    to [swipes]. *)
Definition check_for_match (e : Env) (NEW : Swipe) (db : DB) : Error + DB :=
  match swipe_direction NEW with
  | like =>
      let partner_id :=
        match find_couple db (swipe_couple_id NEW) with
        | Some c =>
            if bool_decide (user1_id c = swipe_user_id NEW)
            then user2_id c else Some (user1_id c)
        | None => None
        end in
      let partner_swipe_direction :=
        match partner_id with
        | Some p =>
            match find_swipe db p (swipe_recipe_id NEW) (swipe_couple_id NEW) with
            | Some s => Some (swipe_direction s)
            | None => None
            end
        | None => None
        end in
      if bool_decide (partner_swipe_direction = Some like)
      then insert_match_on_conflict_do_nothing (env_trigger_uuid e)
             (swipe_couple_id NEW) (swipe_recipe_id NEW) (env_now e) db
      else inr db
  | dislike => inr db
  end.

(** The row [NEW] of an insert into [swipes]: [id] and [created_at] take
    their column defaults. *)
Definition new_swipe (e : Env) (uid rid cid : string) (d : Direction) : Swipe :=
  {| swipe_id := env_uuid e; swipe_user_id := uid; swipe_recipe_id := rid;
     swipe_couple_id := cid; swipe_direction := d;
     swipe_created_at := env_now e |}.

(** [INSERT INTO swipes (user_id, recipe_id, couple_id, direction)] by the
    user [auth], with its policy, its constraints and the trigger
    [on_swipe_created]; the statement is undone when the trigger raises. *)
Definition insert_swipe (e : Env) (auth uid rid cid : string) (d : Direction)
    (db : DB) : DB * (Error + Swipe) :=
  if negb (swipes_insert_policy db auth uid cid)
  then (db, inl (rls_violation "swipes"))
  else if existsb (fun s => bool_decide (swipe_id s = env_uuid e)) (swipes db)
  then (db, inl (unique_violation "swipes_pkey"))
  else match find_swipe db uid rid cid with
  | Some _ => (db, inl (unique_violation "unique_user_recipe_swipe"))
  | None =>
      let NEW := new_swipe e uid rid cid d in
      match check_for_match e NEW (with_swipes db (swipes db ++ [NEW])) with
      | inr db' => (db', inr NEW)
      | inl err => (db, inl err)
      end
  end.

(** *** An insert that overlaps other transactions

    The insert and its trigger are one transaction.  The schema and the
    clients set no isolation level and take no lock, so the store runs it
    read committed: a query sees the rows committed before the query began
    and the rows its own transaction wrote.  The
    [SELECT direction INTO partner_swipe_direction] of the trigger can so
    run on an older store than the one the transaction commits on, and
    miss a like the partner inserts meanwhile.  The constraints are
    enforced on the committed rows: of two inserts of one key the one that
    commits second is refused, and [ON CONFLICT DO NOTHING] skips a row
    committed meanwhile. *)

(** What the [SELECT] of [check_for_match] stores in
    [partner_swipe_direction], on the rows [db] it sees. *)
Definition partner_swipe_direction (NEW : Swipe) (db : DB) : option Direction :=
  let partner_id :=
    match find_couple db (swipe_couple_id NEW) with
    | Some c =>
        if bool_decide (user1_id c = swipe_user_id NEW)
        then user2_id c else Some (user1_id c)
    | None => None
    end in
  match partner_id with
  | Some p =>
      match find_swipe db p (swipe_recipe_id NEW) (swipe_couple_id NEW) with
      | Some s => Some (swipe_direction s)
      | None => None
      end
  | None => None
  end.

(** The rows the trigger of an insert of [NEW] sees when its [SELECT] runs
    on the committed store [db]: those of [db] and its own row. *)
Definition trigger_reads (NEW : Swipe) (db : DB) : option Direction :=
  partner_swipe_direction NEW (with_swipes db (swipes db ++ [NEW])).

(** The rest of [check_for_match], the [SELECT] having stored [seen]. *)
Definition check_for_match_then (seen : option Direction) (e : Env)
    (NEW : Swipe) (db : DB) : Error + DB :=
  match swipe_direction NEW with
  | like =>
      if bool_decide (seen = Some like)
      then insert_match_on_conflict_do_nothing (env_trigger_uuid e)
             (swipe_couple_id NEW) (swipe_recipe_id NEW) (env_now e) db
      else inr db
  | dislike => inr db
  end.

(** The insert of [insert_swipe] committing on [db], its trigger having
    read [seen] before. *)
Definition commit_swipe (seen : option Direction) (e : Env)
    (auth uid rid cid : string) (d : Direction) (db : DB)
  : DB * (Error + Swipe) :=
  if negb (swipes_insert_policy db auth uid cid)
  then (db, inl (rls_violation "swipes"))
  else if existsb (fun s => bool_decide (swipe_id s = env_uuid e)) (swipes db)
  then (db, inl (unique_violation "swipes_pkey"))
  else match find_swipe db uid rid cid with
  | Some _ => (db, inl (unique_violation "unique_user_recipe_swipe"))
  | None =>
      let NEW := new_swipe e uid rid cid d in
      match check_for_match_then seen e NEW
              (with_swipes db (swipes db ++ [NEW])) with
      | inr db' => (db', inr NEW)
      | inl err => (db, inl err)
      end
  end.

(** [INSERT INTO matches (couple_id, recipe_id, is_favorite)] by the user
    [auth]: a plain insert, refused by [unique_couple_recipe_match] when the
    pair is present. *)
Definition insert_match (e : Env) (auth cid rid : string) (fav : bool)
    (db : DB) : DB * (Error + Match) :=
  if negb (in_couple_policy db auth cid)
  then (db, inl (rls_violation "matches"))
  else if existsb (fun m => bool_decide (match_id m = env_uuid e)) (matches db)
  then (db, inl (unique_violation "matches_pkey"))
  else match find_match db cid rid with
  | Some _ => (db, inl (unique_violation "unique_couple_recipe_match"))
  | None =>
      (* matched_at, created_at and updated_at default to NOW() *)
      let m := {| match_id := env_uuid e; match_couple_id := cid;
                  match_recipe_id := rid; is_favorite := fav;
                  matched_at := env_now e; match_created_at := env_now e;
                  match_updated_at := env_now e |} in
      (with_matches db (matches db ++ [m]), inr m)
  end.

(** [UPDATE matches SET is_favorite = fav WHERE id = mid] by the user [auth];
    the trigger [update_matches_updated_at] stamps every updated row. *)
Definition set_favorite (fav : bool) (now : Z) (m : Match) : Match :=
  {| match_id := match_id m; match_couple_id := match_couple_id m;
     match_recipe_id := match_recipe_id m; is_favorite := fav;
     matched_at := matched_at m; match_created_at := match_created_at m;
     match_updated_at := now |}.

Definition update_favorite (e : Env) (auth mid : string) (fav : bool)
    (db : DB) : DB :=
  with_matches db
    (map (fun m =>
            if bool_decide (match_id m = mid)
               && in_couple_policy db auth (match_couple_id m)
            then set_favorite fav (env_now e) m else m)
       (matches db)).

(** The rows a select returns: those that match the filters and that the
    select policy shows to [auth]. *)
Definition select_swipes_like (auth uid rid cid : string) (db : DB) : list Swipe :=
  filter (fun s => swipe_key s = (uid, rid, cid) /\ swipe_direction s = like
                   /\ in_couple_policy db auth (swipe_couple_id s) = true)
    (swipes db).

Definition select_matches (auth cid rid : string) (db : DB) : list Match :=
  filter (fun m => match_key m = (cid, rid)
                   /\ in_couple_policy db auth (match_couple_id m) = true)
    (matches db).

(** [.maybeSingle()]: no row is [null], one row is the row, more is an
    error. *)
Definition maybeSingle {A} (rows : list A) : Response A :=
  match rows with
  | [] => answer None
  | [x] => answer (Some x)
  | _ => failure not_single_row
  end.

(** [.single()]: exactly one row, or an error. *)
Definition single {A} (rows : list A) : Response A :=
  match rows with
  | [x] => answer (Some x)
  | _ => failure not_single_row
  end.

Definition of_insert {A} (r : Error + A) : Response A :=
  match r with
  | inr a => answer (Some a)
  | inl err => failure err
  end.

(** ** The world and the effects of client code *)

Inductive Request :=
| insert_into_swipes (uid rid cid : string) (d : Direction)
| select_partner_swipe (uid rid cid : string)
| select_existing_match (cid rid : string)
| insert_into_matches (cid rid : string)
| update_matches (mid : string) (fav : bool)
| select_push_token (uid : string).

(** The body of the POST to [https://exp.host/--/api/v2/push/send]. *)
Record Message := {
  msg_to : string;
  msg_sound : string;
  msg_title : string;
  msg_body : string;
  msg_data : string * string   (* type, recipeName *)
}.

Inductive Event :=
| Query (q : Request)
| GatewayPost (m : Message)
| console_error (label : string)
| console_warn (label : string)
| errorLogger_error (component action : string) (err : Error)
| toast_error (text : string)
| setMatchAnimation (recipeId : string).

Record World := {
  w_db : DB;
  w_trace : list Event
}.

Inductive Res (A : Type) :=
| Value (a : A)
| Raised (err : Error).
Arguments Value {A} _.
Arguments Raised {A} _.

(** Client code: it reads and changes the world, and returns or raises. *)
Definition Js (A : Type) : Type := World -> Res A * World.

Definition ret {A} (a : A) : Js A := fun w => (Value a, w).

Definition bind {A B} (m : Js A) (k : A -> Js B) : Js B :=
  fun w =>
    match m w with
    | (Value a, w') => k a w'
    | (Raised err, w') => (Raised err, w')
    end.

Definition try_catch {A} (m : Js A) (handler : Error -> Js A) : Js A :=
  fun w =>
    match m w with
    | (Value a, w') => (Value a, w')
    | (Raised err, w') => handler err w'
    end.

Definition raise {A} (err : Error) : Js A := fun w => (Raised err, w).

Definition emit (ev : Event) : Js unit :=
  fun w => (Value tt, {| w_db := w_db w; w_trace := ev :: w_trace w |}).

Notation "'let*' x ':=' m 'in' k" := (bind m (fun x => k))
  (at level 10, x name, m at level 100, k at level 200).
Notation "m ';;' k" := (bind m (fun _ => k))
  (at level 100, k at level 200, right associativity).

(** One request to the store: recorded, then served, refused or raising as
    the environment decides. *)
Definition request {A} (e : Env) (q : Request) (run : DB -> DB * Response A)
  : Js (Response A) :=
  fun w =>
    let tr := Query q :: w_trace w in
    match env_outcome e with
    | Responds =>
        let '(db', r) := run (w_db w) in
        (Value r, {| w_db := db'; w_trace := tr |})
    | Fails => (Value (failure unavailable), {| w_db := w_db w; w_trace := tr |})
    | Throws => (Raised exception, {| w_db := w_db w; w_trace := tr |})
    end.

Definition read_only {A} (f : DB -> Response A) : DB -> DB * Response A :=
  fun db => (db, f db).

(** [supabase.from('swipes').insert({...}).select().single()] *)
Definition from_swipes_insert (e : Env) (auth uid rid cid : string)
    (d : Direction) : Js (Response Swipe) :=
  request e (insert_into_swipes uid rid cid d)
    (fun db => let '(db', r) := insert_swipe e auth uid rid cid d db in
               (db', of_insert r)).

(** A request whose transaction stays open is recorded when it is sent
    ([sent]) and answered when it commits ([committed]). *)
Definition sent (q : Request) (w : World) : World :=
  {| w_db := w_db w; w_trace := Query q :: w_trace w |}.

Definition committed {A} (run : DB -> DB * Response A) : Js (Response A) :=
  fun w =>
    let '(db', r) := run (w_db w) in
    (Value r, {| w_db := db'; w_trace := w_trace w |}).

(** The answer to the insert into [swipes] that was sent with [e] and
    whose trigger read [seen]. *)
Definition from_swipes_commit (seen : option Direction) (e : Env)
    (auth uid rid cid : string) (d : Direction) : Js (Response Swipe) :=
  committed
    (fun db => let '(db', r) := commit_swipe seen e auth uid rid cid d db in
               (db', of_insert r)).

(** [supabase.from('swipes').select('*').eq(...).eq('direction', 'like')
    .maybeSingle()] *)
Definition from_swipes_select_like (e : Env) (auth uid rid cid : string)
  : Js (Response Swipe) :=
  request e (select_partner_swipe uid rid cid)
    (read_only (fun db => maybeSingle (select_swipes_like auth uid rid cid db))).

(** [supabase.from('matches').select('*').eq(...).eq(...).maybeSingle()] *)
Definition from_matches_select (e : Env) (auth cid rid : string)
  : Js (Response Match) :=
  request e (select_existing_match cid rid)
    (read_only (fun db => maybeSingle (select_matches auth cid rid db))).

(** [supabase.from('matches').insert({...}).select().single()] *)
Definition from_matches_insert (e : Env) (auth cid rid : string) (fav : bool)
  : Js (Response Match) :=
  request e (insert_into_matches cid rid)
    (fun db => let '(db', r) := insert_match e auth cid rid fav db in
               (db', of_insert r)).

(** [supabase.from('matches').update({ is_favorite }).eq('id', matchId)] *)
Definition from_matches_update (e : Env) (auth mid : string) (fav : bool)
  : Js (Response unit) :=
  request e (update_matches mid fav)
    (fun db => (update_favorite e auth mid fav db, answer None)).

(** JavaScript truthiness of a [string | null]. *)
Definition truthy (s : option string) : bool :=
  match s with
  | Some x => negb (bool_decide (x = ""))
  | None => false
  end.

(** ** [useSwipes]: recording a swipe and detecting a match *)

Module SwipeResult.
Record t := {
  swipe : option Swipe;
  isMatch : bool;
  match_ : option Match;
  error : option Error
}.
End SwipeResult.

Definition swipe_result (s : option Swipe) (b : bool) (m : option Match)
    (err : option Error) : SwipeResult.t :=
  {| SwipeResult.swipe := s; SwipeResult.isMatch := b;
     SwipeResult.match_ := m; SwipeResult.error := err |}.

Record UseSwipesOptions := {
  coupleId : string;
  userId : string;
  partnerId : option string
}.

(** The environment of the four statements a call can issue. *)
Record Envs := {
  env_swipe : Env;
  env_partner : Env;
  env_existing : Env;
  env_create : Env
}.

(** The [catch] block of [recordSwipe]. *)
Definition recordSwipe_catch (err : Error) : Js SwipeResult.t :=
  emit (console_error "Error recording swipe:") ;;
  emit (errorLogger_error "useSwipes" "recordSwipe" err) ;;
  ret (swipe_result None false None (Some err)).

(** [recordSwipe(recipeId, direction)] of the hook, called in the session of
    the user [auth]. *)
Definition recordSwipe (auth : string) (o : UseSwipesOptions) (es : Envs)
    (recipeId : string) (direction : Direction) : Js SwipeResult.t :=
  try_catch
    (let* ins := from_swipes_insert (env_swipe es) auth (userId o) recipeId
                   (coupleId o) direction in
     match error ins with
     | Some swipeError =>
         emit (errorLogger_error "useSwipes" "recordSwipe" swipeError) ;;
         ret (swipe_result None false None (Some swipeError))
     | None =>
         let swipe := data ins in
         match direction with
         | dislike => ret (swipe_result swipe false None None)
         | like =>
             if negb (truthy (partnerId o))
             then ret (swipe_result swipe false None None)
             else
               let* ps := from_swipes_select_like (env_partner es) auth
                            (default "" (partnerId o)) recipeId (coupleId o) in
               match error ps with
               | Some partnerSwipeError =>
                   emit (console_error "Error checking partner swipe:") ;;
                   emit (errorLogger_error "useSwipes" "checkPartnerSwipe"
                           partnerSwipeError) ;;
                   ret (swipe_result swipe false None None)
               | None =>
                   match data ps with
                   | Some partnerSwipe =>
                       let* ex := from_matches_select (env_existing es) auth
                                    (coupleId o) recipeId in
                       match data ex with
                       | Some existingMatch =>
                           ret (swipe_result swipe true (Some existingMatch) None)
                       | None =>
                           let* cr := from_matches_insert (env_create es) auth
                                        (coupleId o) recipeId false in
                           match error cr with
                           | Some matchError =>
                               emit (console_error "Error creating match:") ;;
                               emit (errorLogger_error "useSwipes" "createMatch"
                                       matchError) ;;
                               ret (swipe_result swipe false None None)
                           | None =>
                               ret (swipe_result swipe true (data cr) None)
                           end
                       end
                   | None => ret (swipe_result swipe false None None)
                   end
               end
         end
     end)
    recordSwipe_catch.

(** [recordSwipe(recipeId, direction, coupleId)] of [lib/supabase.ts]: the
    insert alone. *)
Definition lib_recordSwipe (e : Env) (auth recipeId : string)
    (direction : Direction) (coupleId : string)
  : Js (option Swipe * option Error) :=
  let* r := from_swipes_insert e auth auth recipeId coupleId direction in
  match error r with
  | Some err => ret (None, Some err)
  | None => ret (data r, None)
  end.

(** *** The same hook, one statement at a time

    Between two statements of a call other clients may run, and so they
    may between the read of the trigger and the commit of the call's
    insert.  A call in flight is its arguments and the point it has
    reached; at [at_commit_swipe] its insert was sent with [e], the
    trigger has read [seen], and the transaction is open. *)

Inductive Pc :=
| at_insert_swipe
| at_commit_swipe (e : Env) (seen : option Direction)
| at_partner_lookup (swipe : option Swipe)
| at_existing_lookup (swipe : option Swipe)
| at_create_match (swipe : option Swipe)
| returned (r : SwipeResult.t).

Record Call := {
  call_auth : string;
  call_options : UseSwipesOptions;
  call_recipe : string;
  call_direction : Direction;
  call_pc : Pc
}.

Definition at_pc (c : Call) (pc : Pc) : Call :=
  {| call_auth := call_auth c; call_options := call_options c;
     call_recipe := call_recipe c; call_direction := call_direction c;
     call_pc := pc |}.

Definition start_call (auth : string) (o : UseSwipesOptions) (recipeId : string)
    (direction : Direction) : Call :=
  {| call_auth := auth; call_options := o; call_recipe := recipeId;
     call_direction := direction; call_pc := at_insert_swipe |}.

(** The code between the answer to the insert into [swipes] and the next
    statement. *)
Definition after_insert (c : Call) (ins : Response Swipe) : Js Pc :=
  let o := call_options c in
  match error ins with
  | Some swipeError =>
      emit (errorLogger_error "useSwipes" "recordSwipe" swipeError) ;;
      ret (returned (swipe_result None false None (Some swipeError)))
  | None =>
      match call_direction c with
      | dislike => ret (returned (swipe_result (data ins) false None None))
      | like =>
          if negb (truthy (partnerId o))
          then ret (returned (swipe_result (data ins) false None None))
          else ret (at_partner_lookup (data ins))
      end
  end.

(** The statement at [call_pc c] and the code up to the next statement. *)
Definition segment (e : Env) (c : Call) : Js Pc :=
  let o := call_options c in
  match call_pc c with
  | at_insert_swipe =>
      let* ins := from_swipes_insert e (call_auth c) (userId o) (call_recipe c)
                    (coupleId o) (call_direction c) in
      after_insert c ins
  | at_commit_swipe e0 seen =>
      let* ins := from_swipes_commit seen e0 (call_auth c) (userId o)
                    (call_recipe c) (coupleId o) (call_direction c) in
      after_insert c ins
  | at_partner_lookup swipe =>
      let* ps := from_swipes_select_like e (call_auth c)
                   (default "" (partnerId o)) (call_recipe c) (coupleId o) in
      match error ps with
      | Some partnerSwipeError =>
          emit (console_error "Error checking partner swipe:") ;;
          emit (errorLogger_error "useSwipes" "checkPartnerSwipe"
                  partnerSwipeError) ;;
          ret (returned (swipe_result swipe false None None))
      | None =>
          match data ps with
          | Some _ => ret (at_existing_lookup swipe)
          | None => ret (returned (swipe_result swipe false None None))
          end
      end
  | at_existing_lookup swipe =>
      let* ex := from_matches_select e (call_auth c) (coupleId o)
                   (call_recipe c) in
      match data ex with
      | Some existingMatch =>
          ret (returned (swipe_result swipe true (Some existingMatch) None))
      | None => ret (at_create_match swipe)
      end
  | at_create_match swipe =>
      let* cr := from_matches_insert e (call_auth c) (coupleId o)
                   (call_recipe c) false in
      match error cr with
      | Some matchError =>
          emit (console_error "Error creating match:") ;;
          emit (errorLogger_error "useSwipes" "createMatch" matchError) ;;
          ret (returned (swipe_result swipe false None None))
      | None => ret (returned (swipe_result swipe true (data cr) None))
      end
  | returned r => ret (returned r)
  end.

(** One step of a call: its segment under the [try]/[catch] of the hook. *)
Definition call_step (e : Env) (c : Call) (w : World) : Call * World :=
  match call_pc c with
  | returned _ => (c, w)
  | _ =>
      match try_catch
              (let* pc := segment e c in ret pc)
              (fun err => let* r := recordSwipe_catch err in ret (returned r))
              w with
      | (Value pc, w') => (at_pc c pc, w')
      | (Raised _, w') => (c, w')
      end
  end.

(** The insert of a call reaches the store and its trigger reads, and the
    transaction stays open; [call_step] commits it later. *)
Definition begin_insert (e : Env) (c : Call) (w : World) : Call * World :=
  let o := call_options c in
  match call_pc c, env_outcome e with
  | at_insert_swipe, Responds =>
      let NEW := new_swipe e (userId o) (call_recipe c) (coupleId o)
                   (call_direction c) in
      (at_pc c (at_commit_swipe e (trigger_reads NEW (w_db w))),
       sent (insert_into_swipes (userId o) (call_recipe c) (coupleId o)
               (call_direction c)) w)
  | _, _ => (c, w)
  end.

Fixpoint run_call (es : list Env) (c : Call) (w : World) : Call * World :=
  match es with
  | [] => (c, w)
  | e :: es' => let '(c', w') := call_step e c w in run_call es' c' w'
  end.

(** ** [SwipeScreen]: the options of the hook and the right-swipe handler *)

(** [loadUserData]: the couple of the user, and the partner read off it. *)
Definition screen_options (c : Couple) (uid : string) : UseSwipesOptions :=
  {| coupleId := couple_id c;
     userId := uid;
     partnerId := if bool_decide (user1_id c = uid)
                  then user2_id c else Some (user1_id c) |}.

(** [handleSwipeRight(index)], with [recipes[index]] and [couple] as the
    screen holds them. *)
Definition handleSwipeRight (auth : string) (couple : option Couple)
    (recipe : option string) (es : Envs) : Js unit :=
  match recipe, couple with
  | Some recipeId, Some c =>
      let* result := recordSwipe auth (screen_options c auth) es recipeId like in
      match SwipeResult.error result with
      | Some err =>
          emit (console_error "Error recording swipe:") ;;
          emit (errorLogger_error "SwipeScreen" "handleSwipeRight" err) ;;
          emit (toast_error "Failed to record swipe. Please try again.")
      | None =>
          if SwipeResult.isMatch result
             && bool_decide (is_Some (SwipeResult.match_ result))
          then emit (setMatchAnimation recipeId)
          else ret tt
      end
  | _, _ => ret tt
  end.

(** ** [useMatches.toggleFavorite] *)

Record MatchWithRecipe := {
  row : Match;
  recipe_title : string
}.

Record UseMatches := {
  local_matches : list MatchWithRecipe;
  local_error : option Error
}.

(** [{ ...m, is_favorite: newFavoriteStatus }] *)
Definition with_is_favorite (fav : bool) (m : MatchWithRecipe) : MatchWithRecipe :=
  {| row := {| match_id := match_id (row m);
               match_couple_id := match_couple_id (row m);
               match_recipe_id := match_recipe_id (row m);
               is_favorite := fav;
               matched_at := matched_at (row m);
               match_created_at := match_created_at (row m);
               match_updated_at := match_updated_at (row m) |};
     recipe_title := recipe_title m |}.

Definition toggleFavorite (e : Env) (auth matchId : string) (h : UseMatches)
  : Js UseMatches :=
  try_catch
    (match List.find (fun m => bool_decide (match_id (row m) = matchId))
             (local_matches h) with
     | None => ret h
     | Some m =>
         let newFavoriteStatus := negb (is_favorite (row m)) in
         let* upd := from_matches_update e auth matchId newFavoriteStatus in
         match error upd with
         | Some updateError => raise updateError
         | None =>
             ret {| local_matches :=
                      map (fun m => if bool_decide (match_id (row m) = matchId)
                                    then with_is_favorite newFavoriteStatus m
                                    else m)
                        (local_matches h);
                    local_error := local_error h |}
         end
     end)
    (fun err =>
       emit (console_error "Error toggling favorite:") ;;
       emit (errorLogger_error "useMatches" "toggleFavorite" err) ;;
       ret {| local_matches := local_matches h; local_error := Some err |}).

(** ** [sendMatchNotification] *)

(** "Users can view their own profile":
    [supabase.from('profiles').select('push_token').eq('id', uid).single()] *)
Definition select_push_tokens (auth uid : string) (db : DB)
  : list (option string) :=
  map push_token
    (filter (fun p => profile_id p = uid /\ auth = profile_id p) (profiles db)).

Definition from_profiles_select_push_token (e : Env) (auth uid : string)
  : Js (Response (option string)) :=
  request e (select_push_token uid)
    (read_only (fun db => single (select_push_tokens auth uid db))).

(** What the push gateway does with a POST: it answers without an [errors]
    member, answers with one, or the [fetch] (or reading its body) rejects. *)
Inductive Gateway := gateway_ok | gateway_errors | gateway_rejects.

(** [result.errors] after [await fetch(...)] and [await response.json()]. *)
Definition fetch_push (g : Gateway) (m : Message) : Js bool :=
  emit (GatewayPost m) ;;
  match g with
  | gateway_ok => ret false
  | gateway_errors => ret true
  | gateway_rejects => raise exception
  end.

Definition dquote : string := String.String (Ascii.ascii_of_nat 34) "".

Definition match_message (token recipeName : string) : Message :=
  {| msg_to := token;
     msg_sound := "default";
     msg_title := "It's a Match!";
     msg_body := "You both liked " +:+ dquote +:+ recipeName +:+ dquote
                 +:+ "! Time to add it to your meal plan.";
     msg_data := ("match", recipeName) |}.

(** The token the guard [error || !profile?.push_token] lets through. *)
Definition usable_token (r : Response (option string)) : option string :=
  match error r, data r with
  | None, Some (Some token) => if truthy (Some token) then Some token else None
  | _, _ => None
  end.

Definition sendMatchNotification (e : Env) (g : Gateway)
    (auth recipientUserId recipeName : string) : Js bool :=
  try_catch
    (let* r := from_profiles_select_push_token e auth recipientUserId in
     match usable_token r with
     | None =>
         emit (console_warn "No push token found for recipient") ;;
         ret false
     | Some token =>
         let* errors := fetch_push g (match_message token recipeName) in
         if errors
         then emit (console_error "Error sending push notification:") ;;
              ret false
         else ret true
     end)
    (fun _ =>
       emit (console_error "Error sending match notification:") ;;
       ret false).

(** ** [useRealtime]: the connection state of a subscription *)

Inductive Status := SUBSCRIBED | TIMED_OUT | CLOSED | CHANNEL_ERROR.

Definition status_name (s : Status) : string :=
  match s with
  | SUBSCRIBED => "SUBSCRIBED"
  | TIMED_OUT => "TIMED_OUT"
  | CLOSED => "CLOSED"
  | CHANNEL_ERROR => "CHANNEL_ERROR"
  end.

Record RealtimeConnectionState := {
  connected : bool;
  connection_error : option string
}.

(** The state of the hook, and of the channels of the realtime client:
    channel [n] is the [n]-th one created. *)
Record UseRealtime := {
  connectionState : RealtimeConnectionState;
  channel : option nat;
  channels_created : nat;
  channels_unsubscribed : list nat
}.

Definition initial_realtime : UseRealtime :=
  {| connectionState := {| connected := false; connection_error := None |};
     channel := None; channels_created := 0; channels_unsubscribed := [] |}.

(** The callback given to [.subscribe(...)]. *)
Definition on_status (s : Status) (h : UseRealtime) : UseRealtime :=
  match s with
  | SUBSCRIBED =>
      {| connectionState := {| connected := true; connection_error := None |};
         channel := channel h; channels_created := channels_created h;
         channels_unsubscribed := channels_unsubscribed h |}
  | CLOSED | CHANNEL_ERROR =>
      {| connectionState :=
           {| connected := false;
              connection_error := Some ("Connection " +:+ status_name s) |};
         channel := channel h; channels_created := channels_created h;
         channels_unsubscribed := channels_unsubscribed h |}
  | TIMED_OUT => h
  end.

(** [subscribe()]; [captured] is the [channel] its closure holds. *)
Definition subscribe (coupleId : option string) (enabled : bool)
    (captured : option nat) (h : UseRealtime) : UseRealtime :=
  if negb (truthy coupleId) || negb enabled then h
  else
    {| connectionState := connectionState h;
       channel := Some (channels_created h);
       channels_created := S (channels_created h);
       channels_unsubscribed :=
         match captured with
         | Some ch => ch :: channels_unsubscribed h
         | None => channels_unsubscribed h
         end |}.

(** [unsubscribe()] *)
Definition unsubscribe (h : UseRealtime) : UseRealtime :=
  match channel h with
  | Some ch =>
      {| connectionState := {| connected := false; connection_error := None |};
         channel := None; channels_created := channels_created h;
         channels_unsubscribed := ch :: channels_unsubscribed h |}
  | None => h
  end.

(** What can happen to the hook: the screen calls it, or the client
    delivers the status of a channel it created. *)
Inductive RealtimeEvent :=
| call_subscribe (coupleId : option string) (enabled : bool)
    (captured : option nat)
| call_unsubscribe
| deliver_status (ch : nat) (s : Status).

Definition realtime_step (h : UseRealtime) (ev : RealtimeEvent) : UseRealtime :=
  match ev with
  | call_subscribe c en cap => subscribe c en cap h
  | call_unsubscribe => unsubscribe h
  | deliver_status ch s =>
      if Nat.ltb ch (channels_created h) then on_status s h else h
  end.

Definition realtime_run (evs : list RealtimeEvent) (h : UseRealtime) : UseRealtime :=
  fold_left realtime_step evs h.

(** ** The whole system: clients interleaving on one store *)

(** A plain insert of [lib/supabase.ts] whose transaction is open. *)
Record OpenInsert := {
  open_env : Env;
  open_auth : string;
  open_recipe : string;
  open_direction : Direction;
  open_couple : string;
  open_seen : option Direction
}.

Record System := {
  sys_world : World;
  sys_calls : list Call;
  sys_open : list OpenInsert
}.

Inductive Action :=
| swipe_card (c : Couple) (uid recipeId : string) (d : Direction)
| advance (i : nat) (e : Env)
| begin (i : nat) (e : Env)
| lib_swipe (e : Env) (auth recipeId : string) (d : Direction) (cid : string)
| lib_begin (e : Env) (auth recipeId : string) (d : Direction) (cid : string)
| lib_commit (j : nat)
| favorite (e : Env) (auth mid : string) (fav : bool)
| notify (e : Env) (g : Gateway) (auth recipient recipeName : string).

Definition with_world (s : System) (w : World) : System :=
  {| sys_world := w; sys_calls := sys_calls s; sys_open := sys_open s |}.

Definition open_insert (e : Env) (auth recipeId : string) (d : Direction)
    (cid : string) (db : DB) : OpenInsert :=
  {| open_env := e; open_auth := auth; open_recipe := recipeId;
     open_direction := d; open_couple := cid;
     open_seen := trigger_reads (new_swipe e auth recipeId cid d) db |}.

(** [swipe_card]: a swipe handler of [SwipeScreen] starts [recordSwipe] for
    the signed-in user and the couple the screen loaded.  [advance]: call
    [i] issues its next statement, or has the insert it began committed.
    [begin]: the insert of call [i] reaches the store and its trigger
    reads.  [lib_swipe] is the plain insert that overlaps nothing,
    [lib_begin] and [lib_commit] are the two ends of one that may.  The
    other actions are one statement (or one call without a store write)
    each. *)
Definition sys_step (s : System) (a : Action) : System :=
  match a with
  | swipe_card c uid recipeId d =>
      if bool_decide (c ∈ couples (w_db (sys_world s))) && is_member c uid
      then {| sys_world := sys_world s;
              sys_calls := sys_calls s
                           ++ [start_call uid (screen_options c uid) recipeId d];
              sys_open := sys_open s |}
      else s
  | advance i e =>
      match sys_calls s !! i with
      | Some c =>
          let '(c', w') := call_step e c (sys_world s) in
          {| sys_world := w'; sys_calls := <[i := c']> (sys_calls s);
             sys_open := sys_open s |}
      | None => s
      end
  | begin i e =>
      match sys_calls s !! i with
      | Some c =>
          let '(c', w') := begin_insert e c (sys_world s) in
          {| sys_world := w'; sys_calls := <[i := c']> (sys_calls s);
             sys_open := sys_open s |}
      | None => s
      end
  | lib_swipe e auth recipeId d cid =>
      with_world s (snd (lib_recordSwipe e auth recipeId d cid (sys_world s)))
  | lib_begin e auth recipeId d cid =>
      match env_outcome e with
      | Responds =>
          {| sys_world := sent (insert_into_swipes auth recipeId cid d)
                            (sys_world s);
             sys_calls := sys_calls s;
             sys_open := sys_open s
                         ++ [open_insert e auth recipeId d cid
                               (w_db (sys_world s))] |}
      | Fails | Throws => s
      end
  | lib_commit j =>
      match sys_open s !! j with
      | Some i =>
          {| sys_world :=
               snd (from_swipes_commit (open_seen i) (open_env i) (open_auth i)
                      (open_auth i) (open_recipe i) (open_couple i)
                      (open_direction i) (sys_world s));
             sys_calls := sys_calls s;
             sys_open := delete j (sys_open s) |}
      | None => s
      end
  | favorite e auth mid fav =>
      with_world s (snd (from_matches_update e auth mid fav (sys_world s)))
  | notify e g auth recipient recipeName =>
      with_world s
        (snd (sendMatchNotification e g auth recipient recipeName (sys_world s)))
  end.

Definition sys_run (acts : list Action) (s : System) : System :=
  fold_left sys_step acts s.

(** The couples and profiles come from account management; the ledger and
    the matches start empty. *)
Definition initial (cs : list Couple) (ps : list Profile) : System :=
  {| sys_world := {| w_db := {| couples := cs; swipes := []; matches := [];
                                profiles := ps |};
                     w_trace := [] |};
     sys_calls := []; sys_open := [] |}.

Definition reachable (cs : list Couple) (ps : list Profile) (s : System) : Prop :=
  exists acts, s = sys_run acts (initial cs ps).

(** ** Vocabulary of the properties *)

Definition liked (db : DB) (uid rid cid : string) : Prop :=
  exists s, s ∈ swipes db /\ swipe_key s = (uid, rid, cid)
            /\ swipe_direction s = like.

Definition has_match (db : DB) (cid rid : string) : Prop :=
  (cid, rid) ∈ map match_key (matches db).


Definition count_swipes (db : DB) (uid rid cid : string) : nat :=
  length (filter (fun s => swipe_key s = (uid, rid, cid)) (swipes db)).

(** The primary keys and uniqueness constraints of the schema. *)
Record constraints (db : DB) : Prop := {
  couples_pkey : NoDup (map couple_id (couples db));
  swipes_pkey : NoDup (map swipe_id (swipes db));
  unique_user_recipe_swipe : NoDup (map swipe_key (swipes db));
  matches_pkey : NoDup (map match_id (matches db));
  unique_couple_recipe_match : NoDup (map match_key (matches db))
}.

Definition requests_of (tr : list Event) : list Request :=
  omap (fun ev => match ev with Query q => Some q | _ => None end) tr.

Definition gateway_posts (tr : list Event) : list Message :=
  omap (fun ev => match ev with GatewayPost m => Some m | _ => None end) tr.

(** The columns of a match that no update may touch. *)
Definition immutable_columns (m : Match) : string * string * string * Z * Z :=
  (match_id m, match_couple_id m, match_recipe_id m, matched_at m,
   match_created_at m).

(** ** Frames and invariants *)

(** What setting a favourite may change: nothing but [is_favorite] and the
    [updated_at] stamp of the rows with the given id. *)
Definition only_favorite_changed (mid : string) (db db' : DB) : Prop :=
  couples db' = couples db /\ swipes db' = swipes db
  /\ profiles db' = profiles db
  /\ map immutable_columns (matches db') = map immutable_columns (matches db)
  /\ (forall i m, matches db !! i = Some m -> match_id m <> mid ->
                  matches db' !! i = Some m).

(** The two ways [toggleFavorite] leaves the list the hook holds. *)
Definition toggled (mid : string) (fav : bool) (h : UseMatches) : UseMatches :=
  {| local_matches :=
       map (fun m => if bool_decide (match_id (row m) = mid)
                     then with_is_favorite fav m else m) (local_matches h);
     local_error := local_error h |}.

Definition toggle_failed (err : Error) (h : UseMatches) : UseMatches :=
  {| local_matches := local_matches h; local_error := Some err |}.

(** The endpoint registered for a user: the push token of their profile. *)
Definition registered_endpoint (db : DB) (uid : string) : option string :=
  match filter (fun p => profile_id p = uid) (profiles db) with
  | [p] => if truthy (push_token p) then push_token p else None
  | _ => None
  end.

(** What the lookup of the dispatcher yields to its guard. *)
Definition endpoint_lookup (e : Env) (auth recipient : string) (db : DB)
  : option string :=
  match env_outcome e with
  | Responds => usable_token (single (select_push_tokens auth recipient db))
  | Fails | Throws => None
  end.

Definition gateway_accepts (g : Gateway) : bool :=
  match g with gateway_ok => true | _ => false end.

(** The partner as the trigger computes it. *)
Definition trigger_partner (db : DB) (cid uid : string) : option string :=
  match find_couple db cid with
  | Some c => if bool_decide (user1_id c = uid) then user2_id c
              else Some (user1_id c)
  | None => None
  end.

(** Whether the trigger finds a like of the partner. *)
Definition partner_liked (db : DB) (cid uid rid : string) : bool :=
  match trigger_partner db cid uid with
  | Some p =>
      match find_swipe db p rid cid with
      | Some s => bool_decide (swipe_direction s = like)
      | None => false
      end
  | None => false
  end.


(** A match exists only for a complete couple both of whose users liked the
    recipe. *)
Definition matches_sound (db : DB) : Prop :=
  forall cid rid, has_match db cid rid ->
    exists c u2, find_couple db cid = Some c /\ user2_id c = Some u2
                 /\ liked db (user1_id c) rid cid /\ liked db u2 rid cid.

Record db_inv (db : DB) : Prop := {
  inv_constraints : constraints db;
  inv_sound : matches_sound db
}.

(** Couples and profiles are fixed, the ledger and the matched pairs only
    grow. *)
Record db_grows (db db' : DB) : Prop := {
  grows_couples : couples db' = couples db;
  grows_profiles : profiles db' = profiles db;
  grows_swipes : forall s, s ∈ swipes db -> s ∈ swipes db';
  grows_matches : forall cid rid, has_match db cid rid -> has_match db' cid rid
}.

(** What the trigger of an open insert of [NEW] has read is on record by
    the time the insert commits: a like it saw is a like of the partner
    among the committed rows and [NEW]. *)
Definition read_ok (db : DB) (NEW : Swipe) (seen : option Direction) : Prop :=
  seen = Some like ->
  exists p, trigger_partner db (swipe_couple_id NEW) (swipe_user_id NEW) = Some p
            /\ liked (with_swipes db (swipes db ++ [NEW])) p
                 (swipe_recipe_id NEW) (swipe_couple_id NEW).

(** A call in flight was started by the swipe screen for a member of one of
    the couples, and has found what the statements behind it established. *)
Definition call_ok (db : DB) (c : Call) : Prop :=
  let o := call_options c in
  (exists cp, cp ∈ couples db /\ is_member cp (call_auth c) = true
              /\ o = screen_options cp (call_auth c))
  /\ match call_pc c with
     | at_insert_swipe | returned _ => True
     | at_commit_swipe e seen =>
         read_ok db (new_swipe e (userId o) (call_recipe c) (coupleId o)
                       (call_direction c)) seen
     | at_partner_lookup _ =>
         call_direction c = like
         /\ liked db (call_auth c) (call_recipe c) (coupleId o)
         /\ truthy (partnerId o) = true
     | at_existing_lookup _ | at_create_match _ =>
         call_direction c = like
         /\ liked db (call_auth c) (call_recipe c) (coupleId o)
         /\ exists p, partnerId o = Some p
                      /\ liked db p (call_recipe c) (coupleId o)
     end.

Definition open_ok (db : DB) (i : OpenInsert) : Prop :=
  read_ok db (new_swipe (open_env i) (open_auth i) (open_recipe i)
                (open_couple i) (open_direction i)) (open_seen i).

Record sys_inv (cs : list Couple) (s : System) : Prop := {
  sys_couples : couples (w_db (sys_world s)) = cs;
  sys_db_inv : db_inv (w_db (sys_world s));
  sys_calls_ok : Forall (call_ok (w_db (sys_world s))) (sys_calls s);
  sys_open_ok : Forall (open_ok (w_db (sys_world s))) (sys_open s)
}.


(** ** [SwipeScreen]: the left-swipe handler and the couple it loads *)

(** [handleSwipeLeft(index)], with [recipes[index]] and [couple] as the
    screen holds them. *)
Definition handleSwipeLeft (auth : string) (couple : option Couple)
    (recipe : option string) (es : Envs) : Js unit :=
  match recipe, couple with
  | Some recipeId, Some c =>
      let* result := recordSwipe auth (screen_options c auth) es recipeId
                       dislike in
      match SwipeResult.error result with
      | Some err =>
          emit (console_error "Error recording swipe:") ;;
          emit (errorLogger_error "SwipeScreen" "handleSwipeLeft" err) ;;
          emit (toast_error "Failed to record swipe. Please try again.")
      | None => ret tt
      end
  | _, _ => ret tt
  end.

(** [getCurrentUserCouple()] of [lib/supabase.ts], which [loadUserData]
    calls: the couple of the signed-in user, [null] when there is none, more
    than one, or the request is answered by an error.  The line it writes
    to the console is left out. *)
Definition getCurrentUserCouple (e : Env) (user : option string) (db : DB)
  : Res (option Couple) :=
  match user with
  | None => Value None
  | Some uid =>
      match env_outcome e with
      | Responds =>
          Value (data (single (filter (fun c => is_member c uid = true)
                                 (couples db))))
      | Fails => Value None
      | Throws => Raised exception
      end
  end.

(** ** [RecipeDetailScreen.toggleFavorite] *)

(** [toggleFavorite()] of the recipe screen, with the [matchId] of the route
    and the [isFavorite] the screen holds; it returns the [isFavorite] the
    screen holds afterwards.  The alert dialogs are left out. *)
Definition detail_toggleFavorite (e : Env) (auth : string)
    (matchId : option string) (isFavorite : bool) : Js bool :=
  if negb (truthy matchId) then ret isFavorite
  else
    try_catch
      (let newFavoriteStatus := negb isFavorite in
       let* upd := from_matches_update e auth (default "" matchId)
                     newFavoriteStatus in
       match error upd with
       | Some err => raise err
       | None => ret newFavoriteStatus
       end)
      (fun _ =>
         emit (console_error "Error updating favorite:") ;;
         ret isFavorite).

(** ** [useMatches]: filtering and sorting the list *)

Record MatchFilters := {
  query : option string;
  cuisineTypes : option (list string);
  favoritesOnly : option bool
}.

Inductive SortOption := recent | alphabetical | favorites.

(** A match of the list with the columns of its recipe that the cuisine
    filter reads. *)
Record ListedMatch := {
  listed : MatchWithRecipe;
  cuisine_type : option string;
  area : option string
}.

(** [Array.prototype.sort(compare)]: a stable sort; an element goes behind
    those that [compare] puts before it or level with it.  For a comparator
    that is not consistent the engine may order differently. *)
Fixpoint sort_insert {A} (compare : A -> A -> Z) (x : A) (l : list A) : list A :=
  match l with
  | [] => [x]
  | y :: l' =>
      if (0 <? compare x y)%Z then y :: sort_insert compare x l' else x :: l
  end.

Definition Array_sort {A} (compare : A -> A -> Z) (l : list A) : list A :=
  foldr (sort_insert compare) [] l.

Section useMatches_filters.
(** The string operations of the runtime. *)
Variables (toLowerCase trim : string -> string).
Variable includes : string -> string -> bool.
Variable localeCompare : string -> string -> Z.

(** [new Date(b.matched_at).getTime() - new Date(a.matched_at).getTime()] *)
Definition by_recent (a b : ListedMatch) : Z :=
  (matched_at (row (listed b)) - matched_at (row (listed a)))%Z.

Definition by_title (a b : ListedMatch) : Z :=
  localeCompare (recipe_title (listed a)) (recipe_title (listed b)).

Definition by_favorite (a b : ListedMatch) : Z :=
  if is_favorite (row (listed a)) && negb (is_favorite (row (listed b)))
  then (-1)%Z
  else if negb (is_favorite (row (listed a))) && is_favorite (row (listed b))
  then 1%Z
  else by_recent a b.

(** [match.recipe.cuisine_type?.toLowerCase() === cuisine.toLowerCase() ||
    match.recipe.area?.toLowerCase() === cuisine.toLowerCase()] *)
Definition has_cuisine (m : ListedMatch) (cuisine : string) : bool :=
  bool_decide (toLowerCase <$> cuisine_type m = Some (toLowerCase cuisine))
  || bool_decide (toLowerCase <$> area m = Some (toLowerCase cuisine)).

Definition applyFiltersAndSort (matchesToFilter : list ListedMatch)
    (filters : MatchFilters) (sort : SortOption) : list ListedMatch :=
  let result := matchesToFilter in
  let result :=
    match query filters with
    | Some q =>
        if truthy (Some q) && truthy (Some (trim q))
        then
          let query := trim (toLowerCase q) in
          filter (fun m => includes (toLowerCase (recipe_title (listed m))) query
                           = true) result
        else result
    | None => result
    end in
  let result :=
    match cuisineTypes filters with
    | Some cs =>
        if Nat.ltb 0 (length cs)
        then filter (fun m => existsb (has_cuisine m) cs = true) result
        else result
    | None => result
    end in
  let result :=
    match favoritesOnly filters with
    | Some true => filter (fun m => is_favorite (row (listed m)) = true) result
    | _ => result
    end in
  match sort with
  | recent => Array_sort by_recent result
  | alphabetical => Array_sort by_title result
  | favorites => Array_sort by_favorite result
  end.

(** [{ ...currentFilters, query, ...filters }] of [searchMatches]: a member
    that [filters] carries wins. *)
Definition search_filters (currentFilters : MatchFilters) (q : string)
    (filters : option MatchFilters) : MatchFilters :=
  let merged := {| query := Some q;
                   cuisineTypes := cuisineTypes currentFilters;
                   favoritesOnly := favoritesOnly currentFilters |} in
  match filters with
  | None => merged
  | Some f =>
      {| query := from_option Some (query merged) (query f);
         cuisineTypes := from_option Some (cuisineTypes merged) (cuisineTypes f);
         favoritesOnly := from_option Some (favoritesOnly merged)
                            (favoritesOnly f) |}
  end.

(** The list part of the state of [useMatches]. *)
Record UseMatchesList := {
  list_matches : list ListedMatch;
  filteredMatches : list ListedMatch;
  currentFilters : MatchFilters;
  sortBy : SortOption
}.

Definition searchMatches (q : string) (filters : option MatchFilters)
    (h : UseMatchesList) : UseMatchesList :=
  let newFilters := search_filters (currentFilters h) q filters in
  {| list_matches := list_matches h;
     filteredMatches := applyFiltersAndSort (list_matches h) newFilters (sortBy h);
     currentFilters := newFilters;
     sortBy := sortBy h |}.
End useMatches_filters.

(** ** [storePushToken] *)

Definition with_profiles (db : DB) (l : list Profile) : DB :=
  {| couples := couples db; swipes := swipes db;
     matches := matches db; profiles := l |}.

(** [UPDATE profiles SET push_token = token, updated_at = ... WHERE id = uid]
    by the user [auth], under "Users can update their own profile". *)
Definition update_push_token (auth uid token : string) (db : DB) : DB :=
  with_profiles db
    (map (fun p => if bool_decide (profile_id p = uid)
                      && bool_decide (auth = profile_id p)
                   then {| profile_id := profile_id p; push_token := Some token |}
                   else p)
       (profiles db)).

(** [storePushToken(userId, token)] in the session of [auth]: [false] when
    the update is answered by an error or raises, [true] otherwise.  The
    lines it writes to the console are left out. *)
Definition storePushToken (e : Env) (auth userId token : string) (db : DB)
  : bool * DB :=
  match env_outcome e with
  | Responds => (true, update_push_token auth userId token db)
  | Fails | Throws => (false, db)
  end.

(** ** [ErrorStorage]: the rotating error log

    The calls run one after another; a write that fails leaves the storage
    as it was. *)

Module ErrorStorage.
Definition MAX_ERRORS : nat := 1000.

(** What the storage (the [localStorage] item or the file) holds: nothing
    (no item, no file, or a blank one), text that [JSON.parse] rejects, or
    the array a [saveAll] wrote.  Nothing else writes to it, so JSON of
    another shape is not considered. *)
Inductive Stored (A : Type) :=
| nothing
| garbled
| saved (errors : list A).
Arguments nothing {A}.
Arguments garbled {A}.
Arguments saved {A} _.

(** [getAll()]: every failure reads as the empty log. *)
Definition getAll {A} (st : Stored A) : list A :=
  match st with
  | saved errors => errors
  | nothing | garbled => []
  end.

(** [saveAll(errors)]: a failed write is swallowed. *)
Definition saveAll {A} (write_ok : bool) (errors : list A) (st : Stored A)
  : Stored A :=
  if write_ok then saved errors else st.

(** [append(entry)] *)
Definition append {A} (write_ok : bool) (entry : A) (st : Stored A)
  : Stored A :=
  let errors := getAll st ++ [entry] in
  let errors :=
    if Nat.ltb MAX_ERRORS (length errors) then tail errors else errors in
  saveAll write_ok errors st.

(** A sequence of [append] calls, each with the outcome of its write. *)
Definition append_all {A} (calls : list (bool * A)) (st : Stored A) : Stored A :=
  fold_left (fun st c => append c.1 c.2 st) calls st.
End ErrorStorage.

(** ** Registering for push notifications *)

Inductive PermissionStatus := granted | denied | undetermined.

#[global] Instance PermissionStatus_eq_dec : EqDecision PermissionStatus.
Proof. solve_decision. Defined.





(** ** [aggregateIngredients]: the shopping list *)

Inductive IngredientCategory := Produce | Protein | Dairy | Pantry | Spices.

#[global] Instance IngredientCategory_eq_dec : EqDecision IngredientCategory.
Proof. solve_decision. Defined.

Record Ingredient := {
  ingredient : string;
  measure : string
}.

(** A recipe as [aggregateIngredients] receives it. *)
Record RecipeIngredients := {
  recipe_id : string;
  ingredients : list Ingredient
}.

Record AggregatedIngredient := {
  agg_ingredient : string;
  agg_measure : string;
  agg_category : IngredientCategory;
  agg_recipeIds : list string
}.

Record CategorizedIngredients := {
  cat_Produce : list AggregatedIngredient;
  cat_Protein : list AggregatedIngredient;
  cat_Dairy : list AggregatedIngredient;
  cat_Pantry : list AggregatedIngredient;
  cat_Spices : list AggregatedIngredient
}.

Definition bucket (c : CategorizedIngredients) (cat : IngredientCategory)
  : list AggregatedIngredient :=
  match cat with
  | Produce => cat_Produce c
  | Protein => cat_Protein c
  | Dairy => cat_Dairy c
  | Pantry => cat_Pantry c
  | Spices => cat_Spices c
  end.

(** [CATEGORY_KEYWORDS], in the order [Object.entries] lists it. *)
Definition CATEGORY_KEYWORDS : list (IngredientCategory * list string) :=
  [
    (Produce,
     [ "tomato"; "onion"; "garlic"; "pepper"; "lettuce"; "carrot"; "celery";
      "potato"; "spinach"; "mushroom"; "broccoli"; "cucumber"; "avocado";
      "lemon"; "lime"; "orange"; "apple"; "banana"; "strawberry";
      "blueberry"; "cilantro"; "parsley"; "basil"; "mint"; "thyme";
      "rosemary"; "dill"; "ginger"; "cabbage"; "corn"; "peas"; "beans";
      "zucchini"; "squash"; "kale"; "arugula"; "chard"; "beet"; "radish";
      "scallion"; "shallot"; "leek"; "fennel"; "artichoke"; "asparagus";
      "eggplant"; "turnip" ]);
    (Protein,
     [ "chicken"; "beef"; "pork"; "lamb"; "turkey"; "duck"; "fish"; "salmon";
      "tuna"; "shrimp"; "prawn"; "crab"; "lobster"; "scallop"; "clam";
      "mussel"; "egg"; "tofu"; "tempeh"; "bacon"; "sausage"; "ham"; "steak";
      "ground beef"; "ground pork"; "ground turkey"; "chorizo"; "cod";
      "halibut"; "mahi"; "tilapia"; "catfish"; "anchovy"; "sardine" ]);
    (Dairy,
     [ "milk"; "cream"; "butter"; "cheese"; "cheddar"; "mozzarella";
      "parmesan"; "yogurt"; "sour cream"; "cottage cheese"; "ricotta";
      "feta"; "goat cheese"; "blue cheese"; "swiss cheese"; "provolone";
      "brie"; "gouda"; "cream cheese"; "mascarpone"; "whipped cream";
      "half and half"; "buttermilk" ]);
    (Spices,
     [ "salt"; "pepper"; "paprika"; "cumin"; "coriander"; "cinnamon";
      "nutmeg"; "turmeric"; "curry"; "chili"; "cayenne"; "oregano"; "basil";
      "thyme"; "sage"; "bay leaf"; "cardamom"; "clove"; "allspice";
      "vanilla"; "extract"; "seasoning"; "spice"; "dried"; "powder";
      "ground"; "crushed"; "flakes"; "seeds"; "fresh herbs"; "anise";
      "fennel seed" ]);
    (Pantry,
     [ "flour"; "sugar"; "rice"; "pasta"; "oil"; "olive oil"; "vegetable oil";
      "canola oil"; "coconut oil"; "vinegar"; "soy sauce"; "worcestershire";
      "stock"; "broth"; "bouillon"; "tomato paste"; "tomato sauce";
      "ketchup"; "mustard"; "mayonnaise"; "bread"; "tortilla"; "noodle";
      "quinoa"; "couscous"; "oats"; "cereal"; "crackers"; "chips"; "honey";
      "maple syrup"; "molasses"; "jam"; "jelly"; "peanut butter";
      "almond butter"; "tahini"; "baking powder"; "baking soda"; "yeast";
      "cornstarch"; "gelatin"; "chocolate"; "cocoa"; "coffee"; "tea"; "wine";
      "beer"; "brandy"; "rum"; "whiskey"; "vodka"; "gin"; "can"; "canned";
      "jar"; "jarred" ])
  ].

Definition keywords_of (cat : IngredientCategory) : list string :=
  default [] (snd <$> List.find (fun entry => bool_decide (entry.1 = cat))
                        CATEGORY_KEYWORDS).

(** A value of the [Map] from ingredient names. *)
Record MapEntry := {
  measures : list string;
  recipeIds : list string
}.

(** The [Map], as the list of its entries in insertion order.  [map_get]
    is [ingredientMap.get]; [map_add] is the body of the inner loop:
    [set] for a new name, then the two [push]es. *)
Definition map_get (name : string) (m : list (string * MapEntry))
  : option MapEntry :=
  snd <$> List.find (fun p => bool_decide (p.1 = name)) m.

Fixpoint map_add (name meas rid : string) (m : list (string * MapEntry))
  : list (string * MapEntry) :=
  match m with
  | [] => [(name, {| measures := [meas]; recipeIds := [rid] |})]
  | (k, e) :: m' =>
      if bool_decide (k = name)
      then (k, {| measures := measures e ++ [meas];
                  recipeIds := if bool_decide (rid ∈ recipeIds e)
                               then recipeIds e else recipeIds e ++ [rid] |})
           :: m'
      else (k, e) :: map_add name meas rid m'
  end.

Section aggregateIngredients.
(** The string operations of the runtime; [capitalize] is
    [name.charAt(0).toUpperCase() + name.slice(1)], and
    [combineMeasurements] stands for the function of that name, which
    computes with floating-point numbers. *)
Variables (toLowerCase trim capitalize : string -> string).
Variable includes : string -> string -> bool.
Variable localeCompare : string -> string -> Z.
Variable combineMeasurements : list string -> string.

Definition categorizeIngredient (ingredientName : string) : IngredientCategory :=
  let lowerName := toLowerCase ingredientName in
  match List.find (fun entry => existsb (includes lowerName) entry.2)
          CATEGORY_KEYWORDS with
  | Some (category, _) => category
  | None => Pantry
  end.

(** [ing.ingredient.toLowerCase().trim()] *)
Definition normalizedName (ing : Ingredient) : string :=
  trim (toLowerCase (ingredient ing)).

(** The first loop: the [Map] after all recipes. *)
Definition collect (recipes : list RecipeIngredients)
  : list (string * MapEntry) :=
  fold_left
    (fun m recipe =>
       fold_left
         (fun m ing => map_add (normalizedName ing) (measure ing)
                         (recipe_id recipe) m)
         (ingredients recipe) m)
    recipes [].

(** The entry the second loop pushes for a name of the [Map]. *)
Definition aggregated (p : string * MapEntry) : AggregatedIngredient :=
  {| agg_ingredient := capitalize p.1;
     agg_measure := combineMeasurements (measures p.2);
     agg_category := categorizeIngredient p.1;
     agg_recipeIds := recipeIds p.2 |}.

Definition by_ingredient (a b : AggregatedIngredient) : Z :=
  localeCompare (agg_ingredient a) (agg_ingredient b).

Definition aggregateIngredients (recipes : list RecipeIngredients)
  : CategorizedIngredients :=
  let entries := map aggregated (collect recipes) in
  let sorted cat :=
    Array_sort by_ingredient (filter (fun a => agg_category a = cat) entries) in
  {| cat_Produce := sorted Produce; cat_Protein := sorted Protein;
     cat_Dairy := sorted Dairy; cat_Pantry := sorted Pantry;
     cat_Spices := sorted Spices |}.
End aggregateIngredients.

(** ** More vocabulary *)

(** The statements of a call of the hook, in program order. *)
Definition statements_of (o : UseSwipesOptions) (recipeId : string)
    (direction : Direction) : list Request :=
  [ insert_into_swipes (userId o) recipeId (coupleId o) direction;
    select_partner_swipe (default "" (partnerId o)) recipeId (coupleId o);
    select_existing_match (coupleId o) recipeId;
    insert_into_matches (coupleId o) recipeId ].

(** The events of the hook itself: requests and log lines. *)
Definition hook_event (ev : Event) : Prop :=
  match ev with
  | Query _ | console_error _ | errorLogger_error _ _ _ => True
  | _ => False
  end.

(** The list is ordered by [R]: an earlier entry is [R]-before every later
    one. *)
Definition ordered {A} (R : A -> A -> Prop) (l : list A) : Prop :=
  forall i j a b, i < j -> l !! i = Some a -> l !! j = Some b -> R a b.

(** Most recent first. *)
Definition recent_first (a b : ListedMatch) : Prop :=
  (matched_at (row (listed b)) <= matched_at (row (listed a)))%Z.

(** Favourites before the others, most recent first among equals. *)
Definition favorites_first (a b : ListedMatch) : Prop :=
  (is_favorite (row (listed b)) = true -> is_favorite (row (listed a)) = true)
  /\ (is_favorite (row (listed a)) = is_favorite (row (listed b)) ->
      recent_first a b).

(** The occurrences of a name in the recipes, in the order of the loops:
    the measure and the recipe of each. *)
Definition occurrences (normalize : Ingredient -> string)
    (recipes : list RecipeIngredients) (name : string)
  : list (string * string) :=
  concat
    (map (fun recipe =>
            map (fun ing => (measure ing, recipe_id recipe))
              (filter (fun ing => normalize ing = name) (ingredients recipe)))
       recipes).

(** ** Scenarios

    Alice and Bob form the couple G; the concrete runs the claims are
    tried on. *)

Module Scenario.
Definition couple_G : Couple :=
  {| couple_id := "G"; user1_id := "alice"; user2_id := Some "bob" |}.

Definition store0 : DB :=
  {| couples := [couple_G]; swipes := []; matches := [];
     profiles := [ {| profile_id := "alice";
                      push_token := Some "ExponentPushToken[alice]" |};
                   {| profile_id := "bob"; push_token := None |} ] |}.

Definition world0 : World := {| w_db := store0; w_trace := [] |}.

(** The [n]-th statement is served at time [n] and draws the uuids
    [swipe-n] and [match-n]. *)
Definition served (o : Outcome) (n : string) (now : Z) : Env :=
  {| env_outcome := o; env_uuid := "swipe-" +:+ n;
     env_trigger_uuid := "match-" +:+ n; env_now := now |}.

Definition responds : string -> Z -> Env := served Responds.
Definition fails : string -> Z -> Env := served Fails.

Definition all (e : Env) : Envs :=
  {| env_swipe := e; env_partner := e; env_existing := e; env_create := e |}.

Definition alice : UseSwipesOptions := screen_options couple_G "alice".
Definition bob : UseSwipesOptions := screen_options couple_G "bob".

(** Alice has liked R1. *)
Definition after_alice : World :=
  (recordSwipe "alice" alice (all (responds "1" 1)) "R1" like world0).2.

Definition bob_swipe : Swipe :=
  {| swipe_id := "swipe-2"; swipe_user_id := "bob"; swipe_recipe_id := "R1";
     swipe_couple_id := "G"; swipe_direction := like; swipe_created_at := 2 |}.

Definition match_R1 : Match := new_match "match-2" "G" "R1" 2.

(** The same ledger with the match on R1 already in the store. *)
Definition already_matched : World :=
  {| w_db := with_matches (w_db after_alice) [match_R1];
     w_trace := w_trace after_alice |}.

(** Both like R2 and their calls interleave statement by statement. *)
Definition race : list Action :=
  [ swipe_card couple_G "alice" "R2" like;
    swipe_card couple_G "bob" "R2" like;
    advance 0 (responds "3" 3); advance 1 (responds "4" 4);
    advance 0 (responds "5" 5); advance 1 (responds "6" 6);
    advance 0 (responds "7" 7); advance 1 (responds "8" 8) ].


Definition after_race : System := sys_run race (initial [couple_G] []).


(** The match the trigger adds in the statement that inserts Bob's swipe. *)
Definition match_R2 : Match := new_match "match-4" "G" "R2" 4.

(** The race, after which Alice marks the match as a favourite. *)
Definition race_and_favorite : list Action :=
  race ++ [favorite (responds "9" 9) "alice" "match-4" true].

(** The hook result of call [i]. *)
Definition result_of (s : System) (i : nat) : option SwipeResult.t :=
  match sys_calls s !! i with
  | Some c => match call_pc c with returned r => Some r | _ => None end
  | None => None
  end.

(** A served insert into [matches] draws the uuid [match-n]. *)
Definition creates (n : string) (now : Z) : Env :=
  {| env_outcome := Responds; env_uuid := "match-" +:+ n;
     env_trigger_uuid := "match-" +:+ n; env_now := now |}.

(** Both like R3 and their inserts overlap: the trigger of each reads
    before the insert of the other commits.  Alice's insert commits first,
    then Bob's. *)
Definition overlap : list Action :=
  [ swipe_card couple_G "alice" "R3" like;
    swipe_card couple_G "bob" "R3" like;
    begin 0 (responds "3" 3); begin 1 (responds "4" 4);
    advance 0 (responds "3" 3); advance 1 (responds "4" 4) ].

(** The calls go on, every request served: the two lookups of each, then
    the insert into [matches] of each. *)
Definition overlap_served : list Action :=
  overlap
  ++ [ advance 0 (responds "5" 5); advance 1 (responds "6" 6);
       advance 0 (responds "7" 7); advance 1 (responds "8" 8);
       advance 0 (creates "9" 9); advance 1 (creates "10" 10) ].

(** The system after the first [n] actions of that run. *)
Definition during_overlap (n : nat) : System :=
  sys_run (take n overlap_served) (initial [couple_G] []).

Definition after_overlap : System := during_overlap 6.

Definition alice_swipe_R3 : Swipe :=
  new_swipe (responds "3" 3) "alice" "R3" "G" like.
Definition bob_swipe_R3 : Swipe :=
  new_swipe (responds "4" 4) "bob" "R3" "G" like.

(** The match Alice's call inserts itself. *)
Definition match_R3 : Match := new_match "match-9" "G" "R3" 9.

(** Alice's call before its insert into [matches]. *)
Definition alice_creates : Call :=
  at_pc (start_call "alice" alice "R3" like)
    (at_create_match (Some alice_swipe_R3)).



(** Bob likes R1 after Alice did; one statement of his call is not served. *)
Definition lookup_fails : Envs :=
  {| env_swipe := responds "2" 2; env_partner := fails "3" 3;
     env_existing := responds "4" 4; env_create := responds "5" 5 |}.

Definition duplicate_on_create : Envs :=
  {| env_swipe := responds "2" 2; env_partner := responds "3" 3;
     env_existing := fails "4" 4; env_create := responds "5" 5 |}.

Definition store_down_on_create : Envs :=
  {| env_swipe := responds "2" 2; env_partner := responds "3" 3;
     env_existing := fails "4" 4; env_create := fails "5" 5 |}.

Definition bob_likes_R1 (es : Envs) : Res SwipeResult.t * World :=
  recordSwipe "bob" bob es "R1" like after_alice.

(** A channel that is subscribed, fails, and is reported subscribed again. *)
Definition channel_fails : list RealtimeEvent :=
  [ call_subscribe (Some "G") true None;
    deliver_status 0 SUBSCRIBED;
    deliver_status 0 CHANNEL_ERROR ].

Definition hook_matches : UseMatches :=
  {| local_matches := [ {| row := match_R2; recipe_title := "Pasta" |} ];
     local_error := None |}.
End Scenario.

(** Further cases: Carol, who has created a couple nobody joined yet, and a
    list of two matches as the matches screen holds it. *)
Definition couple_S : Couple :=
  {| couple_id := "S"; user1_id := "carol"; user2_id := None |}.

Definition solo_store : DB :=
  {| couples := [couple_S]; swipes := []; matches := []; profiles := [] |}.

Definition listed_R1 : ListedMatch :=
  {| listed := {| row := Scenario.match_R1; recipe_title := "Risotto" |};
     cuisine_type := Some "Italian"; area := Some "Italian" |}.

Definition listed_R2 : ListedMatch :=
  {| listed := {| row := set_favorite true 9 Scenario.match_R2;
                  recipe_title := "Pasta" |};
     cuisine_type := None; area := Some "Italian" |}.

Definition favourites_view : UseMatchesList :=
  {| list_matches := [listed_R1; listed_R2];
     filteredMatches := [listed_R2];
     currentFilters := {| query := None; cuisineTypes := None;
                          favoritesOnly := Some true |};
     sortBy := recent |}.

(** * Properties *)

Import Scenario.

(** ** Generic facts about effects *)

Lemma request_inv {A} (e : Env) q (run : DB -> DB * Response A) w :
  (env_outcome e = Responds /\
   request e q run w
   = (Value (run (w_db w)).2,
      {| w_db := (run (w_db w)).1; w_trace := Query q :: w_trace w |}))
  \/ (env_outcome e = Fails /\
      request e q run w
      = (Value (failure unavailable),
         {| w_db := w_db w; w_trace := Query q :: w_trace w |}))
  \/ (env_outcome e = Throws /\
      request e q run w
      = (Raised exception,
         {| w_db := w_db w; w_trace := Query q :: w_trace w |})).
Proof.
  unfold request. destruct (env_outcome e); [left | right; left | right; right];
    split; try reflexivity.
  destruct (run (w_db w)); reflexivity.
Qed.

(** C10.  When [matchId] is the id of no match in the list the hook holds,
    [toggleFavorite] returns at once: the world is the same (no request was
    sent, nothing was logged, the store is untouched), the state of the hook
    is the same (so no error was recorded), and nothing is raised. *)
Theorem toggleFavorite_unknown_id (e : Env) (auth matchId : string)
    (h : UseMatches) (w : World) :
  (forall m, m ∈ local_matches h -> match_id (row m) <> matchId) ->
  toggleFavorite e auth matchId h w = (Value h, w).
Proof.
  intros Hnot. unfold toggleFavorite, try_catch.
  destruct (List.find _ (local_matches h)) as [m|] eqn:Hfind; [|reflexivity].
  apply find_some in Hfind as [Hin Heq].
  apply bool_decide_eq_true in Heq.
  exfalso. apply (Hnot m); [by apply list_elem_of_In | done].
Qed.

(** ** Favourites *)

Lemma only_favorite_changed_refl mid db : only_favorite_changed mid db db.
Proof. repeat split; auto. Qed.

Lemma update_favorite_frame e auth mid fav db :
  only_favorite_changed mid db (update_favorite e auth mid fav db).
Proof.
  unfold only_favorite_changed, update_favorite; simpl.
  repeat split; try reflexivity.
  - rewrite map_map. apply map_ext. intros m.
    destruct (_ && _); reflexivity.
  - intros i m Hi Hne. rewrite list_lookup_fmap, Hi. simpl.
    rewrite bool_decide_eq_false_2 by done. reflexivity.
Qed.

Lemma update_favorite_keys e auth mid fav db :
  map match_key (matches (update_favorite e auth mid fav db))
  = map match_key (matches db)
  /\ map match_id (matches (update_favorite e auth mid fav db))
     = map match_id (matches db).
Proof.
  unfold update_favorite; simpl. rewrite !map_map.
  split; apply map_ext; intros m; destruct (_ && _); reflexivity.
Qed.

Lemma update_favorite_constraints e auth mid fav db :
  constraints db -> constraints (update_favorite e auth mid fav db).
Proof.
  intros [H1 H2 H3 H4 H5].
  destruct (update_favorite_keys e auth mid fav db) as [Hk Hi].
  split; try assumption; [by rewrite Hi | by rewrite Hk].
Qed.

Lemma toggleFavorite_cases e auth mid h w :
  (List.find (fun m => bool_decide (match_id (row m) = mid)) (local_matches h)
   = None /\ toggleFavorite e auth mid h w = (Value h, w))
  \/ exists m,
      List.find (fun m => bool_decide (match_id (row m) = mid)) (local_matches h)
      = Some m
      /\ ((env_outcome e = Responds /\
           toggleFavorite e auth mid h w
           = (Value (toggled mid (negb (is_favorite (row m))) h),
              {| w_db := update_favorite e auth mid (negb (is_favorite (row m)))
                           (w_db w);
                 w_trace := Query (update_matches mid (negb (is_favorite (row m))))
                            :: w_trace w |}))
          \/ exists err,
              env_outcome e <> Responds /\
              toggleFavorite e auth mid h w
              = (Value (toggle_failed err h),
                 {| w_db := w_db w;
                    w_trace := errorLogger_error "useMatches" "toggleFavorite" err
                               :: console_error "Error toggling favorite:"
                               :: Query (update_matches mid
                                           (negb (is_favorite (row m))))
                               :: w_trace w |})).
Proof.
  unfold toggleFavorite, try_catch.
  destruct (List.find _ (local_matches h)) as [m|] eqn:Hfind; [right | left; done].
  exists m. split; [done|].
  unfold bind, from_matches_update, request.
  destruct (env_outcome e) eqn:Ho; simpl.
  - left. done.
  - right. exists unavailable. done.
  - right. exists exception. done.
Qed.

(** C8 (amended).  Whatever [toggleFavorite] does, in the store it changes at
    most the [is_favorite] column and the [updated_at] stamp of the rows
    with the given id: the tables [couples], [swipes] and [profiles] are the
    same; [matches] has the same rows in the same order as far as [id],
    couple, recipe, [matched_at] and [created_at] go, so no match is
    created, deleted or duplicated and the keys and the constraints are
    kept; rows with another id are untouched.  The list held by the hook
    changes in the same way, and the call never raises.  The same frame
    holds for the update statement with either boolean. *)
Theorem toggleFavorite_only_favorite (e : Env) (auth matchId : string)
    (h : UseMatches) (w : World) :
  let out := toggleFavorite e auth matchId h w in
  only_favorite_changed matchId (w_db w) (w_db out.2)
  /\ map match_key (matches (w_db out.2)) = map match_key (matches (w_db w))
  /\ length (matches (w_db out.2)) = length (matches (w_db w))
  /\ (constraints (w_db w) -> constraints (w_db out.2))
  /\ match out.1 with
     | Value h' =>
         map (fun m => (immutable_columns (row m), recipe_title m))
           (local_matches h')
         = map (fun m => (immutable_columns (row m), recipe_title m))
             (local_matches h)
         /\ (forall i m, local_matches h !! i = Some m ->
                         match_id (row m) <> matchId ->
                         local_matches h' !! i = Some m)
     | Raised _ => False
     end
  /\ forall fav db,
       only_favorite_changed matchId db (update_favorite e auth matchId fav db).
Proof.
  set (out := toggleFavorite e auth matchId h w). simpl.
  assert (Hloc : forall fav,
             map (fun m => (immutable_columns (row m), recipe_title m))
               (local_matches (toggled matchId fav h))
             = map (fun m => (immutable_columns (row m), recipe_title m))
                 (local_matches h)
             /\ (forall i m, local_matches h !! i = Some m ->
                             match_id (row m) <> matchId ->
                             local_matches (toggled matchId fav h) !! i = Some m)).
  { intros fav. unfold toggled; simpl. split.
    - rewrite map_map. apply map_ext. intros m. by destruct (bool_decide _).
    - intros i m Hi Hne. rewrite list_lookup_fmap, Hi. simpl.
      by rewrite bool_decide_eq_false_2. }
  destruct (toggleFavorite_cases e auth matchId h w)
    as [[_ Heq] | (m & _ & [[_ Heq] | (err & _ & Heq)])];
    subst out; rewrite Heq; simpl.
  - split_and!; auto using only_favorite_changed_refl.
    intros; apply update_favorite_frame.
  - destruct (update_favorite_keys e auth matchId (negb (is_favorite (row m)))
                (w_db w)) as [Hk Hi].
    split; [apply update_favorite_frame|].
    split; [exact Hk|].
    split; [by apply (f_equal length) in Hk; rewrite !length_map in Hk|].
    split; [apply update_favorite_constraints|].
    split; [apply Hloc|]. intros; apply update_favorite_frame.
  - split_and!; auto using only_favorite_changed_refl.
    intros; apply update_favorite_frame.
Qed.

(** ** The notification dispatcher *)

Lemma sendMatchNotification_cases e g auth recipient recipeName w :
  let out := sendMatchNotification e g auth recipient recipeName w in
  let q := Query (select_push_token recipient) in
  match endpoint_lookup e auth recipient (w_db w) with
  | None =>
      exists log, out = (Value false,
                         {| w_db := w_db w; w_trace := log :: q :: w_trace w |})
                  /\ (log = console_warn "No push token found for recipient"
                      \/ log = console_error "Error sending match notification:")
  | Some token =>
      let post := GatewayPost (match_message token recipeName) in
      match g with
      | gateway_ok =>
          out = (Value true,
                 {| w_db := w_db w; w_trace := post :: q :: w_trace w |})
      | gateway_errors =>
          out = (Value false,
                 {| w_db := w_db w;
                    w_trace := console_error "Error sending push notification:"
                               :: post :: q :: w_trace w |})
      | gateway_rejects =>
          out = (Value false,
                 {| w_db := w_db w;
                    w_trace := console_error "Error sending match notification:"
                               :: post :: q :: w_trace w |})
      end
  end.
Proof.
  unfold endpoint_lookup, sendMatchNotification, try_catch, bind,
    from_profiles_select_push_token, request, read_only.
  destruct (env_outcome e); simpl.
  - destruct (usable_token _) as [token|]; simpl.
    + destruct g; reflexivity.
    + eexists; split; [reflexivity | by left].
  - eexists; split; [reflexivity | by left].
  - eexists; split; [reflexivity | by right].
Qed.

(** C7 (amended).  Every call of the dispatcher returns a boolean without
    raising, sends one lookup to the store and leaves the store as it was.
    When the lookup yields no usable token (it is not served, it raises, it
    returns an error or no row, or the token is empty) the call returns
    [false] and posts nothing.  When it yields a token the call posts
    exactly one message, addressed to that token; it returns [true] exactly
    when the gateway accepts, and a gateway failure is logged on the console
    and discarded. *)
Theorem sendMatchNotification_dispatch (e : Env) (g : Gateway)
    (auth recipientUserId recipeName : string) (w : World) :
  let out := sendMatchNotification e g auth recipientUserId recipeName w in
  w_db out.2 = w_db w
  /\ requests_of (w_trace out.2)
     = select_push_token recipientUserId :: requests_of (w_trace w)
  /\ match endpoint_lookup e auth recipientUserId (w_db w) with
     | None =>
         out.1 = Value false
         /\ gateway_posts (w_trace out.2) = gateway_posts (w_trace w)
     | Some token =>
         gateway_posts (w_trace out.2)
         = match_message token recipeName :: gateway_posts (w_trace w)
         /\ out.1 = Value (gateway_accepts g)
         /\ (gateway_accepts g = false ->
             exists label tr, w_trace out.2 = console_error label :: tr)
     end.
Proof.
  pose proof (sendMatchNotification_cases e g auth recipientUserId recipeName w)
    as H. simpl in *.
  destruct (endpoint_lookup e auth recipientUserId (w_db w)) as [token|].
  - destruct g; rewrite H; simpl; split_and!; try done; eauto.
  - destruct H as (log & -> & [-> | ->]); simpl; split_and!; done.
Qed.

Lemma endpoint_lookup_unregistered e auth recipient db :
  registered_endpoint db recipient = None ->
  endpoint_lookup e auth recipient db = None.
Proof.
  unfold registered_endpoint, endpoint_lookup, select_push_tokens.
  intros Hreg. destruct (env_outcome e); try done.
  assert (Hsub : forall ps : list Profile,
             filter (fun p => profile_id p = recipient /\ auth = profile_id p) ps
             = if bool_decide (auth = recipient)
               then filter (fun p => profile_id p = recipient) ps else []).
  { induction ps as [|p ps IH]; [by case_bool_decide|].
    rewrite !filter_cons, IH. case_bool_decide as Ha.
    - destruct (decide (profile_id p = recipient)) as [Hp|Hp].
      + by rewrite decide_True by (split; congruence).
      + by rewrite decide_False by (intros [? _]; done).
    - by rewrite decide_False by (intros [? ?]; congruence). }
  rewrite Hsub. case_bool_decide; [|done].
  destruct (filter _ (profiles db)) as [|p [|p' ps]]; try done.
  cbn in *. unfold usable_token; cbn.
  destruct (push_token p) as [t|]; [|done].
  cbn in *. destruct (negb (bool_decide (t = ""))); done.
Qed.

(** ** Realtime *)

(** C9 (amended).  A status delivered to the hook never changes which
    channel it holds nor creates one: the hook does not retry.  [SUBSCRIBED]
    sets the state to connected, [CLOSED] and [CHANNEL_ERROR] set it to
    disconnected with an error, and only [SUBSCRIBED] can make a
    disconnected hook connected.  An enabled [subscribe] for a couple
    always installs a channel that did not exist before and leaves the
    connection state alone.  While no [SUBSCRIBED] is delivered a
    disconnected hook stays disconnected, whatever is called. *)
Theorem realtime_status_handling :
  (forall (h : UseRealtime) (ch : nat) (s : Status),
      let h' := realtime_step h (deliver_status ch s) in
      channel h' = channel h
      /\ channels_created h' = channels_created h
      /\ channels_unsubscribed h' = channels_unsubscribed h
      /\ (connected (connectionState h') = true ->
          connected (connectionState h) = true \/ s = SUBSCRIBED)
      /\ (ch < channels_created h -> s = SUBSCRIBED ->
          connectionState h' = {| connected := true; connection_error := None |})
      /\ (ch < channels_created h -> s = CLOSED \/ s = CHANNEL_ERROR ->
          connectionState h'
          = {| connected := false;
               connection_error := Some ("Connection " +:+ status_name s) |}))
  /\ (forall (coupleId : string) (captured : option nat) (h : UseRealtime),
        coupleId <> "" ->
        let h' := subscribe (Some coupleId) true captured h in
        channel h' = Some (channels_created h)
        /\ channels_created h' = S (channels_created h)
        /\ connectionState h' = connectionState h)
  /\ (forall (evs : list RealtimeEvent) (h : UseRealtime),
        connected (connectionState h) = false ->
        (forall ch, deliver_status ch SUBSCRIBED ∉ evs) ->
        connected (connectionState (realtime_run evs h)) = false).
Proof.
  split_and!.
  - intros h ch s. simpl.
    destruct (Nat.ltb ch (channels_created h)) eqn:Hlt.
    + apply Nat.ltb_lt in Hlt. destruct s; simpl; split_and!; auto; try done;
        intros _ [?|?]; done.
    + apply Nat.ltb_ge in Hlt. split_and!; auto; intros; lia.
  - intros coupleId captured h Hne. unfold subscribe; simpl.
    rewrite bool_decide_eq_false_2 by done. simpl. done.
  - induction evs as [|ev evs IH]; intros h Hoff Hno; [done|].
    simpl. apply IH.
    + destruct ev as [c en cap| |ch s]; simpl.
      * unfold subscribe. destruct (_ || _); done.
      * unfold unsubscribe. destruct (channel h); done.
      * destruct (Nat.ltb _ _); [|done].
        destruct s; simpl; try done.
        exfalso. apply (Hno ch). left.
    + intros ch Hin. apply (Hno ch). by right.
Qed.

(** ** The hook and its statements *)

Ltac js_unfold :=
  unfold recordSwipe, lib_recordSwipe, call_step, segment, after_insert,
    recordSwipe_catch, try_catch, bind, raise, from_swipes_insert,
    from_swipes_commit, committed, from_swipes_select_like,
    from_matches_select, from_matches_insert, from_matches_update,
    request, read_only, emit, ret in *.

Ltac case_split :=
  match goal with
  | |- context [match ?x with _ => _ end] =>
      lazymatch x with
      | context [match _ with _ => _ end] => fail
      | _ => destruct x eqn:?
      end
  end.

Lemma recordSwipe_run_call auth o es rid d w :
  exists r w',
    recordSwipe auth o es rid d w = (Value r, w')
    /\ run_call [env_swipe es; env_partner es; env_existing es; env_create es]
         (start_call auth o rid d) w
       = (at_pc (start_call auth o rid d) (returned r), w').
Proof.
  unfold run_call, start_call. js_unfold. simpl.
  repeat (case_split; simpl in *; simplify_eq; simpl in *);
    try (eexists _, _; split; reflexivity).
Qed.

Lemma find_swipe_None db uid rid cid :
  find_swipe db uid rid cid = None <->
  forall s, s ∈ swipes db -> swipe_key s <> (uid, rid, cid).
Proof.
  unfold find_swipe. split.
  - intros H s Hin Hk. apply list_elem_of_In in Hin.
    eapply find_none in H; [|exact Hin]. simpl in H.
    by apply bool_decide_eq_false in H.
  - intros H. destruct (List.find _ _) as [s|] eqn:Hf; [|done].
    apply find_some in Hf as [Hin Hk]. apply bool_decide_eq_true in Hk.
    apply list_elem_of_In in Hin. by destruct (H s Hin).
Qed.

Lemma find_swipe_Some db uid rid cid s :
  find_swipe db uid rid cid = Some s ->
  s ∈ swipes db /\ swipe_key s = (uid, rid, cid).
Proof.
  unfold find_swipe. intros Hf. apply find_some in Hf as [Hin Hk].
  apply bool_decide_eq_true in Hk. by apply list_elem_of_In in Hin.
Qed.

Lemma find_match_None db cid rid :
  find_match db cid rid = None <-> ~ has_match db cid rid.
Proof.
  unfold find_match, has_match. split.
  - intros H Hin. apply list_elem_of_fmap in Hin as (m & Hk & Hin).
    apply list_elem_of_In in Hin.
    eapply find_none in H; [|exact Hin]. simpl in H.
    by apply bool_decide_eq_false in H.
  - intros H. destruct (List.find _ _) as [m|] eqn:Hf; [|done].
    apply find_some in Hf as [Hin Hk]. apply bool_decide_eq_true in Hk.
    apply list_elem_of_In in Hin. destruct H.
    apply list_elem_of_fmap. eauto.
Qed.

Lemma find_match_Some db cid rid m :
  find_match db cid rid = Some m -> m ∈ matches db /\ match_key m = (cid, rid).
Proof.
  unfold find_match. intros Hf. apply find_some in Hf as [Hin Hk].
  apply bool_decide_eq_true in Hk. by apply list_elem_of_In in Hin.
Qed.

Lemma insert_swipe_duplicate e auth uid rid cid d db s0 :
  s0 ∈ swipes db -> swipe_key s0 = (uid, rid, cid) ->
  exists err,
    insert_swipe e auth uid rid cid d db = (db, inl err)
    /\ (swipes_insert_policy db auth uid cid = true ->
        exists k, err = unique_violation k).
Proof.
  intros Hin Hk. unfold insert_swipe.
  destruct (swipes_insert_policy db auth uid cid); simpl.
  - destruct (existsb _ _); [by eauto|].
    destruct (find_swipe db uid rid cid) eqn:Hf; [by eauto|].
    rewrite find_swipe_None in Hf. by destruct (Hf s0 Hin).
  - eexists; split; [done|]. done.
Qed.

Lemma filter_none {A} (P : A -> Prop) `{forall x, Decision (P x)} (l : list A) :
  (forall x, x ∈ l -> ~ P x) -> filter P l = [].
Proof.
  induction l as [|a l IH]; intros Hno; [done|].
  rewrite filter_cons_False by (apply Hno; left).
  apply IH. intros x Hx. apply Hno. by right.
Qed.

Lemma count_unique {A K} `{EqDecision K} (f : A -> K) (l : list A) (x : A) :
  NoDup (map f l) -> x ∈ l ->
  length (filter (fun y => f y = f x) l) = 1.
Proof.
  induction l as [|a l IH]; intros Hnd Hin; [by apply elem_of_nil in Hin|].
  simpl in Hnd. apply NoDup_cons in Hnd as [Hna Hnd].
  rewrite filter_cons. apply elem_of_cons in Hin as [->|Hin].
  - rewrite decide_True by done. simpl. f_equal.
    apply length_zero_iff_nil, filter_none.
    intros y Hy Heq. apply Hna.
    rewrite <- Heq. apply list_elem_of_fmap. eauto.
  - rewrite decide_False; [by apply IH|].
    intros Heq. apply Hna. rewrite Heq. apply list_elem_of_fmap. eauto.
Qed.

(** C5.  When the ledger holds a row for (user, recipe, couple), a further
    [recordSwipe] for the same triple returns an error and neither a swipe
    nor a match; the error is a uniqueness violation whenever the store
    serves the insert of a member of the couple.  The store is unchanged, so
    the ledger still has exactly one row for the triple; the insert is the
    only request the call sends (no lookup of the partner, no insert of a
    match), and nothing is posted to the gateway. *)
Theorem duplicate_swipe_rejected (auth : string) (o : UseSwipesOptions)
    (es : Envs) (recipeId : string) (d : Direction) (w : World) (s0 : Swipe) :
  s0 ∈ swipes (w_db w) ->
  swipe_key s0 = (userId o, recipeId, coupleId o) ->
  NoDup (map swipe_key (swipes (w_db w))) ->
  let out := recordSwipe auth o es recipeId d w in
  (exists err,
      out.1 = Value (swipe_result None false None (Some err))
      /\ (env_outcome (env_swipe es) = Responds ->
          swipes_insert_policy (w_db w) auth (userId o) (coupleId o) = true ->
          exists k, err = unique_violation k))
  /\ w_db out.2 = w_db w
  /\ count_swipes (w_db out.2) (userId o) recipeId (coupleId o) = 1
  /\ requests_of (w_trace out.2)
     = insert_into_swipes (userId o) recipeId (coupleId o) d
       :: requests_of (w_trace w)
  /\ gateway_posts (w_trace out.2) = gateway_posts (w_trace w).
Proof.
  intros Hin Hk Hnd.
  destruct (insert_swipe_duplicate (env_swipe es) auth (userId o) recipeId
              (coupleId o) d (w_db w) s0 Hin Hk) as (err & Hins & Hdup).
  assert (Hcount : count_swipes (w_db w) (userId o) recipeId (coupleId o) = 1).
  { unfold count_swipes. rewrite <- Hk. by apply count_unique. }
  js_unfold. rewrite Hins.
  destruct (env_outcome (env_swipe es)); simpl; split_and!; eauto.
  - eexists; split; [done|]. done.
  - eexists; split; [done|]. done.
Qed.

(** ** What the statements do to the tables *)

Lemma NoDup_fmap_inj {A K} (f : A -> K) (l : list A) (x y : A) :
  NoDup (map f l) -> x ∈ l -> y ∈ l -> f x = f y -> x = y.
Proof.
  induction l as [|a l IH]; intros Hnd Hx Hy Heq; [by apply elem_of_nil in Hx|].
  simpl in Hnd. apply NoDup_cons in Hnd as [Hna Hnd].
  apply elem_of_cons in Hx as [->|Hx]; apply elem_of_cons in Hy as [->|Hy];
    auto.
  - destruct Hna. rewrite Heq. apply list_elem_of_fmap. eauto.
  - destruct Hna. rewrite <- Heq. apply list_elem_of_fmap. eauto.
Qed.

Lemma NoDup_snoc {A K} (f : A -> K) (l : list A) (x : A) :
  NoDup (map f l) -> (forall y, y ∈ l -> f y <> f x) ->
  NoDup (map f (l ++ [x])).
Proof.
  intros Hnd Hfresh. rewrite map_app. simpl. apply NoDup_app.
  split; [done|]. split; [|apply NoDup_singleton].
  intros k Hk Hk'. apply list_elem_of_fmap in Hk as (y & -> & Hy).
  apply list_elem_of_singleton in Hk'. by apply (Hfresh y).
Qed.

Lemma existsb_false_fresh {A} (f : A -> string) (l : list A) (id : string) :
  existsb (fun x => bool_decide (f x = id)) l = false ->
  forall x, x ∈ l -> f x <> id.
Proof.
  intros H x Hin Heq. apply list_elem_of_In in Hin.
  assert (existsb (fun x => bool_decide (f x = id)) l = true) as Ht.
  { apply existsb_exists. exists x. split; [done|]. by apply bool_decide_eq_true. }
  congruence.
Qed.

Lemma find_couple_Some db cid c :
  find_couple db cid = Some c -> c ∈ couples db /\ couple_id c = cid.
Proof.
  unfold find_couple. intros Hf. apply find_some in Hf as [Hin Hk].
  apply bool_decide_eq_true in Hk. by apply list_elem_of_In in Hin.
Qed.

Lemma find_couple_unique db c :
  NoDup (map couple_id (couples db)) -> c ∈ couples db ->
  find_couple db (couple_id c) = Some c.
Proof.
  intros Hnd Hin. unfold find_couple.
  destruct (List.find _ _) as [c'|] eqn:Hf.
  - apply find_some in Hf as [Hin' Hk]. apply bool_decide_eq_true in Hk.
    apply list_elem_of_In in Hin'. f_equal.
    by apply (NoDup_fmap_inj couple_id (couples db)).
  - apply list_elem_of_In in Hin. eapply find_none in Hf; [|exact Hin].
    simpl in Hf. by apply bool_decide_eq_false in Hf.
Qed.

Lemma policy_member db auth cid :
  in_couple_policy db auth cid = true ->
  exists c, c ∈ couples db /\ couple_id c = cid /\ is_member c auth = true.
Proof.
  unfold in_couple_policy. intros H. apply existsb_exists in H as (c & Hin & Hc).
  apply andb_true_iff in Hc as [Hid Hm]. apply bool_decide_eq_true in Hid.
  exists c. by rewrite list_elem_of_In.
Qed.

Lemma member_policy db auth c :
  c ∈ couples db -> is_member c auth = true ->
  in_couple_policy db auth (couple_id c) = true.
Proof.
  intros Hin Hm. apply existsb_exists. exists c.
  rewrite <- list_elem_of_In. split; [done|].
  by rewrite bool_decide_eq_true_2.
Qed.

Lemma swipes_policy_member db auth uid cid :
  swipes_insert_policy db auth uid cid = true ->
  auth = uid /\ in_couple_policy db auth cid = true.
Proof.
  unfold swipes_insert_policy. intros H. apply andb_true_iff in H as [Ha Hm].
  by apply bool_decide_eq_true in Ha.
Qed.

Lemma check_for_match_eq e NEW db :
  check_for_match e NEW db
  = if bool_decide (swipe_direction NEW = like)
       && partner_liked db (swipe_couple_id NEW) (swipe_user_id NEW)
            (swipe_recipe_id NEW)
    then insert_match_on_conflict_do_nothing (env_trigger_uuid e)
           (swipe_couple_id NEW) (swipe_recipe_id NEW) (env_now e) db
    else inr db.
Proof.
  unfold check_for_match, partner_liked, trigger_partner.
  destruct (swipe_direction NEW); simpl; [|done].
  destruct (find_couple db (swipe_couple_id NEW)) as [c|]; simpl; [|done].
  destruct (if bool_decide (user1_id c = swipe_user_id NEW)
            then user2_id c else Some (user1_id c)) as [p|]; [|done].
  destruct (find_swipe db p _ _) as [s|]; [|done].
  destruct (swipe_direction s); done.
Qed.

Lemma insert_if_absent_result id cid rid now db db' :
  insert_match_on_conflict_do_nothing id cid rid now db = inr db' ->
  (has_match db cid rid /\ db' = db)
  \/ (~ has_match db cid rid /\ (forall m, m ∈ matches db -> match_id m <> id)
      /\ db' = with_matches db (matches db ++ [new_match id cid rid now])).
Proof.
  unfold insert_match_on_conflict_do_nothing.
  destruct (find_match db cid rid) as [m|] eqn:Hf.
  - intros [= <-]. left. split; [|done].
    apply find_match_Some in Hf as [Hin Hk]. unfold has_match.
    apply list_elem_of_fmap. eauto.
  - destruct (existsb _ _) eqn:Hex; [done|]. intros [= <-]. right.
    split; [by apply find_match_None|]. split; [|done].
    by apply existsb_false_fresh.
Qed.

Lemma insert_if_absent_has_match id cid rid now db db' :
  insert_match_on_conflict_do_nothing id cid rid now db = inr db' ->
  has_match db' cid rid.
Proof.
  intros H. apply insert_if_absent_result in H as [[H ->]|(_ & _ & ->)]; [done|].
  unfold has_match; simpl. rewrite map_app. apply elem_of_app. right.
  simpl. left.
Qed.

Lemma insert_swipe_rejected e auth uid rid cid d db db' err :
  insert_swipe e auth uid rid cid d db = (db', inl err) -> db' = db.
Proof.
  unfold insert_swipe. repeat case_split; intros; simplify_eq; done.
Qed.

Lemma insert_swipe_accepted e auth uid rid cid d db db' s :
  insert_swipe e auth uid rid cid d db = (db', inr s) ->
  s = new_swipe e uid rid cid d
  /\ swipes_insert_policy db auth uid cid = true
  /\ (forall x, x ∈ swipes db -> swipe_id x <> env_uuid e)
  /\ find_swipe db uid rid cid = None
  /\ check_for_match e s (with_swipes db (swipes db ++ [s])) = inr db'.
Proof.
  unfold insert_swipe.
  destruct (swipes_insert_policy db auth uid cid); simpl; [|done].
  destruct (existsb _ _) eqn:Hex; [done|].
  destruct (find_swipe db uid rid cid) eqn:Hf; [done|].
  destruct (check_for_match _ _ _) as [err|db1] eqn:Hc; [done|].
  intros [= <- <-]. split_and!; try done.
  by apply existsb_false_fresh.
Qed.

(** The insert that overlaps nothing is the one whose trigger reads the
    store it commits on. *)
Lemma check_for_match_split e NEW db :
  check_for_match e NEW db
  = check_for_match_then (partner_swipe_direction NEW db) e NEW db.
Proof. reflexivity. Qed.

Lemma insert_swipe_commit e auth uid rid cid d db :
  insert_swipe e auth uid rid cid d db
  = commit_swipe (trigger_reads (new_swipe e uid rid cid d) db) e auth uid rid
      cid d db.
Proof. reflexivity. Qed.

Lemma commit_swipe_rejected seen e auth uid rid cid d db db' err :
  commit_swipe seen e auth uid rid cid d db = (db', inl err) -> db' = db.
Proof.
  unfold commit_swipe. repeat case_split; intros; simplify_eq; done.
Qed.

Lemma commit_swipe_accepted seen e auth uid rid cid d db db' s :
  commit_swipe seen e auth uid rid cid d db = (db', inr s) ->
  s = new_swipe e uid rid cid d
  /\ swipes_insert_policy db auth uid cid = true
  /\ (forall x, x ∈ swipes db -> swipe_id x <> env_uuid e)
  /\ find_swipe db uid rid cid = None
  /\ check_for_match_then seen e s (with_swipes db (swipes db ++ [s])) = inr db'.
Proof.
  unfold commit_swipe.
  destruct (swipes_insert_policy db auth uid cid); simpl; [|done].
  destruct (existsb _ _) eqn:Hex; [done|].
  destruct (find_swipe db uid rid cid) eqn:Hf; [done|].
  destruct (check_for_match_then _ _ _ _) as [err|db1] eqn:Hc; [done|].
  intros [= <- <-]. split_and!; try done.
  by apply existsb_false_fresh.
Qed.

(** ** Invariants of the store *)

Lemma db_grows_refl db : db_grows db db.
Proof. by split. Qed.

Lemma db_grows_trans db1 db2 db3 :
  db_grows db1 db2 -> db_grows db2 db3 -> db_grows db1 db3.
Proof.
  intros [] []. split; [congruence | congruence | auto | auto].
Qed.

Lemma liked_grows db db' uid rid cid :
  db_grows db db' -> liked db uid rid cid -> liked db' uid rid cid.
Proof. intros [] (s & Hin & Hk & Hd). exists s. auto. Qed.

Lemma find_couple_grows db db' cid :
  db_grows db db' -> find_couple db' cid = find_couple db cid.
Proof. intros []. unfold find_couple. congruence. Qed.


Lemma has_match_snoc db cid rid m :
  has_match (with_matches db (matches db ++ [m])) cid rid <->
  has_match db cid rid \/ match_key m = (cid, rid).
Proof.
  unfold has_match; simpl. rewrite map_app, elem_of_app. simpl.
  rewrite list_elem_of_singleton.
  split; (intros [H|H]; [by left | by right]).
Qed.

Section insert_swipe_preserves.
Context (e : Env) (auth uid rid cid : string) (d : Direction) (db db' : DB).
Local Abbreviation s := (new_swipe e uid rid cid d).
Local Abbreviation db1 := (with_swipes db (swipes db ++ [s])).
Hypothesis Hcons : constraints db.
Hypothesis Hpolicy : swipes_insert_policy db auth uid cid = true.
Hypothesis Hid : forall x, x ∈ swipes db -> swipe_id x <> env_uuid e.
Hypothesis Hkey : find_swipe db uid rid cid = None.
Hypothesis Htrigger : check_for_match e s db1 = inr db'.

Lemma accepted_swipes : swipes db' = swipes db ++ [s].
Proof.
  rewrite check_for_match_eq in Htrigger.
  destruct (_ && _); [|by simplify_eq].
  apply insert_if_absent_result in Htrigger as [[_ ->]|(_ & _ & ->)]; done.
Qed.





Lemma accepted_member :
  auth = uid /\ exists c, find_couple db cid = Some c /\ is_member c uid = true.
Proof.
  apply swipes_policy_member in Hpolicy as [-> Hm]. split; [done|].
  apply policy_member in Hm as (c & Hin & <- & Hmem).
  exists c. split; [|done]. apply find_couple_unique; [|done].
  by destruct Hcons.
Qed.




End insert_swipe_preserves.

Lemma read_ok_now db NEW : read_ok db NEW (trigger_reads NEW db).
Proof.
  unfold read_ok, trigger_reads, partner_swipe_direction, trigger_partner.
  change (find_couple (with_swipes db (swipes db ++ [NEW])) (swipe_couple_id NEW))
    with (find_couple db (swipe_couple_id NEW)).
  destruct (find_couple db (swipe_couple_id NEW)) as [c|]; [|done].
  destruct (if bool_decide (user1_id c = swipe_user_id NEW)
            then user2_id c else Some (user1_id c)) as [p|]; [|done].
  destruct (find_swipe _ p _ _) as [x|] eqn:Hf; [|done].
  intros [= Hd]. exists p. split; [done|].
  apply find_swipe_Some in Hf as [Hin Hk]. by exists x.
Qed.

Lemma read_ok_grows db db' NEW seen :
  db_grows db db' -> read_ok db NEW seen -> read_ok db' NEW seen.
Proof.
  intros Hg H Hs. destruct (H Hs) as (p & Hp & x & Hin & Hk & Hd).
  exists p. split.
  - unfold trigger_partner in *. by rewrite (find_couple_grows db db').
  - exists x. split_and!; try done. simpl in *.
    apply elem_of_app in Hin as [Hin|Hin]; apply elem_of_app;
      [left; by apply (grows_swipes db db') | by right].
Qed.

Section commit_swipe_preserves.
Context (seen : option Direction) (e : Env) (auth uid rid cid : string)
  (d : Direction) (db db' : DB).
Local Abbreviation s := (new_swipe e uid rid cid d).
Local Abbreviation db1 := (with_swipes db (swipes db ++ [s])).
Hypothesis Hcons : constraints db.
Hypothesis Hpolicy : swipes_insert_policy db auth uid cid = true.
Hypothesis Hid : forall x, x ∈ swipes db -> swipe_id x <> env_uuid e.
Hypothesis Hkey : find_swipe db uid rid cid = None.
Hypothesis Htrigger : check_for_match_then seen e s db1 = inr db'.

(** The commit adds the swipe, and the match when the trigger saw a like
    and the pair has none. *)
Lemma committed_cases :
  (db' = db1 /\ (has_match db cid rid \/ d = dislike \/ seen <> Some like))
  \/ (db' = with_matches db1
              (matches db
               ++ [new_match (env_trigger_uuid e) cid rid (env_now e)])
      /\ ~ has_match db cid rid
      /\ (forall m, m ∈ matches db -> match_id m <> env_trigger_uuid e)
      /\ d = like /\ seen = Some like).
Proof.
  unfold check_for_match_then in Htrigger. simpl in Htrigger.
  destruct d; [|left; simplify_eq; auto].
  case_bool_decide as Hs; [|left; simplify_eq; auto].
  apply insert_if_absent_result in Htrigger as [[H ->]|(Hno & Hfresh & ->)];
    [left | right]; auto.
Qed.

Lemma committed_swipes : swipes db' = swipes db ++ [s].
Proof. by destruct committed_cases as [[-> _]|[-> _]]. Qed.

Lemma committed_frame : couples db' = couples db /\ profiles db' = profiles db.
Proof. by destruct committed_cases as [[-> _]|[-> _]]. Qed.

Lemma committed_grows : db_grows db db'.
Proof.
  destruct committed_frame as [Hcp Hpr]. split; try done.
  - intros x Hx. rewrite committed_swipes. apply elem_of_app. by left.
  - intros c r H. unfold has_match in *.
    destruct committed_cases as [[-> _]|[-> _]]; [done|]. simpl.
    rewrite map_app. apply elem_of_app. by left.
Qed.

Lemma committed_constraints : constraints db'.
Proof.
  destruct Hcons as [C1 C2 C3 C4 C5]. destruct committed_frame as [Hc _].
  split.
  - by rewrite Hc.
  - rewrite committed_swipes. apply NoDup_snoc; [done|]. intros y Hy. by apply Hid.
  - rewrite committed_swipes. apply NoDup_snoc; [done|].
    intros y Hy. rewrite find_swipe_None in Hkey. by apply Hkey.
  - destruct committed_cases as [[-> _]|(-> & _ & Hfresh & _)]; [done|]. simpl.
    apply NoDup_snoc; [done|]. intros y Hy. by apply Hfresh.
  - destruct committed_cases as [[-> _]|(-> & Hno & _)]; [done|]. simpl.
    apply NoDup_snoc; [done|]. intros y Hy Hk. apply Hno.
    unfold has_match. apply list_elem_of_fmap. exists y. by rewrite Hk.
Qed.

Lemma committed_liked_new : d = like -> liked db' uid rid cid.
Proof.
  intros Hd. exists s. rewrite committed_swipes. split_and!; try done.
  apply elem_of_app. right. left.
Qed.

(** A match the commit adds is one both users have a like for: the
    partner's is the one the trigger read, the own one the row added. *)
Lemma committed_sound :
  read_ok db s seen -> matches_sound db -> matches_sound db'.
Proof.
  intros Hread Hsound cid0 rid0 Hm. pose proof committed_grows as Hg.
  assert (Hold : has_match db cid0 rid0 ->
            exists c u2, find_couple db' cid0 = Some c /\ user2_id c = Some u2
                         /\ liked db' (user1_id c) rid0 cid0
                         /\ liked db' u2 rid0 cid0).
  { intros H. destruct (Hsound cid0 rid0 H) as (c & u2 & Hc & Hu & H1 & H2).
    exists c, u2. rewrite (find_couple_grows db db') by done.
    split_and!; eauto using liked_grows. }
  destruct committed_cases as [[Heq _]|(Heq & _ & _ & Hd & Hs)].
  { apply Hold. by rewrite Heq in Hm. }
  rewrite Heq in Hm.
  apply (has_match_snoc db1) in Hm as [Hm|Hnew]; [by apply Hold|].
  injection Hnew as <- <-.
  destruct (Hread Hs) as (p & Hpart & Hl). simpl in Hpart, Hl.
  unfold trigger_partner in Hpart.
  destruct (find_couple db cid) as [c|] eqn:Hc; [|done].
  assert (Hl' : liked db' p rid cid).
  { destruct Hl as (x & Hin & Hk & Hdx). exists x. by rewrite committed_swipes. }
  apply swipes_policy_member in Hpolicy as [-> Hm].
  apply policy_member in Hm as (c' & Hin' & Hid' & Hmem).
  assert (find_couple db cid = Some c') as Hc'.
  { rewrite <- Hid'. apply find_couple_unique; [by destruct Hcons | done]. }
  assert (c' = c) as -> by congruence.
  exists c. unfold is_member in Hmem. rewrite (find_couple_grows db db') by done.
  case_bool_decide as Hu1.
  - exists p. split_and!; try done. rewrite Hu1. by apply committed_liked_new.
  - simpl in Hmem. apply bool_decide_eq_true in Hmem.
    injection Hpart as <-. exists uid. split_and!; try done.
    by apply committed_liked_new.
Qed.
End commit_swipe_preserves.

Lemma commit_swipe_inv seen e auth uid rid cid d db db' r :
  db_inv db -> read_ok db (new_swipe e uid rid cid d) seen ->
  commit_swipe seen e auth uid rid cid d db = (db', r) ->
  db_inv db' /\ db_grows db db'.
Proof.
  intros Hinv Hread Hins. destruct r as [err|s].
  - apply commit_swipe_rejected in Hins as ->. auto using db_grows_refl.
  - apply commit_swipe_accepted in Hins as (-> & Hp & Hid & Hk & Ht).
    destruct Hinv as [Hc Hs].
    split; [split; [eapply committed_constraints | eapply committed_sound]
           | eapply committed_grows]; eauto.
Qed.

Lemma insert_swipe_inv e auth uid rid cid d db db' r :
  db_inv db -> insert_swipe e auth uid rid cid d db = (db', r) ->
  db_inv db' /\ db_grows db db'.
Proof.
  rewrite insert_swipe_commit. intros Hinv.
  apply commit_swipe_inv; [done | apply read_ok_now].
Qed.

Lemma insert_match_cases e auth cid rid fav db :
  (exists err, insert_match e auth cid rid fav db = (db, inl err))
  \/ (exists m,
        insert_match e auth cid rid fav db
        = (with_matches db (matches db ++ [m]), inr m)
        /\ match_key m = (cid, rid) /\ match_id m = env_uuid e
        /\ ~ has_match db cid rid
        /\ (forall x, x ∈ matches db -> match_id x <> env_uuid e)).
Proof.
  unfold insert_match.
  destruct (in_couple_policy db auth cid); simpl; [|by eauto].
  destruct (existsb _ _) eqn:Hex; [by eauto|].
  destruct (find_match db cid rid) eqn:Hf; [by eauto|].
  right. eexists. split; [done|]. split_and!; try done.
  - by apply find_match_None.
  - by apply existsb_false_fresh.
Qed.

Lemma insert_match_inv e auth cid rid fav db :
  db_inv db ->
  (exists c u2, find_couple db cid = Some c /\ user2_id c = Some u2
                /\ liked db (user1_id c) rid cid /\ liked db u2 rid cid) ->
  db_inv (insert_match e auth cid rid fav db).1
  /\ db_grows db (insert_match e auth cid rid fav db).1.
Proof.
  intros Hinv Hboth.
  destruct (insert_match_cases e auth cid rid fav db)
    as [(err & ->)|(m & -> & Hk & Hi & Hno & Hfresh)]; simpl;
    [auto using db_grows_refl|].
  assert (Hg : db_grows db (with_matches db (matches db ++ [m]))).
  { split; try done. intros c r H. apply has_match_snoc. by left. }
  split; [|done]. destruct Hinv as [[C1 C2 C3 C4 C5] Hs]. split.
  - split; simpl; try done.
    + apply NoDup_snoc; [done|]. intros y Hy. rewrite Hi. by apply Hfresh.
    + apply NoDup_snoc; [done|]. intros y Hy Hky. apply Hno.
      unfold has_match. apply list_elem_of_fmap. exists y.
      by rewrite Hky, Hk.
  - intros c r H. apply has_match_snoc in H as [H|H].
    + destruct (Hs c r H) as (cp & u2 & ? & ? & ? & ?). exists cp, u2.
      split_and!; eauto using liked_grows.
    + rewrite Hk in H. injection H as <- <-.
      destruct Hboth as (cp & u2 & ? & ? & ? & ?). exists cp, u2.
      split_and!; eauto using liked_grows.
Qed.

Lemma update_favorite_inv e auth mid fav db :
  db_inv db ->
  db_inv (update_favorite e auth mid fav db)
  /\ db_grows db (update_favorite e auth mid fav db).
Proof.
  intros [Hc Hs].
  destruct (update_favorite_keys e auth mid fav db) as [Hk Hi].
  assert (Hh : forall c r, has_match (update_favorite e auth mid fav db) c r
                           <-> has_match db c r).
  { intros c r. unfold has_match. by rewrite Hk. }
  assert (Hg : db_grows db (update_favorite e auth mid fav db)).
  { split; try done. intros c r. by rewrite Hh. }
  split; [|done]. split.
  - by apply update_favorite_constraints.
  - intros c r H. apply Hh in H. destruct (Hs c r H) as (cp & u2 & ?).
    exists cp, u2. done.
Qed.

(** ** Invariants of the calls in flight *)

Lemma call_ok_grows db db' c : db_grows db db' -> call_ok db c -> call_ok db' c.
Proof.
  intros Hg [(cp & Hin & Hm & Ho) Hpc]. split.
  - exists cp. by rewrite (grows_couples db db' Hg).
  - destruct (call_pc c); try done.
    + by apply (read_ok_grows db db').
    + destruct Hpc as (? & ? & ?). eauto using liked_grows.
    + destruct Hpc as (? & ? & p & ? & ?). split_and!; eauto using liked_grows.
    + destruct Hpc as (? & ? & p & ? & ?). split_and!; eauto using liked_grows.
Qed.

Lemma call_both_liked db auth o rid :
  constraints db ->
  (exists cp, cp ∈ couples db /\ is_member cp auth = true
              /\ o = screen_options cp auth) ->
  liked db auth rid (coupleId o) ->
  (exists p, partnerId o = Some p /\ liked db p rid (coupleId o)) ->
  exists c u2, find_couple db (coupleId o) = Some c /\ user2_id c = Some u2
               /\ liked db (user1_id c) rid (coupleId o)
               /\ liked db u2 rid (coupleId o).
Proof.
  intros [C1 _ _ _ _] (cp & Hin & Hm & ->) Hown (p & Hp & Hpl). simpl in *.
  exists cp. unfold is_member in Hm. case_bool_decide as Hu1.
  - exists p. split_and!; try done; [by apply find_couple_unique | by rewrite Hu1].
  - simpl in Hm. apply bool_decide_eq_true in Hm. injection Hp as <-.
    exists auth. split_and!; try done. by apply find_couple_unique.
Qed.

Lemma select_like_liked auth uid rid cid db x :
  x ∈ select_swipes_like auth uid rid cid db -> liked db uid rid cid.
Proof.
  unfold select_swipes_like. intros H.
  apply list_elem_of_filter in H as [(Hk & Hd & _) Hin]. by exists x.
Qed.

Lemma maybeSingle_Some {A} (rows : list A) x :
  data (maybeSingle rows) = Some x -> x ∈ rows.
Proof.
  destruct rows as [|y [|z rows]]; simpl; try done. intros [= ->]. left.
Qed.

Lemma truthy_Some o : truthy o = true -> exists p, o = Some p.
Proof. destruct o; [eauto | done]. Qed.

Lemma commit_step_inv seen e auth o rid d db db' res :
  db_inv db ->
  (exists cp, cp ∈ couples db /\ is_member cp auth = true
              /\ o = screen_options cp auth) ->
  read_ok db (new_swipe e (userId o) rid (coupleId o) d) seen ->
  commit_swipe seen e auth (userId o) rid (coupleId o) d db = (db', res) ->
  db_inv db' /\ db_grows db db'
  /\ (exists cp, cp ∈ couples db' /\ is_member cp auth = true
                 /\ o = screen_options cp auth)
  /\ (forall s, res = inr s -> d = like -> liked db' auth rid (coupleId o)).
Proof.
  intros Hinv Hcp Hread Hins.
  destruct (commit_swipe_inv _ _ _ _ _ _ _ _ _ _ Hinv Hread Hins) as [Hinv' Hg].
  split_and!; try done.
  - destruct Hcp as (cp & ? & ? & ?). exists cp.
    by rewrite (grows_couples _ _ Hg).
  - intros s -> Hd.
    apply commit_swipe_accepted in Hins as (-> & Hp & Hid & Hk & Ht).
    destruct (swipes_policy_member _ _ _ _ Hp) as [Hau _].
    rewrite Hau. eapply committed_liked_new; eauto.
Qed.

Lemma call_step_inv e c w :
  db_inv (w_db w) -> call_ok (w_db w) c ->
  db_inv (w_db (call_step e c w).2)
  /\ call_ok (w_db (call_step e c w).2) (call_step e c w).1
  /\ db_grows (w_db w) (w_db (call_step e c w).2).
Proof.
  intros Hinv Hok. pose proof Hok as [Hcp Hpc].
  destruct c as [auth o rid d pc]. simpl in *.
  destruct pc as [|e0 seen|sw|sw|sw|r]; simpl in *.
  - (* the insert into swipes, overlapping nothing *)
    js_unfold; simpl.
    destruct (env_outcome e); simpl; [|by auto using db_grows_refl..].
    rewrite insert_swipe_commit.
    destruct (commit_swipe _ e auth (userId o) rid (coupleId o) d (w_db w))
      as [db' res] eqn:Hins.
    destruct (commit_step_inv _ _ _ _ _ _ _ _ _ Hinv Hcp (read_ok_now _ _) Hins)
      as (Hinv' & Hg & Hcp' & Hown).
    destruct res as [err|s]; simpl; [by auto|].
    destruct d; simpl; [|by auto].
    destruct (truthy (partnerId o)) eqn:Htr; simpl; [|by auto].
    split; [done|]. split; [|done]. split; [done|]. simpl.
    split_and!; try done. by apply (Hown s).
  - (* the commit of the insert the call began *)
    js_unfold; simpl.
    destruct (commit_swipe seen e0 auth (userId o) rid (coupleId o) d (w_db w))
      as [db' res] eqn:Hins.
    destruct (commit_step_inv _ _ _ _ _ _ _ _ _ Hinv Hcp Hpc Hins)
      as (Hinv' & Hg & Hcp' & Hown).
    destruct res as [err|s]; simpl; [by auto|].
    destruct d; simpl; [|by auto].
    destruct (truthy (partnerId o)) eqn:Htr; simpl; [|by auto].
    split; [done|]. split; [|done]. split; [done|]. simpl.
    split_and!; try done. by apply (Hown s).
  - (* the lookup of the partner's like *)
    destruct Hpc as (Hd & Hown & Htr).
    js_unfold; simpl.
    destruct (env_outcome e); simpl; [|by auto using db_grows_refl..].
    destruct (error (maybeSingle _)); simpl; [by auto using db_grows_refl|].
    destruct (data (maybeSingle _)) as [x|] eqn:Hx; simpl;
      [|by auto using db_grows_refl].
    split; [done|]. split; [|apply db_grows_refl]. split; [done|]. simpl.
    split_and!; try done.
    apply truthy_Some in Htr as (p & Hp). exists p. split; [done|].
    rewrite Hp in Hx. simpl in Hx. apply maybeSingle_Some in Hx.
    by apply select_like_liked in Hx.
  - (* the lookup of an existing match *)
    js_unfold; simpl.
    destruct (env_outcome e); simpl; [|by auto using db_grows_refl..].
    destruct (data (maybeSingle _)); simpl; by auto using db_grows_refl.
  - (* the insert into matches *)
    destruct Hpc as (Hd & Hown & Hpl).
    js_unfold; simpl.
    destruct (env_outcome e); simpl; [|by auto using db_grows_refl..].
    destruct (insert_match_inv e auth (coupleId o) rid false (w_db w) Hinv)
      as [Hinv' Hg].
    { apply (call_both_liked (w_db w) auth o rid); try done. by destruct Hinv. }
    destruct (insert_match e auth (coupleId o) rid false (w_db w))
      as [db' res]; simpl in *.
    assert (Hcp' : exists cp, cp ∈ couples db' /\ is_member cp auth = true
                              /\ o = screen_options cp auth).
    { destruct Hcp as (cp & ? & ? & ?). exists cp.
      by rewrite (grows_couples _ _ Hg). }
    destruct res as [err|m]; simpl; by auto.
  - auto using db_grows_refl.
Qed.

Lemma begin_insert_inv e c w :
  call_ok (w_db w) c ->
  w_db (begin_insert e c w).2 = w_db w
  /\ call_ok (w_db w) (begin_insert e c w).1.
Proof.
  intros Hok. unfold begin_insert.
  destruct (call_pc c) eqn:Hpc; try done.
  destruct (env_outcome e); try done. simpl. split; [done|].
  destruct Hok as [Hcp _]. split; [done|]. simpl. apply read_ok_now.
Qed.

(** ** Invariants of the system *)

Lemma lib_recordSwipe_db e auth rid d cid w :
  w_db (lib_recordSwipe e auth rid d cid w).2 = w_db w
  \/ w_db (lib_recordSwipe e auth rid d cid w).2
     = (insert_swipe e auth auth rid cid d (w_db w)).1.
Proof.
  js_unfold. destruct (env_outcome e); simpl; auto.
  destruct (insert_swipe _ _ _ _ _ _ _) as [db' [err|s]]; simpl; auto.
Qed.

Lemma from_matches_update_db e auth mid fav w :
  w_db (from_matches_update e auth mid fav w).2 = w_db w
  \/ w_db (from_matches_update e auth mid fav w).2
     = update_favorite e auth mid fav (w_db w).
Proof. js_unfold. destruct (env_outcome e); simpl; auto. Qed.

Lemma sendMatchNotification_db e g auth recipient recipeName w :
  w_db (sendMatchNotification e g auth recipient recipeName w).2 = w_db w.
Proof.
  pose proof (sendMatchNotification_cases e g auth recipient recipeName w) as H.
  simpl in H. destruct (endpoint_lookup _ _ _ _).
  - destruct g; by rewrite H.
  - destruct H as (log & -> & _). done.
Qed.

Lemma open_ok_grows db db' i : db_grows db db' -> open_ok db i -> open_ok db' i.
Proof. apply read_ok_grows. Qed.

Lemma from_swipes_commit_db seen e auth uid rid cid d w :
  w_db (from_swipes_commit seen e auth uid rid cid d w).2
  = (commit_swipe seen e auth uid rid cid d (w_db w)).1.
Proof.
  js_unfold. by destruct (commit_swipe _ _ _ _ _ _ _ _) as [db' r].
Qed.

Lemma sys_inv_world cs s w :
  sys_inv cs s -> db_inv (w_db w) -> db_grows (w_db (sys_world s)) (w_db w) ->
  sys_inv cs (with_world s w).
Proof.
  intros [Hc Hi Hk Ho] Hi' Hg. split; simpl.
  - by rewrite (grows_couples _ _ Hg).
  - done.
  - eapply Forall_impl; [exact Hk|]. intros c. by apply call_ok_grows.
  - eapply Forall_impl; [exact Ho|]. intros i. by apply open_ok_grows.
Qed.

Lemma sys_step_inv cs s a : sys_inv cs s -> sys_inv cs (sys_step s a).
Proof.
  intros Hs. pose proof Hs as [Hc Hi Hk Ho]. destruct a; simpl.
  - (* a card is swiped *)
    destruct (bool_decide _ && _) eqn:Hguard; [|done].
    apply andb_true_iff in Hguard as [Hin Hm]. apply bool_decide_eq_true in Hin.
    split; simpl; try done. apply Forall_app. split; [done|].
    apply Forall_singleton. split; simpl; [|done]. by exists c.
  - (* a call issues its next statement *)
    destruct (sys_calls s !! i) as [c|] eqn:Hci; [|done].
    assert (call_ok (w_db (sys_world s)) c) as Hok.
    { eapply Forall_forall in Hk; [exact Hk|]. by eapply list_elem_of_lookup_2. }
    destruct (call_step_inv e c (sys_world s) Hi Hok) as (Hi' & Hok' & Hg).
    destruct (call_step e c (sys_world s)) as [c' w'] eqn:Hstep. simpl in *.
    split; simpl.
    + by rewrite (grows_couples _ _ Hg).
    + done.
    + apply Forall_insert; [|done].
      eapply Forall_impl; [exact Hk|]. intros c0. by apply call_ok_grows.
    + eapply Forall_impl; [exact Ho|]. intros i0. by apply open_ok_grows.
  - (* the insert of a call reaches the store *)
    destruct (sys_calls s !! i) as [c|] eqn:Hci; [|done].
    assert (call_ok (w_db (sys_world s)) c) as Hok.
    { eapply Forall_forall in Hk; [exact Hk|]. by eapply list_elem_of_lookup_2. }
    destruct (begin_insert_inv e c (sys_world s) Hok) as [Hdb Hok'].
    destruct (begin_insert e c (sys_world s)) as [c' w'] eqn:Hstep. simpl in *.
    split; simpl; rewrite ?Hdb; try done. by apply Forall_insert.
  - (* the plain insert of the library *)
    destruct (lib_recordSwipe_db e auth recipeId d cid (sys_world s)) as [Heq|Heq].
    + apply sys_inv_world; rewrite ?Heq; auto using db_grows_refl.
    + destruct (insert_swipe e auth auth recipeId cid d (w_db (sys_world s)))
        as [db' r] eqn:Hins.
      destruct (insert_swipe_inv _ _ _ _ _ _ _ _ _ Hi Hins).
      apply sys_inv_world; rewrite ?Heq; auto.
  - (* a plain insert reaches the store *)
    destruct (env_outcome e); [|done..].
    split; simpl; try done. apply Forall_app. split; [done|].
    apply Forall_singleton. apply read_ok_now.
  - (* a plain insert commits *)
    destruct (sys_open s !! j) as [i|] eqn:Hj; [|done].
    assert (open_ok (w_db (sys_world s)) i) as Hok.
    { eapply Forall_forall in Ho; [exact Ho|]. by eapply list_elem_of_lookup_2. }
    pose proof (from_swipes_commit_db (open_seen i) (open_env i) (open_auth i)
                  (open_auth i) (open_recipe i) (open_couple i)
                  (open_direction i) (sys_world s)) as Hdb.
    destruct (commit_swipe (open_seen i) (open_env i) (open_auth i)
                (open_auth i) (open_recipe i) (open_couple i)
                (open_direction i) (w_db (sys_world s))) as [db' r] eqn:Hins.
    destruct (commit_swipe_inv _ _ _ _ _ _ _ _ _ _ Hi Hok Hins) as [Hi' Hg].
    simpl in Hdb. split; simpl; rewrite Hdb.
    + by rewrite (grows_couples _ _ Hg).
    + done.
    + eapply Forall_impl; [exact Hk|]. intros c0. by apply call_ok_grows.
    + apply Forall_delete.
      eapply Forall_impl; [exact Ho|]. intros i0. by apply open_ok_grows.
  - (* a favourite is set *)
    destruct (from_matches_update_db e auth mid fav (sys_world s)) as [Heq|Heq].
    + apply sys_inv_world; rewrite ?Heq; auto using db_grows_refl.
    + destruct (update_favorite_inv e auth mid fav (w_db (sys_world s)) Hi).
      apply sys_inv_world; rewrite ?Heq; auto.
  - (* a notification is dispatched *)
    apply sys_inv_world; rewrite ?sendMatchNotification_db;
      auto using db_grows_refl.
Qed.

Lemma initial_inv cs ps :
  NoDup (map couple_id cs) -> sys_inv cs (initial cs ps).
Proof.
  intros Hnd. split; simpl; [done| |done|done]. split.
  - split; simpl; try done; apply NoDup_nil_2.
  - intros c r H. unfold has_match in H. simpl in H. by apply elem_of_nil in H.
Qed.

Lemma sys_run_inv cs acts s : sys_inv cs s -> sys_inv cs (sys_run acts s).
Proof.
  revert s. induction acts as [|a acts IH]; intros s Hs; [done|].
  simpl. apply IH. by apply sys_step_inv.
Qed.

Lemma reachable_inv cs ps s :
  NoDup (map couple_id cs) -> reachable cs ps s -> sys_inv cs s.
Proof. intros Hnd (acts & ->). by apply sys_run_inv, initial_inv. Qed.

(** ** The writes of a step *)









Lemma insert_swipe_dislike e auth uid rid cid db :
  matches (insert_swipe e auth uid rid cid dislike db).1 = matches db.
Proof.
  destruct (insert_swipe e auth uid rid cid dislike db) as [db' [err|s]] eqn:Hins;
    simpl.
  - by apply insert_swipe_rejected in Hins as ->.
  - apply insert_swipe_accepted in Hins as (-> & _ & _ & _ & Ht).
    unfold check_for_match in Ht. simpl in Ht. by simplify_eq.
Qed.

Lemma recordSwipe_dislike auth o es rid w :
  matches (w_db (recordSwipe auth o es rid dislike w).2) = matches (w_db w).
Proof.
  pose proof (insert_swipe_dislike (env_swipe es) auth (userId o) rid
                (coupleId o) (w_db w)) as H.
  js_unfold. destruct (env_outcome (env_swipe es)); simpl; try done.
  destruct (insert_swipe _ _ _ _ _ _ _) as [db' [err|s]]; simpl in *; done.
Qed.

Lemma lib_recordSwipe_dislike e auth rid cid w :
  matches (w_db (lib_recordSwipe e auth rid dislike cid w).2) = matches (w_db w).
Proof.
  pose proof (insert_swipe_dislike e auth auth rid cid (w_db w)) as H.
  js_unfold. destruct (env_outcome e); simpl; try done.
  destruct (insert_swipe _ _ _ _ _ _ _) as [db' [err|s]]; simpl in *; done.
Qed.

(** C3.  In every state the system reaches, a match for (couple, recipe)
    implies that the couple is complete and that both of its users have a
    like for the recipe on record; hence no match exists while only one of
    them has liked it, nor when a member has a dislike on record for it.  A
    swipe with direction dislike never adds a match, through the hook or
    through the plain insert. *)
Theorem match_only_when_both_liked (cs : list Couple) (ps : list Profile)
    (s : System) :
  NoDup (map couple_id cs) ->
  reachable cs ps s ->
  let db := w_db (sys_world s) in
  (forall cid rid, has_match db cid rid ->
     exists c u2, c ∈ cs /\ couple_id c = cid /\ user2_id c = Some u2
                  /\ liked db (user1_id c) rid cid /\ liked db u2 rid cid)
  /\ (forall c x,
        c ∈ cs -> x ∈ swipes db -> swipe_couple_id x = couple_id c ->
        is_member c (swipe_user_id x) = true -> swipe_direction x = dislike ->
        ~ has_match db (couple_id c) (swipe_recipe_id x))
  /\ (forall auth o es rid w,
        matches (w_db (recordSwipe auth o es rid dislike w).2) = matches (w_db w))
  /\ (forall e auth rid cid w,
        matches (w_db (lib_recordSwipe e auth rid dislike cid w).2)
        = matches (w_db w)).
Proof.
  intros Hnd Hreach. destruct (reachable_inv cs ps s Hnd Hreach)
    as [Hcs [[C1 C2 C3 C4 C5] Hsound] _ _]. simpl.
  assert (Hfirst : forall cid rid, has_match (w_db (sys_world s)) cid rid ->
            exists c u2, c ∈ cs /\ couple_id c = cid /\ user2_id c = Some u2
                         /\ liked (w_db (sys_world s)) (user1_id c) rid cid
                         /\ liked (w_db (sys_world s)) u2 rid cid).
  { intros cid rid Hm. destruct (Hsound cid rid Hm) as (c & u2 & Hc & Hu & H1 & H2).
    apply find_couple_Some in Hc as [Hin Hid]. exists c, u2.
    rewrite <- Hcs. done. }
  split_and!; auto using recordSwipe_dislike, lib_recordSwipe_dislike.
  intros c x Hc Hx Hxc Hmem Hdis Hm.
  destruct (Hfirst _ _ Hm) as (c' & u2 & Hc' & Hid & Hu & H1 & H2).
  assert (c' = c) as ->.
  { apply (NoDup_fmap_inj couple_id cs); done. }
  assert (liked (w_db (sys_world s)) (swipe_user_id x) (swipe_recipe_id x)
            (couple_id c)) as (y & Hy & Hk & Hlike).
  { unfold is_member in Hmem. apply orb_true_iff in Hmem as [Hm1|Hm2].
    - apply bool_decide_eq_true in Hm1. by rewrite <- Hm1.
    - apply bool_decide_eq_true in Hm2. rewrite Hu in Hm2. by injection Hm2 as <-. }
  assert (y = x) as ->.
  { apply (NoDup_fmap_inj swipe_key (swipes (w_db (sys_world s)))); try done.
    rewrite Hk. unfold swipe_key. by rewrite Hxc. }
  congruence.
Qed.

(** ** The creation of a match and what the hook reports *)

Lemma filter_unique {A K} (f : A -> K) (P : A -> Prop)
    `{forall x, Decision (P x)} (l : list A) (x : A) :
  NoDup (map f l) -> x ∈ l -> P x -> (forall y, P y -> f y = f x) ->
  filter P l = [x].
Proof.
  induction l as [|a l IH]; intros Hnd Hin HP Hkey; [by apply elem_of_nil in Hin|].
  simpl in Hnd. apply NoDup_cons in Hnd as [Hna Hnd].
  apply elem_of_cons in Hin as [->|Hin].
  - rewrite filter_cons_True by done. f_equal. apply filter_none.
    intros y Hy HPy. apply Hna. rewrite <- (Hkey y HPy).
    apply list_elem_of_fmap. eauto.
  - rewrite filter_cons_False; [by apply IH|].
    intros HPa. apply Hna. rewrite (Hkey a HPa). apply list_elem_of_fmap. eauto.
Qed.


Lemma insert_match_swipes e auth cid rid fav db :
  swipes (insert_match e auth cid rid fav db).1 = swipes db.
Proof.
  destruct (insert_match_cases e auth cid rid fav db)
    as [(err & ->)|(m & -> & _)]; done.
Qed.

Lemma insert_swipe_accepted_in e auth uid rid cid d db db' s :
  insert_swipe e auth uid rid cid d db = (db', inr s) -> s ∈ swipes db'.
Proof.
  intros Hins. apply insert_swipe_accepted in Hins as (-> & _ & _ & _ & Ht).
  rewrite (accepted_swipes _ _ _ _ _ _ _ Ht). apply elem_of_app. right. left.
Qed.

(** C6 (amended).  Once the store has accepted the like, the event stays in
    the ledger whatever happens next.  A lookup of the partner's like that
    is not served is logged and absorbed: the call returns the recorded
    swipe with [isMatch = false] and no error.  No result that carries the
    recorded swipe carries an error.  The insert of the match, when it is
    refused (as a duplicate or for any other reason) or not served, is
    logged and gives one and the same result, [isMatch = false] with no
    error, and leaves the store as it was. *)
Theorem detection_failures_absorbed (auth : string) (o : UseSwipesOptions)
    (es : Envs) (recipeId : string) (w : World) (s : Swipe) (db1 : DB) :
  env_outcome (env_swipe es) = Responds ->
  insert_swipe (env_swipe es) auth (userId o) recipeId (coupleId o) like (w_db w)
  = (db1, inr s) ->
  truthy (partnerId o) = true ->
  let out := recordSwipe auth o es recipeId like w in
  s ∈ swipes (w_db out.2)
  /\ swipes (w_db out.2) = swipes db1
  /\ (env_outcome (env_partner es) = Fails ->
      out.1 = Value (swipe_result (Some s) false None None)
      /\ w_db out.2 = db1
      /\ exists tr,
          w_trace out.2
          = errorLogger_error "useSwipes" "checkPartnerSwipe" unavailable :: tr)
  /\ (forall r, out.1 = Value r -> SwipeResult.swipe r = Some s ->
                SwipeResult.error r = None)
  /\ (forall (e : Env) (c : Call) (w0 : World) (sw : option Swipe),
        call_pc c = at_create_match sw ->
        env_outcome e = Fails
        \/ (env_outcome e = Responds
            /\ exists err,
                (insert_match e (call_auth c) (coupleId (call_options c))
                   (call_recipe c) false (w_db w0)).2 = inl err) ->
        (call_step e c w0).1
        = at_pc c (returned (swipe_result sw false None None))
        /\ w_db (call_step e c w0).2 = w_db w0
        /\ exists err tr,
            w_trace (call_step e c w0).2
            = errorLogger_error "useSwipes" "createMatch" err :: tr).
Proof.
  intros Hresp Hins Htr. simpl.
  pose proof (insert_swipe_accepted_in _ _ _ _ _ _ _ _ _ Hins) as Hin.
  assert (Hsw : swipes (w_db (recordSwipe auth o es recipeId like w).2)
                = swipes db1).
  { pose proof (insert_match_swipes (env_create es) auth (coupleId o) recipeId
                  false db1) as Hm.
    js_unfold. rewrite Hresp, Hins. simpl. rewrite Htr. simpl.
    repeat (case_split; simpl in *; simplify_eq; simpl in *); try done;
      match goal with
      | H : insert_match _ _ _ _ _ _ = _ |- _ => by rewrite H in Hm
      end. }
  split; [by rewrite Hsw|]. split; [done|]. split_and!.
  - intros Hfail. js_unfold. rewrite Hresp, Hins. simpl. rewrite Htr. simpl.
    rewrite Hfail. simpl. split_and!; eauto.
  - intros r. js_unfold. rewrite Hresp, Hins. simpl. rewrite Htr. simpl.
    repeat (case_split; simpl in *; simplify_eq; simpl in *);
      intros; simplify_eq; done.
  - intros e c w0 sw Hpc Hcase. destruct c as [a o' r d pc]. simpl in *.
    subst pc. js_unfold. simpl.
    destruct Hcase as [->|[-> (err & Herr)]]; simpl; [by eauto|].
    destruct (insert_match _ _ _ _ _ _) as [db' res] eqn:Hm. simpl in *.
    subst res. simpl. split; [done|]. split; [|by eauto].
    destruct (insert_match_cases e a (coupleId o') r false (w_db w0))
      as [(err' & Heq)|(m & Heq & _)]; rewrite Heq in Hm; by simplify_eq.
Qed.

(** ** The scenarios *)

Ltac by_computation := vm_compute; first [reflexivity | done | tauto].

Lemma scenario_couples_pkey : NoDup (map couple_id [couple_G]).
Proof. simpl. apply NoDup_singleton. Qed.


Lemma recordSwipe_returns auth o es rid d w :
  exists r w', recordSwipe auth o es rid d w = (Value r, w').
Proof.
  destruct (recordSwipe_run_call auth o es rid d w) as (r & w' & H & _). eauto.
Qed.

Lemma recordSwipe_no_post auth o es rid d w :
  gateway_posts (w_trace (recordSwipe auth o es rid d w).2)
  = gateway_posts (w_trace w).
Proof.
  js_unfold. repeat (case_split; simpl in *; simplify_eq; simpl in * ); done.
Qed.

Lemma call_step_no_post e c w :
  gateway_posts (w_trace (call_step e c w).2) = gateway_posts (w_trace w).
Proof.
  destruct c as [auth o rid d pc]. destruct pc; js_unfold; simpl;
    repeat (case_split; simpl in *; simplify_eq; simpl in * ); done.
Qed.

Lemma handleSwipeRight_no_post auth couple recipe es w :
  gateway_posts (w_trace (handleSwipeRight auth couple recipe es w).2)
  = gateway_posts (w_trace w).
Proof.
  unfold handleSwipeRight. destruct recipe as [rid|], couple as [c|]; try done.
  pose proof (recordSwipe_no_post auth (screen_options c auth) es rid like w) as H.
  destruct (recordSwipe_returns auth (screen_options c auth) es rid like w)
    as (r & w' & Heq).
  unfold bind. rewrite Heq in *. simpl in H.
  unfold emit, ret. repeat (case_split; simpl); done.
Qed.

(** C4.  Nothing on the path of a swipe sends to the push gateway: neither
    the hook, taken whole or statement by statement, nor the right-swipe
    handler of the screen.  When Bob's like completes the match on R1 the
    match is stored and the animation is shown, and no message is posted
    for Alice. *)
Theorem match_completion_dispatches_nothing :
  (forall auth o es rid d w,
      gateway_posts (w_trace (recordSwipe auth o es rid d w).2)
      = gateway_posts (w_trace w))
  /\ (forall e c w,
        gateway_posts (w_trace (call_step e c w).2) = gateway_posts (w_trace w))
  /\ (forall auth couple recipe es w,
        gateway_posts (w_trace (handleSwipeRight auth couple recipe es w).2)
        = gateway_posts (w_trace w))
  /\ matches (w_db (handleSwipeRight "bob" (Some couple_G) (Some "R1")
                      (all (responds "2" 2)) after_alice).2) = [match_R1]
  /\ head (w_trace (handleSwipeRight "bob" (Some couple_G) (Some "R1")
                      (all (responds "2" 2)) after_alice).2)
     = Some (setMatchAnimation "R1")
  /\ gateway_posts (w_trace (handleSwipeRight "bob" (Some couple_G) (Some "R1")
                               (all (responds "2" 2)) after_alice).2) = [].
Proof.
  split_and!;
    [apply recordSwipe_no_post | apply call_step_no_post
     | apply handleSwipeRight_no_post | by_computation..].
Qed.

(** The profile of another user is not visible to the caller, and the
    dispatcher then finds no endpoint. *)
Lemma endpoint_lookup_other_user e auth recipient db :
  auth <> recipient -> endpoint_lookup e auth recipient db = None.
Proof.
  intros Hne. unfold endpoint_lookup, select_push_tokens.
  destruct (env_outcome e); try done.
  rewrite filter_none; [done|]. intros p _ [H1 H2]. congruence.
Qed.

(** Overlapping inserts.  Alice and Bob like R3, the trigger of each
    insert reads before the other insert commits, and every request is
    served.  After both commits both likes are on record and the pair has
    no match.  Each call finds the like of the other and no match, so each
    sends a plain insert: Alice's adds the row and her call reports
    [isMatch] with it; Bob's is refused by the unique constraint and his
    call reports no match. *)
Lemma overlap_served_outcome :
  swipes (w_db (sys_world after_overlap)) = [alice_swipe_R3; bob_swipe_R3]
  /\ matches (w_db (sys_world after_overlap)) = []
  /\ matches (w_db (sys_world (during_overlap 10))) = []
  /\ sys_calls (during_overlap 10) !! 0 = Some alice_creates
  /\ matches (w_db (sys_world (during_overlap 11))) = [match_R3]
  /\ matches (w_db (sys_world (during_overlap 12))) = [match_R3]
  /\ result_of (during_overlap 12) 0
     = Some (swipe_result (Some alice_swipe_R3) true (Some match_R3) None)
  /\ result_of (during_overlap 12) 1
     = Some (swipe_result (Some bob_swipe_R3) false None None).
Proof. split_and!; by_computation. Qed.




(** C3 (witness): the match on R2 after the race. *)
Lemma match_only_when_both_liked_witness :
  has_match (w_db (sys_world after_race)) "G" "R2"
  /\ exists c u2,
      c ∈ [couple_G] /\ couple_id c = "G" /\ user2_id c = Some u2
      /\ liked (w_db (sys_world after_race)) (user1_id c) "R2" "G"
      /\ liked (w_db (sys_world after_race)) u2 "R2" "G".
Proof.
  assert (Hm : has_match (w_db (sys_world after_race)) "G" "R2")
    by (vm_compute; left).
  split; [exact Hm|].
  assert (Hr : reachable [couple_G] [] after_race)
    by (exists race; reflexivity).
  destruct (match_only_when_both_liked [couple_G] [] _ scenario_couples_pkey Hr)
    as (Hboth & _).
  exact (Hboth "G" "R2" Hm).
Defined.

(** C5 (witness): Alice likes R1 a second time. *)
Lemma duplicate_swipe_rejected_witness :
  (recordSwipe "alice" alice (all (responds "2" 2)) "R1" like after_alice).1
  = Value (swipe_result None false None
             (Some (unique_violation "unique_user_recipe_swipe")))
  /\ w_db (recordSwipe "alice" alice (all (responds "2" 2)) "R1" like
             after_alice).2 = w_db after_alice
  /\ count_swipes
       (w_db (recordSwipe "alice" alice (all (responds "2" 2)) "R1" like
                after_alice).2) "alice" "R1" "G" = 1.
Proof.
  destruct (duplicate_swipe_rejected "alice" alice (all (responds "2" 2)) "R1"
              like after_alice
              {| swipe_id := "swipe-1"; swipe_user_id := "alice";
                 swipe_recipe_id := "R1"; swipe_couple_id := "G";
                 swipe_direction := like; swipe_created_at := 1 |})
    as (_ & Hdb & Hcount & _).
  - vm_compute. left.
  - reflexivity.
  - vm_compute. apply NoDup_singleton.
  - split; [reflexivity|]. split; [exact Hdb | exact Hcount].
Defined.

(** C6 (counterexample).  Bob likes R1 after Alice did.  When the lookup of
    Alice's like is not served, the call returns no error.  When the insert
    of the match is refused as a duplicate and when it is not served, the
    hook logs different errors and returns the same result, again with no
    error. *)
Lemma recordSwipe_absorbs_failures :
  (bob_likes_R1 lookup_fails).1
  = Value (swipe_result (Some bob_swipe) false None None)
  /\ head (w_trace (bob_likes_R1 duplicate_on_create).2)
     = Some (errorLogger_error "useSwipes" "createMatch"
               (unique_violation "unique_couple_recipe_match"))
  /\ head (w_trace (bob_likes_R1 store_down_on_create).2)
     = Some (errorLogger_error "useSwipes" "createMatch" unavailable)
  /\ (bob_likes_R1 duplicate_on_create).1
     = Value (swipe_result (Some bob_swipe) false None None)
  /\ (bob_likes_R1 store_down_on_create).1
     = Value (swipe_result (Some bob_swipe) false None None).
Proof. split_and!; by_computation. Qed.

(** C6 (witness): the lookup of Alice's like is not served. *)
Lemma detection_failures_absorbed_witness :
  bob_swipe ∈ swipes (w_db (bob_likes_R1 lookup_fails).2)
  /\ (bob_likes_R1 lookup_fails).1
     = Value (swipe_result (Some bob_swipe) false None None).
Proof.
  destruct (detection_failures_absorbed "bob" bob lookup_fails "R1" after_alice
              bob_swipe
              (insert_swipe (responds "2" 2) "bob" "bob" "R1" "G" like
                 (w_db after_alice)).1)
    as (Hin & _ & Hfail & _).
  - reflexivity.
  - by vm_compute.
  - reflexivity.
  - split; [exact Hin|]. apply Hfail. reflexivity.
Defined.

(** C7 (counterexample).  Alice has a registered endpoint and Bob's client
    calls the dispatcher for her.  When the lookup of her profile is not
    served, the dispatcher returns [false] and posts nothing.  When it is
    served, the policy on [profiles] shows Bob no row, [.single()] answers
    with an error, and again nothing is posted. *)
Lemma sendMatchNotification_lookup_not_served :
  registered_endpoint store0 "alice" = Some "ExponentPushToken[alice]"
  /\ sendMatchNotification (fails "1" 1) gateway_ok "bob" "alice" "Pasta" world0
     = (Value false,
        {| w_db := store0;
           w_trace := [ console_warn "No push token found for recipient";
                        Query (select_push_token "alice") ] |})
  /\ sendMatchNotification (responds "1" 1) gateway_ok "bob" "alice" "Pasta"
       world0
     = (Value false,
        {| w_db := store0;
           w_trace := [ console_warn "No push token found for recipient";
                        Query (select_push_token "alice") ] |}).
Proof. split_and!; by_computation. Qed.

(** C8 (counterexample).  After the race the match on R2 carries
    [updated_at = 4].  Alice toggles the favourite at time 9: the row now
    has [is_favorite = true] and [updated_at = 9]. *)
Lemma toggleFavorite_refreshes_updated_at :
  matches (w_db (sys_world after_race)) = [match_R2]
  /\ match_updated_at match_R2 = 4%Z
  /\ matches (w_db (toggleFavorite (responds "9" 9) "alice" "match-4"
                      hook_matches (sys_world after_race)).2)
     = [ {| match_id := "match-4"; match_couple_id := "G";
            match_recipe_id := "R2"; is_favorite := true; matched_at := 4;
            match_created_at := 4; match_updated_at := 9 |} ].
Proof. split_and!; by_computation. Qed.

(** C9 (counterexample).  A channel was subscribed and then reported
    [CHANNEL_ERROR], so the hook shows a disconnected, errored state.  A
    further [SUBSCRIBED] for the same channel, with no call of [subscribe]
    in between, puts the hook back into the connected state. *)
Lemma realtime_error_is_not_terminal :
  connectionState (realtime_run channel_fails initial_realtime)
  = {| connected := false;
       connection_error := Some "Connection CHANNEL_ERROR" |}
  /\ channel (realtime_run channel_fails initial_realtime) = Some 0
  /\ connectionState
       (realtime_run (channel_fails ++ [deliver_status 0 SUBSCRIBED])
          initial_realtime)
     = {| connected := true; connection_error := None |}
  /\ channel (realtime_run (channel_fails ++ [deliver_status 0 SUBSCRIBED])
                initial_realtime) = Some 0
  /\ channels_created (realtime_run (channel_fails ++ [deliver_status 0 SUBSCRIBED])
                         initial_realtime) = 1.
Proof. split_and!; by_computation. Qed.

(** C10 (witness): an id that is not in the list. *)
Lemma toggleFavorite_unknown_id_witness :
  toggleFavorite (responds "9" 9) "alice" "no-such-match" hook_matches world0
  = (Value hook_matches, world0).
Proof.
  apply toggleFavorite_unknown_id.
  intros m Hin. apply list_elem_of_singleton in Hin. subst m. discriminate.
Defined.

(** * Further properties *)

(** ** The ledger and the matches table *)

Lemma find_app_None {A} (f : A -> bool) (l : list A) (x : A) :
  List.find f l = None -> f x = true -> List.find f (l ++ [x]) = Some x.
Proof.
  induction l as [|y l IH]; simpl; intros Hn Hx.
  - by rewrite Hx.
  - destruct (f y); [done|]. by apply IH.
Qed.

Lemma find_app_other {A} (f : A -> bool) (l : list A) (x : A) :
  f x = false -> List.find f (l ++ [x]) = List.find f l.
Proof.
  intros Hx. induction l as [|y l IH]; simpl.
  - by rewrite Hx.
  - by destruct (f y).
Qed.

(** Insert, then look up.  When the store accepts a swipe, the lookup of
    its triple (user, recipe, couple) in the new store finds the row the
    insert returned, with the direction that was sent; the triple now has
    exactly one row, and the lookup of every other triple gives what it gave
    before. *)
Theorem insert_swipe_lookup (e : Env) (auth uid rid cid : string)
    (d : Direction) (db db' : DB) (s : Swipe) :
  insert_swipe e auth uid rid cid d db = (db', inr s) ->
  find_swipe db' uid rid cid = Some s
  /\ swipe_key s = (uid, rid, cid) /\ swipe_direction s = d
  /\ count_swipes db' uid rid cid = 1
  /\ forall u r c, (u, r, c) <> (uid, rid, cid) ->
       find_swipe db' u r c = find_swipe db u r c.
Proof.
  intros Hins. apply insert_swipe_accepted in Hins as (-> & _ & _ & Hk & Ht).
  pose proof (accepted_swipes _ _ _ _ _ _ _ Ht) as Hs.
  split_and!; try done.
  - unfold find_swipe in *. rewrite Hs. apply find_app_None; [done|].
    by apply bool_decide_eq_true.
  - unfold count_swipes. rewrite Hs, filter_app, length_app.
    rewrite find_swipe_None in Hk.
    rewrite (filter_none _ (swipes db)) by (intros x Hx; by apply Hk).
    rewrite filter_cons_True by done. done.
  - intros u r c Hne. unfold find_swipe. rewrite Hs. apply find_app_other.
    apply bool_decide_eq_false. simpl. unfold swipe_key; simpl. congruence.
Qed.

Lemma insert_swipe_lookup_witness :
  find_swipe (w_db after_alice) "alice" "R1" "G"
  = Some (new_swipe (responds "1" 1) "alice" "R1" "G" like).
Proof.
  apply (insert_swipe_lookup (responds "1" 1) "alice" "alice" "R1" "G" like
           store0).
  vm_compute. reflexivity.
Defined.

Lemma policy_non_member db auth cid :
  (forall c, c ∈ couples db -> couple_id c = cid -> is_member c auth = false) ->
  in_couple_policy db auth cid = false.
Proof.
  intros H. unfold in_couple_policy.
  destruct (existsb _ _) eqn:Hex; [|done].
  apply existsb_exists in Hex as (c & Hin & Hc).
  apply andb_true_iff in Hc as [Hid Hm]. apply bool_decide_eq_true in Hid.
  apply list_elem_of_In in Hin. by rewrite (H c Hin Hid) in Hm.
Qed.

(** The ledger takes a swipe only from its own user and only for a couple
    that user is in: an insert in the name of another user, or for a couple
    the caller occupies no slot of, is refused by the row-level policy and
    leaves the store as it was. *)
Theorem insert_swipe_refuses_others (e : Env) (auth uid rid cid : string)
    (d : Direction) (db : DB) :
  auth <> uid
  \/ (forall c, c ∈ couples db -> couple_id c = cid -> is_member c auth = false) ->
  insert_swipe e auth uid rid cid d db = (db, inl (rls_violation "swipes")).
Proof.
  intros H. unfold insert_swipe.
  assert (Hp : swipes_insert_policy db auth uid cid = false).
  { unfold swipes_insert_policy. destruct H as [H|H].
    - by rewrite bool_decide_eq_false_2.
    - apply policy_non_member in H. unfold in_couple_policy in H.
      rewrite H. apply andb_false_r. }
  by rewrite Hp.
Qed.

Lemma insert_swipe_refuses_others_witness :
  insert_swipe (responds "1" 1) "mallory" "alice" "R1" "G" like store0
  = (store0, inl (rls_violation "swipes")).
Proof.
  apply insert_swipe_refuses_others. left. done.
Defined.

(** The insert-if-absent of the trigger is idempotent.  After it has run
    for a pair the pair has a match, and running it again, with whatever
    uuid and clock, changes nothing.  It never removes a row, and when the
    pair already had a match it leaves the whole store, the favourite flag
    of that match included, as it was. *)
Theorem insert_if_absent_idempotent (id id' cid rid : string) (now now' : Z)
    (db db' : DB) :
  insert_match_on_conflict_do_nothing id cid rid now db = inr db' ->
  insert_match_on_conflict_do_nothing id' cid rid now' db' = inr db'
  /\ has_match db' cid rid
  /\ (has_match db cid rid -> db' = db)
  /\ (forall m, m ∈ matches db -> m ∈ matches db').
Proof.
  intros H. pose proof (insert_if_absent_has_match _ _ _ _ _ _ H) as Hm.
  split_and!; try done.
  - unfold insert_match_on_conflict_do_nothing.
    destruct (find_match db' cid rid) eqn:Hf; [done|].
    apply find_match_None in Hf. done.
  - intros Hin.
    apply insert_if_absent_result in H as [[_ ->]|(Hno & _)]; done.
  - intros m Hin.
    apply insert_if_absent_result in H as [[_ ->]|(_ & _ & ->)]; [done|].
    simpl. apply elem_of_app. by left.
Qed.

Lemma insert_if_absent_idempotent_witness :
  insert_match_on_conflict_do_nothing "match-9" "G" "R1" 9
    (with_matches store0 [match_R1])
  = inr (with_matches store0 [match_R1]).
Proof.
  apply (insert_if_absent_idempotent "match-2" "match-9" "G" "R1" 2 9 store0).
  vm_compute. reflexivity.
Defined.

(** A couple nobody has joined never gets a match: while the second slot of
    the couple is empty, no insert into the ledger for that couple, accepted
    or refused, like or dislike, changes the matches table. *)
Theorem incomplete_couple_never_matches (e : Env) (auth uid rid cid : string)
    (d : Direction) (db : DB) (c : Couple) :
  NoDup (map couple_id (couples db)) ->
  c ∈ couples db -> couple_id c = cid -> user2_id c = None ->
  matches (insert_swipe e auth uid rid cid d db).1 = matches db.
Proof.
  intros Hnd Hin Hid Hu.
  destruct (insert_swipe e auth uid rid cid d db) as [db' [err|s]] eqn:Hins;
    simpl.
  { by apply insert_swipe_rejected in Hins as ->. }
  apply insert_swipe_accepted in Hins as (-> & Hpol & _ & _ & Ht).
  apply swipes_policy_member in Hpol as [-> Hpol].
  apply policy_member in Hpol as (c' & Hin' & Hid' & Hm).
  assert (c' = c) as ->.
  { apply (NoDup_fmap_inj couple_id (couples db)); try done. congruence. }
  assert (Hu1 : user1_id c = uid).
  { unfold is_member in Hm. rewrite Hu in Hm.
    apply orb_true_iff in Hm as [Hm|Hm]; apply bool_decide_eq_true in Hm; done. }
  rewrite check_for_match_eq in Ht. simpl in Ht.
  assert (Hp : partner_liked
                 (with_swipes db (swipes db ++ [new_swipe e uid rid cid d]))
                 cid uid rid = false).
  { unfold partner_liked, trigger_partner, find_couple. simpl.
    fold (find_couple db cid). rewrite <- Hid.
    rewrite (find_couple_unique db c Hnd Hin).
    rewrite bool_decide_eq_true_2 by done. by rewrite Hu. }
  rewrite Hp, andb_false_r in Ht. by simplify_eq.
Qed.

Lemma incomplete_couple_never_matches_witness :
  matches (insert_swipe (responds "1" 1) "carol" "carol" "R1" "S" like
             solo_store).1 = [].
Proof.
  apply (incomplete_couple_never_matches (responds "1" 1) "carol" "carol" "R1"
           "S" like solo_store couple_S).
  - apply (bool_decide_unpack _). vm_compute. exact I.
  - left.
  - reflexivity.
  - reflexivity.
Defined.

Lemma map_id_on {A} (f : A -> A) (l : list A) :
  (forall x, x ∈ l -> f x = x) -> map f l = l.
Proof.
  induction l as [|a l IH]; intros H; simpl; [done|].
  rewrite H by left. rewrite IH; [done|]. intros x Hx. apply H. by right.
Qed.

Lemma update_favorite_none e auth mid fav db :
  (forall m, m ∈ matches db -> match_id m = mid ->
             in_couple_policy db auth (match_couple_id m) = false) ->
  update_favorite e auth mid fav db = db.
Proof.
  intros H. unfold update_favorite. rewrite map_id_on.
  - by destruct db.
  - intros m Hin. destruct (bool_decide (match_id m = mid)) eqn:Hid; [|done].
    apply bool_decide_eq_true in Hid. by rewrite (H m Hin Hid).
Qed.

(** ** Favourites *)

(** The update of a favourite touches only rows the update policy shows to
    the caller, and the caller is not told when it touched none.  When
    every match with the given id belongs to a couple the caller is not in
    (or no match has the id), the statement leaves the store exactly as it
    was, [updated_at] included, and the served request of the client
    answers without an error. *)
Theorem update_favorite_hidden_row (e : Env) (auth mid : string) (fav : bool)
    (db : DB) :
  (forall m, m ∈ matches db -> match_id m = mid ->
             in_couple_policy db auth (match_couple_id m) = false) ->
  update_favorite e auth mid fav db = db
  /\ forall tr,
       env_outcome e = Responds ->
       from_matches_update e auth mid fav {| w_db := db; w_trace := tr |}
       = (Value (answer None),
          {| w_db := db; w_trace := Query (update_matches mid fav) :: tr |}).
Proof.
  intros H. pose proof (update_favorite_none e auth mid fav db H) as Hdb.
  split; [exact Hdb|]. intros tr He.
  unfold from_matches_update, request. rewrite He. simpl. by rewrite Hdb.
Qed.

Lemma update_favorite_hidden_row_witness :
  update_favorite (responds "9" 9) "mallory" "match-2" true
    (with_matches store0 [match_R1])
  = with_matches store0 [match_R1].
Proof.
  apply (update_favorite_hidden_row (responds "9" 9) "mallory" "match-2" true
           (with_matches store0 [match_R1])).
  intros m Hm _. apply list_elem_of_singleton in Hm as ->. reflexivity.
Defined.

(** [toggleFavorite] does not learn whether its update reached a row.  When
    the list of the hook holds the match but the served update touches no
    row of the store (the match is gone, or the policy hides it), the call
    still flips the favourite in the list of the hook and records no error,
    while the store stays as it was. *)
Theorem toggleFavorite_no_row_updated (e : Env) (auth matchId : string)
    (h : UseMatches) (w : World) (m : MatchWithRecipe) :
  env_outcome e = Responds ->
  List.find (fun m => bool_decide (match_id (row m) = matchId)) (local_matches h)
  = Some m ->
  (forall x, x ∈ matches (w_db w) -> match_id x = matchId ->
             in_couple_policy (w_db w) auth (match_couple_id x) = false) ->
  let out := toggleFavorite e auth matchId h w in
  out.1 = Value (toggled matchId (negb (is_favorite (row m))) h)
  /\ local_error (toggled matchId (negb (is_favorite (row m))) h) = local_error h
  /\ w_db out.2 = w_db w.
Proof.
  intros He Hf Hno. simpl.
  destruct (toggleFavorite_cases e auth matchId h w)
    as [[Hn _]|(m' & Hf' & [[_ ->]|(err & Hne & _)])]; [congruence| |done].
  simplify_eq. simpl. split_and!; try done.
  by apply update_favorite_none.
Qed.

Lemma toggleFavorite_no_row_updated_witness :
  (toggleFavorite (responds "9" 9) "alice" "match-4" hook_matches world0).1
  = Value (toggled "match-4" true hook_matches).
Proof.
  apply (toggleFavorite_no_row_updated (responds "9" 9) "alice" "match-4"
           hook_matches world0 {| row := match_R2; recipe_title := "Pasta" |}).
  - reflexivity.
  - reflexivity.
  - intros x Hx. by apply elem_of_nil in Hx.
Defined.






(** The favourite button of the recipe screen has the same frame as the
    hook: it changes nothing in the store but [is_favorite] and
    [updated_at] of the match of the route.  Without a [matchId] it sends
    nothing and changes nothing.  It never raises, and when the screen ends
    up with a flipped [isFavorite] the update was served and every row with
    the id that the caller may update carries the new value. *)
Theorem detail_toggleFavorite_frame (e : Env) (auth : string)
    (matchId : option string) (isFavorite : bool) (w : World) :
  let out := detail_toggleFavorite e auth matchId isFavorite w in
  let mid := default "" matchId in
  only_favorite_changed mid (w_db w) (w_db out.2)
  /\ (truthy matchId = false -> out = (Value isFavorite, w))
  /\ exists b,
      out.1 = Value b
      /\ (b <> isFavorite ->
          env_outcome e = Responds
          /\ forall m, m ∈ matches (w_db out.2) -> match_id m = mid ->
               in_couple_policy (w_db w) auth (match_couple_id m) = true ->
               is_favorite m = b).
Proof.
  simpl. unfold detail_toggleFavorite.
  destruct (truthy matchId) eqn:Ht; simpl.
  2: { split; [apply only_favorite_changed_refl|]. split; [done|].
       exists isFavorite. split; [done|]. by intros []. }
  unfold try_catch, bind, from_matches_update, request, raise, emit, ret.
  destruct (env_outcome e); simpl.
  - split; [apply update_favorite_frame|]. split; [done|].
    eexists. split; [done|]. intros _. split; [done|].
    intros m Hin Hid Hpol. unfold update_favorite in Hin. simpl in Hin.
    apply list_elem_of_fmap in Hin as (y & -> & Hy).
    destruct (bool_decide (match_id y = default "" matchId)) eqn:Hyid; simpl in *.
    + destruct (in_couple_policy (w_db w) auth (match_couple_id y)) eqn:Hyc;
        simpl in *; [done|congruence].
    + apply bool_decide_eq_false in Hyid. done.
  - split; [apply only_favorite_changed_refl|]. split; [done|].
    exists isFavorite. split; [done|]. by intros [].
  - split; [apply only_favorite_changed_refl|]. split; [done|].
    exists isFavorite. split; [done|]. by intros [].
Qed.

(** ** The hook and the swipe screen *)

(** The requests of one call of the hook are an initial part of its four
    statements in program order: the insert of the swipe, the lookup of the
    partner's like, the lookup of an existing match, the insert of the
    match.  Nothing is sent twice and nothing else is sent.  A dislike, a
    call without a partner, and a call whose insert was not served send the
    insert and nothing more. *)
Theorem recordSwipe_requests (auth : string) (o : UseSwipesOptions) (es : Envs)
    (recipeId : string) (direction : Direction) (w : World) :
  let out := recordSwipe auth o es recipeId direction w in
  exists n,
    1 <= n <= 4
    /\ requests_of (w_trace out.2)
       = rev (take n (statements_of o recipeId direction))
         ++ requests_of (w_trace w)
    /\ (direction = dislike \/ truthy (partnerId o) = false
        \/ env_outcome (env_swipe es) <> Responds -> n = 1).
Proof.
  simpl. js_unfold.
  repeat (case_split; simpl in *; simplify_eq; simpl in * );
    first [ exists 1; split_and!; [lia | lia | reflexivity | intros; lia]
          | exists 2; split_and!; [lia | lia | reflexivity | ]
          | exists 3; split_and!; [lia | lia | reflexivity | ]
          | exists 4; split_and!; [lia | lia | reflexivity | ] ];
    (intros [?|[Ht|?]]; [done | | done]);
    match goal with H : negb _ = false |- _ => by rewrite Ht in H end.
Qed.

Lemma insert_swipe_accepted_row e auth uid rid cid d db db' s :
  insert_swipe e auth uid rid cid d db = (db', inr s) ->
  s ∈ swipes db' /\ swipe_key s = (uid, rid, cid) /\ swipe_direction s = d.
Proof.
  intros H. split; [by eapply insert_swipe_accepted_in|].
  by apply insert_swipe_accepted in H as (-> & _).
Qed.

Lemma insert_match_accepted_row e auth cid rid fav db db' m :
  insert_match e auth cid rid fav db = (db', inr m) ->
  m ∈ matches db' /\ match_key m = (cid, rid) /\ swipes db' = swipes db.
Proof.
  intros H. destruct (insert_match_cases e auth cid rid fav db)
    as [(err & Heq)|(m' & Heq & Hk & _)]; rewrite Heq in H; simplify_eq.
  split_and!; try done. simpl. apply elem_of_app. right. left.
Qed.

Lemma insert_match_refused e auth cid rid fav db db' err :
  insert_match e auth cid rid fav db = (db', inl err) -> db' = db.
Proof.
  intros H. destruct (insert_match_cases e auth cid rid fav db)
    as [(err' & Heq)|(m' & Heq & _)]; rewrite Heq in H; by simplify_eq.
Qed.

Lemma select_matches_row auth cid rid db m :
  data (maybeSingle (select_matches auth cid rid db)) = Some m ->
  m ∈ matches db /\ match_key m = (cid, rid).
Proof.
  intros H. apply maybeSingle_Some in H. unfold select_matches in H.
  apply list_elem_of_filter in H as [[Hk _] Hin]. done.
Qed.

Ltac new_events :=
  first [ exists (@nil Event); split; [reflexivity|]
        | eexists [_]; split; [reflexivity|]
        | eexists [_; _]; split; [reflexivity|]
        | eexists [_; _; _]; split; [reflexivity|]
        | eexists [_; _; _; _]; split; [reflexivity|]
        | eexists [_; _; _; _; _]; split; [reflexivity|]
        | eexists [_; _; _; _; _; _]; split; [reflexivity|] ].

Lemma recordSwipe_sound (auth : string) (o : UseSwipesOptions)
    (es : Envs) (recipeId : string) (direction : Direction) (w : World) :
  let out := recordSwipe auth o es recipeId direction w in
  exists r,
    out.1 = Value r
    /\ (exists evs, w_trace out.2 = evs ++ w_trace w /\ Forall hook_event evs)
    /\ (SwipeResult.error r = None ->
        exists s, SwipeResult.swipe r = Some s /\ s ∈ swipes (w_db out.2)
                  /\ swipe_key s = (userId o, recipeId, coupleId o)
                  /\ swipe_direction s = direction)
    /\ (SwipeResult.error r <> None ->
        SwipeResult.swipe r = None /\ SwipeResult.isMatch r = false
        /\ SwipeResult.match_ r = None)
    /\ (SwipeResult.isMatch r = true <-> is_Some (SwipeResult.match_ r))
    /\ (forall m, SwipeResult.match_ r = Some m ->
          direction = like /\ m ∈ matches (w_db out.2)
          /\ match_key m = (coupleId o, recipeId)).
Proof.
  simpl. js_unfold.
  repeat (case_split; simpl in *; simplify_eq; simpl in * ).
  all: eexists; split; [reflexivity|]; simpl.
  all: split; [new_events; repeat constructor|].
  all: repeat match goal with
       | s : (Error + _)%type |- _ => destruct s; simpl in *; simplify_eq
       end.
  all: split_and!; try done; try (intros; simplify_eq; fail);
       try (split; [done | intros [? ?]; done]).
  all: repeat match goal with
       | H : insert_swipe _ _ _ _ _ _ _ = (_, inr _) |- _ =>
           apply insert_swipe_accepted_row in H as (? & ? & ?)
       | H : insert_match _ _ _ _ _ _ = (_, inr _) |- _ =>
           apply insert_match_accepted_row in H as (? & ? & ?)
       | H : data (maybeSingle (select_matches _ _ _ _)) = Some _ |- _ =>
           apply select_matches_row in H as (? & ?)
       | H : insert_match _ _ _ _ _ _ = (_, inl _) |- _ =>
           apply insert_match_refused in H as ->
       end.
  all: try (intros _; eexists; split_and!; try done; congruence).
  all: try (intros ? [= <-]; done).
  all: intros _; eexists; split_and!; try done;
    match goal with H : swipes _ = swipes _ |- _ => by rewrite H end.
Qed.

(** What a result of the hook tells its caller.  The hook always returns.
    A result without an error carries the recorded swipe: the row is in the
    ledger of the store the call leaves, under the triple and with the
    direction of the call.  A result with an error carries neither swipe
    nor match.  [isMatch] is set exactly when a match is attached, and an
    attached match is a row of the matches table for the couple and the
    recipe of the call, which was a like. *)
Theorem recordSwipe_result_sound (auth : string) (o : UseSwipesOptions)
    (es : Envs) (recipeId : string) (direction : Direction) (w : World) :
  let out := recordSwipe auth o es recipeId direction w in
  exists r,
    out.1 = Value r
    /\ (SwipeResult.error r = None ->
        exists s, SwipeResult.swipe r = Some s /\ s ∈ swipes (w_db out.2)
                  /\ swipe_key s = (userId o, recipeId, coupleId o)
                  /\ swipe_direction s = direction)
    /\ (SwipeResult.error r <> None ->
        SwipeResult.swipe r = None /\ SwipeResult.isMatch r = false
        /\ SwipeResult.match_ r = None)
    /\ (SwipeResult.isMatch r = true <-> is_Some (SwipeResult.match_ r))
    /\ (forall m, SwipeResult.match_ r = Some m ->
          direction = like /\ m ∈ matches (w_db out.2)
          /\ match_key m = (coupleId o, recipeId)).
Proof.
  destruct (recordSwipe_sound auth o es recipeId direction w)
    as (r & Hr & _ & H). by exists r.
Qed.

Lemma hook_event_not_animation evs rid :
  Forall hook_event evs -> setMatchAnimation rid ∉ evs.
Proof.
  intros H Hin. rewrite Forall_forall in H. by apply (H _ Hin).
Qed.

Lemma hook_event_not_toast evs text :
  Forall hook_event evs -> toast_error text ∉ evs.
Proof.
  intros H Hin. rewrite Forall_forall in H. by apply (H _ Hin).
Qed.

(** The match animation is never shown without a stored match.  Whatever
    the store does with the requests, when the right-swipe handler shows
    the animation it shows it for the recipe that was swiped, the store it
    leaves holds a match for the couple and that recipe, and no error toast
    was shown.  The handler never raises. *)
Theorem handleSwipeRight_animation (auth : string) (couple : option Couple)
    (recipe : option string) (es : Envs) (w : World) :
  let out := handleSwipeRight auth couple recipe es w in
  exists evs,
    out.1 = Value tt
    /\ w_trace out.2 = evs ++ w_trace w
    /\ forall rid, setMatchAnimation rid ∈ evs ->
         recipe = Some rid
         /\ (exists c, couple = Some c
                       /\ has_match (w_db out.2) (couple_id c) rid)
         /\ forall text, toast_error text ∉ evs.
Proof.
  simpl. unfold handleSwipeRight.
  destruct recipe as [rid|], couple as [c|];
    try (exists []; split_and!;
         [done | done | intros ? H; by apply elem_of_nil in H]).
  destruct (recordSwipe_sound auth (screen_options c auth) es rid like w)
    as (r & Hr & (evs & Htr & Hev) & _ & _ & _ & Hm).
  simpl in *. unfold bind.
  destruct (recordSwipe auth (screen_options c auth) es rid like w)
    as [res w'] eqn:Heq. simpl in *. subst res.
  destruct (SwipeResult.error r) as [err|]; simpl.
  - eexists (_ :: _ :: _ :: evs). split; [done|]. simpl. rewrite Htr.
    split; [done|]. intros rid' Hin.
    repeat (apply elem_of_cons in Hin as [Hin|Hin]; [done|]).
    by apply hook_event_not_animation in Hin.
  - destruct (SwipeResult.isMatch r) eqn:Him; simpl.
    + destruct (SwipeResult.match_ r) as [m|] eqn:Hmr; simpl.
      * try (rewrite bool_decide_eq_true_2 by eauto); simpl.
        exists (setMatchAnimation rid :: evs). rewrite Htr.
        split_and!; try done. intros rid' Hin.
        apply elem_of_cons in Hin as [Hin|Hin];
          [|by apply hook_event_not_animation in Hin].
        simplify_eq. destruct (Hm m eq_refl) as (_ & Hin & Hk).
        split_and!; try done.
        -- exists c. split; [done|]. unfold has_match.
           apply list_elem_of_fmap. eauto.
        -- intros text Ht. apply elem_of_cons in Ht as [Ht|Ht]; [done|].
           by apply hook_event_not_toast in Ht.
      * try (rewrite bool_decide_eq_false_2 by (by intros [? ?])); simpl.
        exists evs. split_and!; try done. intros rid' Hin.
        by apply hook_event_not_animation in Hin.
    + exists evs. split_and!; try done. intros rid' Hin.
      by apply hook_event_not_animation in Hin.
Qed.

(** A left swipe never produces a match: the handler leaves the matches
    table as it was and never shows the match animation.  It never raises,
    and its silence means success: when it shows no error toast for a
    recipe and a couple, the dislike is in the ledger of the store it
    leaves. *)
Theorem handleSwipeLeft_dislike (auth : string) (couple : option Couple)
    (recipe : option string) (es : Envs) (w : World) :
  let out := handleSwipeLeft auth couple recipe es w in
  exists evs,
    out.1 = Value tt
    /\ w_trace out.2 = evs ++ w_trace w
    /\ matches (w_db out.2) = matches (w_db w)
    /\ (forall rid, setMatchAnimation rid ∉ evs)
    /\ forall rid c,
         recipe = Some rid -> couple = Some c ->
         (forall text, toast_error text ∉ evs) ->
         exists s, s ∈ swipes (w_db out.2)
                   /\ swipe_key s = (auth, rid, couple_id c)
                   /\ swipe_direction s = dislike.
Proof.
  simpl. unfold handleSwipeLeft.
  destruct recipe as [rid|], couple as [c|];
    try (exists []; split_and!;
         [done | done | done | intros ? H; by apply elem_of_nil in H | done]).
  pose proof (recordSwipe_dislike auth (screen_options c auth) es rid w) as Hd.
  destruct (recordSwipe_sound auth (screen_options c auth) es rid dislike w)
    as (r & Hr & (evs & Htr & Hev) & Hok & _).
  simpl in *. unfold bind.
  destruct (recordSwipe auth (screen_options c auth) es rid dislike w)
    as [res w'] eqn:Heq. simpl in *. subst res.
  destruct (SwipeResult.error r) as [err|]; simpl.
  - eexists (_ :: _ :: _ :: evs). split; [done|]. simpl. rewrite Htr.
    split_and!; try done.
    + intros rid' Hin.
      repeat (apply elem_of_cons in Hin as [Hin|Hin]; [done|]).
      by apply hook_event_not_animation in Hin.
    + intros rid' c' _ _ Hno. destruct (Hno _ (list_elem_of_here _ _)).
  - exists evs. split_and!; try done.
    + intros rid' Hin. by apply hook_event_not_animation in Hin.
    + intros rid' c' [= <-] [= <-] _.
      destruct (Hok eq_refl) as (s & _ & Hin & Hk & Hdir). eauto.
Qed.

(** The couple the swipe screen loads is one the user belongs to.  When
    [getCurrentUserCouple] returns a couple for the signed-in user, that
    couple is in the store, the user occupies one of its slots and no other
    couple of the store has the user in a slot; with the options the screen
    derives from it, the insert of the hook passes the policy of the ledger
    and the user may read and write the matches of the couple. *)
Theorem getCurrentUserCouple_member (e : Env) (uid : string) (db : DB)
    (c : Couple) :
  getCurrentUserCouple e (Some uid) db = Value (Some c) ->
  c ∈ couples db
  /\ is_member c uid = true
  /\ (forall c', c' ∈ couples db -> is_member c' uid = true -> c' = c)
  /\ swipes_insert_policy db uid (userId (screen_options c uid))
       (coupleId (screen_options c uid)) = true
  /\ in_couple_policy db uid (coupleId (screen_options c uid)) = true.
Proof.
  unfold getCurrentUserCouple. destruct (env_outcome e); [|done..].
  intros [= H].
  destruct (filter _ (couples db)) as [|x [|y l]] eqn:Hf; simpl in H;
    [done| |done].
  simplify_eq.
  assert (Hc : c ∈ filter (fun c => is_member c uid = true) (couples db))
    by (rewrite Hf; left).
  apply list_elem_of_filter in Hc as [Hm Hin].
  assert (Hpol : in_couple_policy db uid (couple_id c) = true)
    by (by apply member_policy).
  split_and!; try done.
  - intros c' Hin' Hm'.
    assert (Hc' : c' ∈ filter (fun c => is_member c uid = true) (couples db))
      by (by apply list_elem_of_filter).
    rewrite Hf in Hc'. by apply list_elem_of_singleton in Hc'.
  - unfold swipes_insert_policy. simpl.
    rewrite bool_decide_eq_true_2 by done. exact Hpol.
Qed.

Lemma getCurrentUserCouple_member_witness :
  couple_G ∈ couples store0
  /\ swipes_insert_policy store0 "bob" (userId (screen_options couple_G "bob"))
       (coupleId (screen_options couple_G "bob")) = true.
Proof.
  destruct (getCurrentUserCouple_member (responds "1" 1) "bob" store0 couple_G)
    as (Hin & _ & _ & Hpol & _).
  - reflexivity.
  - split; [exact Hin | exact Hpol].
Defined.

(** ** The list of matches *)

Lemma sort_insert_perm {A} (cmp : A -> A -> Z) x l :
  sort_insert cmp x l ≡ₚ x :: l.
Proof.
  induction l as [|y l IH]; simpl; [done|].
  destruct (0 <? cmp x y)%Z; [|done].
  rewrite IH. apply Permutation_swap.
Qed.

Lemma Array_sort_perm {A} (cmp : A -> A -> Z) l : Array_sort cmp l ≡ₚ l.
Proof.
  induction l as [|x l IH]; simpl; [done|].
  unfold Array_sort in *. simpl. by rewrite sort_insert_perm, IH.
Qed.

Lemma ordered_cons {A} (R : A -> A -> Prop) x l :
  ordered R (x :: l) <-> Forall (R x) l /\ ordered R l.
Proof.
  split.
  - intros H. split.
    + apply Forall_lookup. intros i y Hy. apply (H 0 (S i) x y); [lia|done|done].
    + intros i j a b Hij Ha Hb. apply (H (S i) (S j) a b); [lia|done|done].
  - intros [Hx Hl] i j a b Hij Ha Hb. destruct j as [|j]; [lia|].
    simpl in Hb. destruct i as [|i]; simpl in Ha.
    + simplify_eq. rewrite Forall_lookup in Hx. by apply (Hx j).
    + apply (Hl i j); [lia|done|done].
Qed.

Lemma sort_insert_ordered {A} (cmp : A -> A -> Z) (R : A -> A -> Prop) x l :
  (forall a b, (cmp a b <= 0)%Z -> R a b) ->
  (forall a b, (0 < cmp a b)%Z -> R b a) ->
  (forall a b c, R a b -> R b c -> R a c) ->
  ordered R l -> ordered R (sort_insert cmp x l).
Proof.
  intros Hle Hgt Htrans. induction l as [|y l IH]; simpl; intros Hl.
  - apply ordered_cons. split; [done|]. by intros ? ? ? ? ? ?.
  - apply ordered_cons in Hl as [Hy Hl].
    destruct (0 <? cmp x y)%Z eqn:Hc.
    + apply Z.ltb_lt in Hc. apply ordered_cons. split; [|by apply IH].
      eapply Permutation_Forall; [symmetry; apply sort_insert_perm|].
      constructor; [by apply Hgt | done].
    + apply Z.ltb_ge in Hc. apply ordered_cons. split.
      * constructor; [by apply Hle|].
        eapply Forall_impl; [exact Hy|]. intros z Hz. simpl.
        eapply Htrans; [|exact Hz]. by apply Hle.
      * by apply ordered_cons.
Qed.

Lemma Array_sort_ordered {A} (cmp : A -> A -> Z) (R : A -> A -> Prop) l :
  (forall a b, (cmp a b <= 0)%Z -> R a b) ->
  (forall a b, (0 < cmp a b)%Z -> R b a) ->
  (forall a b c, R a b -> R b c -> R a c) ->
  ordered R (Array_sort cmp l).
Proof.
  intros Hle Hgt Htrans. induction l as [|x l IH]; simpl.
  - by intros ? ? ? ? ? ?.
  - by apply sort_insert_ordered.
Qed.

Section useMatches_properties.
Context (toLowerCase trim : string -> string).
Context (includes : string -> string -> bool).
Context (localeCompare : string -> string -> Z).

Local Abbreviation filtered_and_sorted :=
  (applyFiltersAndSort toLowerCase trim includes localeCompare).

Lemma applyFiltersAndSort_perm ms f s :
  exists kept,
    filtered_and_sorted ms f s ≡ₚ kept /\ kept `sublist_of` ms
    /\ (forall m, m ∈ kept <->
          m ∈ ms
          /\ (forall q, query f = Some q -> q <> "" -> trim q <> "" ->
                includes (toLowerCase (recipe_title (listed m)))
                  (trim (toLowerCase q)) = true)
          /\ (forall cs, cuisineTypes f = Some cs -> cs <> [] ->
                exists c, c ∈ cs /\ has_cuisine toLowerCase m c = true)
          /\ (favoritesOnly f = Some true ->
                is_favorite (row (listed m)) = true)).
Proof.
  unfold applyFiltersAndSort.
  set (l1 := match query f with Some q => _ | None => ms end).
  set (l2 := match cuisineTypes f with Some cs => _ | None => l1 end).
  set (l3 := match favoritesOnly f with Some true => _ | _ => l2 end).
  exists l3. split; [destruct s; apply Array_sort_perm|].
  assert (H1 : l1 `sublist_of` ms /\ forall m, m ∈ l1 <-> m ∈ ms /\
            (forall q, query f = Some q -> q <> "" -> trim q <> "" ->
                includes (toLowerCase (recipe_title (listed m)))
                  (trim (toLowerCase q)) = true)).
  { unfold l1. destruct (query f) as [q|].
    2: { split; [done|]. intros m. split; [|by intros []]. done. }
    unfold truthy.
    destruct (decide (q = "")) as [->|Hq]; simpl.
    { split; [done|]. intros m. split; [|by intros []].
      intros Hm. split; [done|]. by intros ? [= <-]. }
    rewrite (bool_decide_eq_false_2 _ Hq). simpl.
    destruct (decide (trim q = "")) as [Ht|Ht].
    - rewrite (bool_decide_eq_true_2 _ Ht). simpl. split; [done|].
      intros m. split; [|by intros []].
      intros Hm. split; [done|]. by intros ? [= <-].
    - rewrite (bool_decide_eq_false_2 _ Ht). simpl.
      split; [apply sublist_filter|]. intros m.
      rewrite list_elem_of_filter. split.
      + intros [Hi Hm]. split; [done|]. by intros ? [= <-].
      + intros [Hm Hi]. split; [|done]. by apply Hi. }
  destruct H1 as [S1 M1].
  assert (H2 : l2 `sublist_of` l1 /\ forall m, m ∈ l2 <-> m ∈ l1 /\
            (forall cs, cuisineTypes f = Some cs -> cs <> [] ->
                exists c, c ∈ cs /\ has_cuisine toLowerCase m c = true)).
  { unfold l2. destruct (cuisineTypes f) as [cs|].
    2: { split; [done|]. intros m. split; [|by intros []]. done. }
    destruct cs as [|c cs]; simpl.
    { split; [done|]. intros m. split; [|by intros []].
      intros Hm. split; [done|]. by intros ? [= <-]. }
    split; [apply sublist_filter|]. intros m.
    rewrite list_elem_of_filter. split.
    - intros [He Hm]. split; [done|]. intros cs' [= <-] _.
      apply orb_true_iff in He as [He|He].
      + exists c. split; [left|done].
      + apply existsb_exists in He as (c' & Hin & Hc).
        exists c'. split; [right; by apply list_elem_of_In|done].
    - intros [Hm Hc]. split; [|done].
      destruct (Hc _ eq_refl) as (c' & Hin & Hc'); [done|].
      apply elem_of_cons in Hin as [->|Hin]; [by rewrite Hc'|].
      apply orb_true_iff. right. apply existsb_exists. exists c'.
      by rewrite <- list_elem_of_In. }
  destruct H2 as [S2 M2].
  assert (H3 : l3 `sublist_of` l2 /\ forall m, m ∈ l3 <-> m ∈ l2 /\
            (favoritesOnly f = Some true ->
                is_favorite (row (listed m)) = true)).
  { unfold l3. destruct (favoritesOnly f) as [[|]|].
    - split; [apply sublist_filter|]. intros m.
      rewrite list_elem_of_filter. split; intros []; auto.
    - split; [done|]. intros m. split; [|by intros []]. done.
    - split; [done|]. intros m. split; [|by intros []]. done. }
  destruct H3 as [S3 M3].
  split; [by do 2 (etrans; [|eassumption])|].
  intros m. rewrite M3, M2, M1. tauto.
Qed.

(** Filtering only selects.  Whatever the filters and the sort option, the
    list [applyFiltersAndSort] returns holds no entry more often than the
    list it was given, and an entry is in it exactly when it is in the
    given list and passes every filter that is set: its lower-cased title
    contains the trimmed, lower-cased query when the query is not blank,
    its cuisine or its area equals one of the wanted cuisines up to case
    when the list of cuisines is not empty, and it is a favourite when only
    favourites are wanted. *)
Theorem applyFiltersAndSort_selects (ms : list ListedMatch) (f : MatchFilters)
    (s : SortOption) :
  filtered_and_sorted ms f s ⊆+ ms
  /\ forall m, m ∈ filtered_and_sorted ms f s <->
       m ∈ ms
       /\ (forall q, query f = Some q -> q <> "" -> trim q <> "" ->
             includes (toLowerCase (recipe_title (listed m)))
               (trim (toLowerCase q)) = true)
       /\ (forall cs, cuisineTypes f = Some cs -> cs <> [] ->
             exists c, c ∈ cs /\ has_cuisine toLowerCase m c = true)
       /\ (favoritesOnly f = Some true ->
             is_favorite (row (listed m)) = true).
Proof.
  destruct (applyFiltersAndSort_perm ms f s) as (kept & Hp & Hs & Hm).
  split.
  - rewrite Hp. by apply sublist_submseteq.
  - intros m. rewrite <- Hm. by rewrite Hp.
Qed.

(** Blank filters keep everything.  With a query that is absent, empty or
    blank after trimming, no wanted cuisine and no favourites-only flag,
    the returned list is a rearrangement of the given one: nothing is
    dropped and nothing is repeated, whichever sort option is chosen. *)
Theorem applyFiltersAndSort_blank (ms : list ListedMatch) (f : MatchFilters)
    (s : SortOption) :
  (forall q, query f = Some q -> q = "" \/ trim q = "") ->
  (forall cs, cuisineTypes f = Some cs -> cs = []) ->
  favoritesOnly f <> Some true ->
  filtered_and_sorted ms f s ≡ₚ ms.
Proof.
  intros Hq Hc Hf. unfold applyFiltersAndSort.
  assert (H1 : match query f with
               | Some q =>
                   if truthy (Some q) && truthy (Some (trim q))
                   then filter (fun m => includes
                                  (toLowerCase (recipe_title (listed m)))
                                  (trim (toLowerCase q)) = true) ms
                   else ms
               | None => ms
               end = ms).
  { destruct (query f) as [q|]; [|done]. unfold truthy.
    destruct (Hq q eq_refl) as [-> | ->]; simpl; [done|].
    by rewrite andb_false_r. }
  rewrite H1.
  assert (H2 : match cuisineTypes f with
               | Some cs =>
                   if Nat.ltb 0 (length cs)
                   then filter (fun m => existsb (has_cuisine toLowerCase m) cs
                                         = true) ms
                   else ms
               | None => ms
               end = ms).
  { destruct (cuisineTypes f) as [cs|]; [|done]. by rewrite (Hc cs eq_refl). }
  rewrite H2.
  assert (H3 : match favoritesOnly f with
               | Some true =>
                   filter (fun m => is_favorite (row (listed m)) = true) ms
               | _ => ms
               end = ms).
  { by destruct (favoritesOnly f) as [[|]|]. }
  rewrite H3. destruct s; apply Array_sort_perm.
Qed.

(** The order of the list.  Sorted by "recent", every entry is followed
    only by entries matched at the same time or earlier.  Sorted by
    "favorites", no entry that is not a favourite comes before a favourite,
    and among entries with the same flag the more recent comes first. *)
Theorem applyFiltersAndSort_order (ms : list ListedMatch) (f : MatchFilters) :
  ordered recent_first (filtered_and_sorted ms f recent)
  /\ ordered favorites_first (filtered_and_sorted ms f favorites).
Proof.
  unfold applyFiltersAndSort, recent_first. split.
  - apply Array_sort_ordered; unfold by_recent; intros; lia.
  - apply Array_sort_ordered.
    + intros a b. unfold by_favorite, favorites_first, recent_first, by_recent.
      destruct (is_favorite (row (listed a))), (is_favorite (row (listed b)));
        simpl; intros; split; intros; try done; lia.
    + intros a b. unfold by_favorite, favorites_first, recent_first, by_recent.
      destruct (is_favorite (row (listed a))), (is_favorite (row (listed b)));
        simpl; intros; split; intros; try done; lia.
    + intros a b c. unfold favorites_first, recent_first.
      destruct (is_favorite (row (listed a))), (is_favorite (row (listed b))),
        (is_favorite (row (listed c))); simpl; intros [H1 H2] [H3 H4];
        split; intros; try done; try (by apply H1); try (by apply H3);
        try (specialize (H2 eq_refl); specialize (H4 eq_refl); lia);
        try (by discriminate (H1 eq_refl)); try (by discriminate (H3 eq_refl)).
Qed.

(** A text search keeps the filters that are set.  When only favourites
    are wanted, [searchMatches] with a new query and no further filters
    replaces the query, keeps the wanted cuisines, leaves the list of all
    matches alone, and shows only favourites, each at most as often as the
    list of all matches holds it; the list it shows is the one the effect
    of the hook computes from the new state. *)
Theorem searchMatches_keeps_filters (q : string) (h : UseMatchesList) :
  favoritesOnly (currentFilters h) = Some true ->
  let h' := searchMatches toLowerCase trim includes localeCompare q None h in
  Forall (fun m => is_favorite (row (listed m)) = true) (filteredMatches h')
  /\ filteredMatches h' ⊆+ list_matches h
  /\ list_matches h' = list_matches h
  /\ query (currentFilters h') = Some q
  /\ cuisineTypes (currentFilters h') = cuisineTypes (currentFilters h)
  /\ filteredMatches h'
     = filtered_and_sorted (list_matches h') (currentFilters h') (sortBy h').
Proof.
  intros Hf. simpl.
  destruct (applyFiltersAndSort_perm (list_matches h)
              (search_filters (currentFilters h) q None) (sortBy h))
    as (kept & Hp & Hs & Hm).
  split_and!; try done.
  - apply Forall_forall. intros m Hin. rewrite Hp in Hin.
    apply Hm in Hin as (_ & _ & _ & Hfav). by apply Hfav.
  - rewrite Hp. by apply sublist_submseteq.
Qed.
End useMatches_properties.

Lemma applyFiltersAndSort_blank_witness :
  applyFiltersAndSort id id (fun _ _ => true) (fun _ _ => 0%Z)
    [listed_R1; listed_R2]
    {| query := Some ""; cuisineTypes := Some []; favoritesOnly := Some false |}
    recent
  ≡ₚ [listed_R1; listed_R2].
Proof.
  apply applyFiltersAndSort_blank.
  - intros q [= <-]. left. reflexivity.
  - intros cs [= <-]. reflexivity.
  - simpl. discriminate.
Defined.

Lemma searchMatches_keeps_filters_witness :
  Forall (fun m => is_favorite (row (listed m)) = true)
    (filteredMatches
       (searchMatches id id (fun _ _ => true) (fun _ _ => 0%Z) "pasta" None
          favourites_view)).
Proof.
  apply (searchMatches_keeps_filters id id (fun _ _ => true) (fun _ _ => 0%Z)
           "pasta" favourites_view).
  reflexivity.
Defined.

(** ** Push tokens *)

Lemma filter_fmap_key {A K} `{EqDecision K} (key : A -> K) (f : A -> A) (k : K)
    (l : list A) :
  (forall x, key (f x) = key x) ->
  filter (fun x => key x = k) (map f l) = map f (filter (fun x => key x = k) l).
Proof.
  intros Hk. induction l as [|a l IH]; simpl; [done|].
  rewrite !filter_cons, Hk. destruct (decide (key a = k)); simpl; by rewrite IH.
Qed.

(** Store, then look up.  When a user with a profile stores a non-empty
    push token for themself and the update is served, [storePushToken]
    returns [true], the token is the endpoint registered for that user, and
    a dispatch that the user addresses to themself posts exactly one
    message, to that token.  The endpoints of all other users, the ids of
    the profiles and the other tables are as before. *)
Theorem storePushToken_registers (e e' : Env) (g : Gateway)
    (auth token recipeName : string) (db : DB) (tr : list Event) :
  env_outcome e = Responds -> env_outcome e' = Responds ->
  NoDup (map profile_id (profiles db)) ->
  auth ∈ map profile_id (profiles db) ->
  token <> "" ->
  let out := storePushToken e auth auth token db in
  out.1 = true
  /\ registered_endpoint out.2 auth = Some token
  /\ (forall uid, uid <> auth ->
        registered_endpoint out.2 uid = registered_endpoint db uid)
  /\ couples out.2 = couples db /\ swipes out.2 = swipes db
  /\ matches out.2 = matches db
  /\ map profile_id (profiles out.2) = map profile_id (profiles db)
  /\ gateway_posts
       (w_trace (sendMatchNotification e' g auth auth recipeName
                   {| w_db := out.2; w_trace := tr |}).2)
     = match_message token recipeName :: gateway_posts tr.
Proof.
  intros He He' Hnd Hin Htok. unfold storePushToken. rewrite He. simpl.
  set (f := fun p => if bool_decide (profile_id p = auth)
                        && bool_decide (auth = profile_id p)
                     then {| profile_id := profile_id p; push_token := Some token |}
                     else p).
  assert (Hf : forall p, profile_id (f p) = profile_id p).
  { intros p. unfold f. by destruct (_ && _). }
  apply list_elem_of_fmap in Hin as (p & Hp & Hin).
  assert (Hsel : filter (fun p => profile_id p = auth) (profiles db) = [p]).
  { apply (filter_unique profile_id); try done. congruence. }
  assert (Hreg : registered_endpoint (update_push_token auth auth token db) auth
                 = Some token).
  { unfold registered_endpoint, update_push_token. simpl. fold f.
    rewrite (filter_fmap_key profile_id f) by done. rewrite Hsel. simpl.
    unfold f. rewrite <- Hp. rewrite !bool_decide_eq_true_2 by done. simpl.
    by rewrite bool_decide_eq_false_2. }
  split_and!; try done.
  - intros uid Hne. unfold registered_endpoint, update_push_token. simpl. fold f.
    rewrite (filter_fmap_key profile_id f) by done.
    rewrite map_id_on; [done|]. intros x Hx.
    apply list_elem_of_filter in Hx as [Hx _]. unfold f.
    rewrite bool_decide_eq_false_2 by congruence. done.
  - unfold update_push_token. simpl. fold f. rewrite map_map.
    by apply map_ext.
  - pose proof (sendMatchNotification_cases e' g auth auth recipeName
                  {| w_db := update_push_token auth auth token db;
                     w_trace := tr |}) as H.
    simpl in H.
    assert (Hl : endpoint_lookup e' auth auth (update_push_token auth auth token db)
                 = Some token).
    { unfold endpoint_lookup. rewrite He'. unfold select_push_tokens.
      assert (Hsame : forall ps : list Profile,
                 filter (fun p => profile_id p = auth /\ auth = profile_id p) ps
                 = filter (fun p => profile_id p = auth) ps).
      { intros ps. apply list_filter_iff. intros x. split; [by intros []|done]. }
      rewrite Hsame. unfold update_push_token. simpl. fold f.
      rewrite (filter_fmap_key profile_id f) by done. rewrite Hsel. simpl.
      unfold f. rewrite <- Hp. rewrite !bool_decide_eq_true_2 by done. simpl.
      unfold usable_token. simpl. by rewrite bool_decide_eq_false_2. }
    rewrite Hl in H. destruct g; rewrite H; done.
Qed.

Lemma storePushToken_registers_witness :
  registered_endpoint
    (storePushToken (responds "1" 1) "bob" "bob" "ExponentPushToken[bob]"
       store0).2 "bob"
  = Some "ExponentPushToken[bob]".
Proof.
  apply (storePushToken_registers (responds "1" 1) (responds "2" 2) gateway_ok
           "bob" "ExponentPushToken[bob]" "Pasta" store0 []).
  - reflexivity.
  - reflexivity.
  - apply (bool_decide_unpack _). vm_compute. exact I.
  - apply (bool_decide_unpack _). vm_compute. exact I.
  - done.
Defined.

(** Nobody can store a token for somebody else, and nobody is told.  When
    [storePushToken] is called for another user than the one signed in,
    the update policy on profiles hides the row: the store stays exactly as
    it was, and yet the call returns [true] whenever the request is
    served. *)
Theorem storePushToken_other_user (e : Env) (auth userId token : string)
    (db : DB) :
  auth <> userId ->
  let out := storePushToken e auth userId token db in
  out.2 = db /\ (env_outcome e = Responds -> out.1 = true).
Proof.
  intros Hne. unfold storePushToken. simpl.
  destruct (env_outcome e); simpl; split; try done.
  unfold update_push_token. rewrite map_id_on; [by destruct db|].
  intros p _. destruct (decide (profile_id p = userId)) as [Hp|Hp].
  - rewrite (bool_decide_eq_false_2 (auth = profile_id p)) by congruence.
    by rewrite andb_false_r.
  - by rewrite (bool_decide_eq_false_2 _ Hp).
Qed.

Lemma storePushToken_other_user_witness :
  (storePushToken (responds "1" 1) "bob" "alice" "ExponentPushToken[bob]"
     store0).2 = store0.
Proof.
  apply (storePushToken_other_user (responds "1" 1) "bob" "alice"
           "ExponentPushToken[bob]" store0).
  done.
Defined.

(** The dispatcher cannot reach another user.  Called in the session of
    one user for a different recipient, [sendMatchNotification] returns
    [false], posts nothing to the gateway and leaves the store as it was,
    whatever token the recipient has registered and whatever the store and
    the gateway do: the select policy on profiles shows a user no profile
    but their own. *)
Theorem sendMatchNotification_partner_unreachable (e : Env) (g : Gateway)
    (auth recipientUserId recipeName : string) (w : World) :
  auth <> recipientUserId ->
  let out := sendMatchNotification e g auth recipientUserId recipeName w in
  out.1 = Value false
  /\ gateway_posts (w_trace out.2) = gateway_posts (w_trace w)
  /\ w_db out.2 = w_db w.
Proof.
  intros Hne. simpl.
  pose proof (sendMatchNotification_cases e g auth recipientUserId recipeName w)
    as H. simpl in H.
  rewrite (endpoint_lookup_other_user e auth recipientUserId (w_db w) Hne) in H.
  destruct H as (log & -> & [-> | ->]); done.
Qed.

Lemma sendMatchNotification_partner_unreachable_witness :
  (sendMatchNotification (responds "9" 9) gateway_ok "bob" "alice" "Pasta"
     world0).1 = Value false.
Proof.
  apply (sendMatchNotification_partner_unreachable (responds "9" 9) gateway_ok
           "bob" "alice" "Pasta" world0).
  done.
Defined.

(** ** The error log *)

Lemma append_getAll {A} (entry : A) (st : ErrorStorage.Stored A) :
  ErrorStorage.getAll (ErrorStorage.append true entry st)
  = drop (length (ErrorStorage.getAll st ++ [entry])
          - Nat.max ErrorStorage.MAX_ERRORS (length (ErrorStorage.getAll st)))
      (ErrorStorage.getAll st ++ [entry]).
Proof.
  unfold ErrorStorage.append, ErrorStorage.saveAll. simpl.
  rewrite length_app. simpl.
  set (l := ErrorStorage.getAll st).
  destruct (Nat.ltb ErrorStorage.MAX_ERRORS (length l + 1)) eqn:Hlt.
  - apply Nat.ltb_lt in Hlt.
    replace (length l + 1 - Nat.max ErrorStorage.MAX_ERRORS (length l))
      with 1 by lia.
    by destruct (l ++ [entry]).
  - apply Nat.ltb_ge in Hlt.
    replace (length l + 1 - Nat.max ErrorStorage.MAX_ERRORS (length l))
      with 0 by lia.
    done.
Qed.

Lemma append_all_cons {A} (c : bool * A) calls (st : ErrorStorage.Stored A) :
  ErrorStorage.append_all (c :: calls) st
  = ErrorStorage.append_all calls (ErrorStorage.append c.1 c.2 st).
Proof. done. Qed.

Lemma append_bounded {A} (ok : bool) (entry : A) (st : ErrorStorage.Stored A) :
  length (ErrorStorage.getAll st) <= ErrorStorage.MAX_ERRORS ->
  length (ErrorStorage.getAll (ErrorStorage.append ok entry st))
  <= ErrorStorage.MAX_ERRORS.
Proof.
  intros Hlen. destruct ok; [|done].
  rewrite append_getAll, length_drop, length_app. simpl. lia.
Qed.

(** The log is a sliding window.  Starting from a log of at most
    [MAX_ERRORS] entries (or from nothing, or from unreadable content),
    after any number of appends whose writes succeed the log holds the
    last [MAX_ERRORS] of all entries, old and new, in the order they
    arrived. *)
Theorem ErrorStorage_window {A} (entries : list A)
    (st : ErrorStorage.Stored A) :
  length (ErrorStorage.getAll st) <= ErrorStorage.MAX_ERRORS ->
  let all := ErrorStorage.getAll st ++ entries in
  ErrorStorage.getAll (ErrorStorage.append_all (map (pair true) entries) st)
  = drop (length all - ErrorStorage.MAX_ERRORS) all.
Proof.
  cbv zeta. revert st. induction entries as [|e entries IH]; intros st Hlen.
  - cbn [map]. unfold ErrorStorage.append_all. cbn [fold_left].
    rewrite app_nil_r. replace (_ - _) with 0 by lia. done.
  - cbn [map]. rewrite append_all_cons. cbn [fst snd].
    pose proof (append_bounded true e st Hlen) as Hst.
    rewrite (IH _ Hst). rewrite append_getAll.
    set (l := ErrorStorage.getAll st) in *.
    rewrite !length_app, length_drop, !length_app. cbn [length].
    rewrite Nat.max_l by done.
    destruct (decide (length l + 1 <= ErrorStorage.MAX_ERRORS)) as [Hs|Hs].
    + replace (length l + 1 - ErrorStorage.MAX_ERRORS) with 0 by lia.
      rewrite drop_0, <- app_assoc. cbn [app]. f_equal. lia.
    + assert (Hl : length l = ErrorStorage.MAX_ERRORS) by lia.
      replace (length l + 1 - ErrorStorage.MAX_ERRORS) with 1 by lia.
      rewrite <- (drop_app_le _ entries) by (rewrite length_app; simpl; lia).
      rewrite <- app_assoc. cbn [app]. rewrite drop_drop. f_equal. lia.
Qed.

Lemma ErrorStorage_window_witness :
  ErrorStorage.getAll
    (ErrorStorage.append_all (map (pair true) ["e1"; "e2"])
       ErrorStorage.garbled)
  = ["e1"; "e2"].
Proof.
  apply (ErrorStorage_window ["e1"; "e2"] ErrorStorage.garbled). simpl.
  unfold ErrorStorage.MAX_ERRORS. lia.
Defined.

(** The log never outgrows its bound, whatever the writes do.  From a log
    of at most [MAX_ERRORS] entries, every sequence of appends, with any
    of the writes failing, leaves at most [MAX_ERRORS] entries.  An append
    whose write succeeds leaves its entry as the last of the log, and an
    append whose write fails leaves the storage as it was. *)
Theorem ErrorStorage_bounded {A} (calls : list (bool * A))
    (st : ErrorStorage.Stored A) :
  length (ErrorStorage.getAll st) <= ErrorStorage.MAX_ERRORS ->
  length (ErrorStorage.getAll (ErrorStorage.append_all calls st))
  <= ErrorStorage.MAX_ERRORS
  /\ (forall entry,
        last (ErrorStorage.getAll
                (ErrorStorage.append_all (calls ++ [(true, entry)]) st))
        = Some entry)
  /\ (forall entry,
        ErrorStorage.append_all (calls ++ [(false, entry)]) st
        = ErrorStorage.append_all calls st).
Proof.
  intros Hlen.
  assert (Hb : forall cs (s : ErrorStorage.Stored A),
             length (ErrorStorage.getAll s) <= ErrorStorage.MAX_ERRORS ->
             length (ErrorStorage.getAll (ErrorStorage.append_all cs s))
             <= ErrorStorage.MAX_ERRORS).
  { induction cs as [|c cs IH]; intros s Hs; [done|].
    rewrite append_all_cons. apply IH. by apply append_bounded. }
  split; [by apply Hb|]. split.
  - intros entry. unfold ErrorStorage.append_all. rewrite fold_left_app.
    cbn [fold_left fst snd]. fold (ErrorStorage.append_all calls st).
    specialize (Hb calls st Hlen). rewrite append_getAll.
    set (l := ErrorStorage.getAll (ErrorStorage.append_all calls st)) in *.
    rewrite length_app. simpl. rewrite Nat.max_l by done.
    destruct (decide (length l + 1 <= ErrorStorage.MAX_ERRORS)).
    + replace (length l + 1 - ErrorStorage.MAX_ERRORS) with 0 by lia.
      rewrite drop_0. apply last_snoc.
    + replace (length l + 1 - ErrorStorage.MAX_ERRORS) with 1 by lia.
      destruct l as [|x l'];
        [simpl in *; unfold ErrorStorage.MAX_ERRORS in *; lia|].
      simpl. rewrite drop_0. apply last_snoc.
  - intros entry. unfold ErrorStorage.append_all. by rewrite fold_left_app.
Qed.

Lemma ErrorStorage_bounded_witness :
  length (ErrorStorage.getAll
            (ErrorStorage.append_all [(true, "e1"); (false, "e2")]
               (ErrorStorage.saved ["e0"])))
  <= ErrorStorage.MAX_ERRORS.
Proof.
  apply (ErrorStorage_bounded [(true, "e1"); (false, "e2")]
           (ErrorStorage.saved ["e0"])).
  simpl. unfold ErrorStorage.MAX_ERRORS. lia.
Defined.

(** ** Registering for push notifications *)


(** ** The shopping list *)

Lemma map_get_add k name meas rid m :
  map_get k (map_add name meas rid m)
  = if bool_decide (k = name)
    then Some (match map_get name m with
               | Some e =>
                   {| measures := measures e ++ [meas];
                      recipeIds := if bool_decide (rid ∈ recipeIds e)
                                   then recipeIds e else recipeIds e ++ [rid] |}
               | None => {| measures := [meas]; recipeIds := [rid] |}
               end)
    else map_get k m.
Proof.
  unfold map_get. induction m as [|[k' e] m IH]; simpl.
  - repeat case_bool_decide; simplify_eq; done.
  - destruct (decide (k' = name)) as [->|Hk'].
    + rewrite (bool_decide_eq_true_2 (name = name)) by done. simpl.
      repeat case_bool_decide; simplify_eq; done.
    + rewrite (bool_decide_eq_false_2 (k' = name)) by done. simpl.
      destruct (decide (k' = k)) as [->|Hne].
      * rewrite (bool_decide_eq_true_2 (k = k)) by done.
        by rewrite (bool_decide_eq_false_2 (k = name)) by done.
      * rewrite (bool_decide_eq_false_2 (k' = k)) by done. apply IH.
Qed.

Lemma map_add_keys name meas rid m :
  map fst (map_add name meas rid m)
  = if bool_decide (name ∈ map fst m) then map fst m else map fst m ++ [name].
Proof.
  induction m as [|[k e] m IH]; simpl.
  - first [ done
          | rewrite bool_decide_eq_false_2; [done|]; apply not_elem_of_nil ].
  - destruct (decide (k = name)) as [->|Hk].
    + rewrite (bool_decide_eq_true_2 (name = name)) by done. simpl.
      rewrite bool_decide_eq_true_2; [done|]. left.
    + rewrite (bool_decide_eq_false_2 (k = name)) by done. simpl. rewrite IH.
      destruct (decide (name ∈ map fst m)) as [Hin|Hin].
      * rewrite !bool_decide_eq_true_2; [done| by right | done].
      * rewrite !bool_decide_eq_false_2; [done| |done].
        intros [?|?]%elem_of_cons; congruence.
Qed.

Lemma map_add_keys_NoDup name meas rid m :
  NoDup (map fst m) -> NoDup (map fst (map_add name meas rid m)).
Proof.
  intros Hnd. rewrite map_add_keys. case_bool_decide as Hin; [done|].
  apply NoDup_app. split; [done|]. split; [|apply NoDup_singleton].
  intros x Hx Hx'. apply list_elem_of_singleton in Hx'. by subst.
Qed.

(** The occurrences in a list of (name, measure, recipe) triples. *)
Lemma collect_triples (entries : list (string * string * string)) (name : string) :
  let m := fold_left (fun m t => map_add t.1.1 t.1.2 t.2 m) entries [] in
  let occ := map (fun t => (t.1.2, t.2))
               (filter (fun t => t.1.1 = name) entries) in
  NoDup (map fst m)
  /\ match map_get name m with
     | None => occ = []
     | Some e =>
         occ <> [] /\ measures e = map fst occ /\ NoDup (recipeIds e)
         /\ forall rid, rid ∈ recipeIds e <-> rid ∈ map snd occ
     end.
Proof.
  cbv zeta. induction entries as [|t entries IH] using rev_ind.
  - simpl. split; [apply NoDup_nil_2 | done].
  - destruct IH as [Hnd IH]. rewrite fold_left_app. cbn [fold_left].
    set (m := fold_left _ entries []) in *.
    split; [by apply map_add_keys_NoDup|].
    rewrite map_get_add, filter_app, map_app.
    destruct t as [[n me] rid]. cbn [fst snd].
    destruct (decide (name = n)) as [->|Hne].
    + rewrite bool_decide_eq_true_2 by done.
      rewrite filter_cons_True by done. rewrite filter_nil. cbn [map].
      destruct (map_get n m) as [e|].
      * destruct IH as (Hocc & Hme & Hnd' & Hrid). cbn [measures recipeIds].
        split; [by destruct (map _ (filter _ entries))|].
        split; [by rewrite map_app, Hme|]. split.
        -- case_bool_decide as Hin; [done|]. apply NoDup_app.
           split; [done|]. split; [|apply NoDup_singleton].
           intros x Hx Hx'. apply list_elem_of_singleton in Hx'. by subst.
        -- intros r. rewrite map_app, elem_of_app, <- Hrid. cbn [map snd].
           rewrite list_elem_of_singleton.
           case_bool_decide as Hin.
           ++ split; [by left|]. intros [?| ->]; done.
           ++ by rewrite elem_of_app, list_elem_of_singleton.
      * rewrite IH. cbn. split; [done|]. split; [done|].
        split; [apply NoDup_singleton|]. done.
    + rewrite bool_decide_eq_false_2 by done.
      rewrite filter_cons_False by (cbn; congruence).
      rewrite filter_nil, app_nil_r. exact IH.
Qed.

Section aggregateIngredients_properties.
Context (toLowerCase trim capitalize : string -> string).
Context (includes : string -> string -> bool).
Context (localeCompare : string -> string -> Z).
Context (combineMeasurements : list string -> string).

Local Abbreviation normalize := (normalizedName toLowerCase trim).

Lemma collect_fold recipes :
  collect toLowerCase trim recipes
  = fold_left (fun m t => map_add t.1.1 t.1.2 t.2 m)
      (concat (map (fun recipe =>
                      map (fun ing => (normalize ing, measure ing,
                                       recipe_id recipe))
                        (ingredients recipe)) recipes)) [].
Proof.
  unfold collect. generalize (@nil (string * MapEntry)).
  induction recipes as [|r rs IH]; intros m; simpl; [done|].
  rewrite fold_left_app, IH. f_equal.
  generalize m. clear. induction (ingredients r) as [|ing l IH]; intros m;
    simpl; [done|]. apply IH.
Qed.

Lemma occurrences_triples recipes name :
  map (fun t : string * string * string => (t.1.2, t.2))
    (filter (fun t => t.1.1 = name)
       (concat (map (fun recipe =>
                       map (fun ing => (normalize ing, measure ing,
                                        recipe_id recipe))
                         (ingredients recipe)) recipes)))
  = occurrences normalize recipes name.
Proof.
  unfold occurrences. induction recipes as [|r rs IH]; simpl; [done|].
  rewrite filter_app, map_app, IH. f_equal.
  induction (ingredients r) as [|ing l IHl]; simpl; [done|].
  rewrite !filter_cons. simpl.
  destruct (decide (normalize ing = name)); simpl; by rewrite IHl.
Qed.

(** The first loop groups by name.  In the [Map] that
    [aggregateIngredients] builds the names are distinct, a name is present
    exactly when an ingredient of some recipe normalizes to it, and its
    entry holds the measures of all these ingredients in the order of the
    recipes, and the ids of the recipes they come from, each id once. *)
Theorem aggregateIngredients_groups (recipes : list RecipeIngredients)
    (name : string) :
  let m := collect toLowerCase trim recipes in
  let occ := occurrences normalize recipes name in
  NoDup (map fst m)
  /\ match map_get name m with
     | None => occ = []
     | Some e =>
         occ <> [] /\ measures e = map fst occ /\ NoDup (recipeIds e)
         /\ forall rid, rid ∈ recipeIds e <-> rid ∈ map snd occ
     end.
Proof.
  cbv zeta. rewrite collect_fold, <- occurrences_triples.
  apply collect_triples.
Qed.

Lemma filter_category_length (l : list AggregatedIngredient) :
  length (filter (fun a => agg_category a = Produce) l)
  + length (filter (fun a => agg_category a = Protein) l)
  + length (filter (fun a => agg_category a = Dairy) l)
  + length (filter (fun a => agg_category a = Pantry) l)
  + length (filter (fun a => agg_category a = Spices) l)
  = length l.
Proof.
  induction l as [|a l IH]; simpl; [done|].
  rewrite !filter_cons. destruct (agg_category a) eqn:Hc; simpl;
    repeat (case_decide; try done); simpl; lia.
Qed.

(** The second loop files every name once.  Each of the five lists of the
    result is a rearrangement of the entries built from the names of the
    [Map] that [categorizeIngredient] puts in that category, every entry
    carries the category of the list it is in, and the five lists together
    have one entry per name of the [Map]. *)
Theorem aggregateIngredients_buckets (recipes : list RecipeIngredients) :
  let entries :=
    map (aggregated toLowerCase capitalize includes combineMeasurements)
      (collect toLowerCase trim recipes) in
  let result :=
    aggregateIngredients toLowerCase trim capitalize includes localeCompare
      combineMeasurements recipes in
  (forall cat,
     bucket result cat ≡ₚ filter (fun a => agg_category a = cat) entries
     /\ Forall (fun a => agg_category a = cat) (bucket result cat))
  /\ (forall p, p ∈ collect toLowerCase trim recipes ->
        aggregated toLowerCase capitalize includes combineMeasurements p
        ∈ bucket result (categorizeIngredient toLowerCase includes p.1))
  /\ length (bucket result Produce) + length (bucket result Protein)
     + length (bucket result Dairy) + length (bucket result Pantry)
     + length (bucket result Spices)
     = length (collect toLowerCase trim recipes).
Proof.
  cbv zeta.
  assert (Hb : forall cat,
             bucket (aggregateIngredients toLowerCase trim capitalize includes
                       localeCompare combineMeasurements recipes) cat
             ≡ₚ filter (fun a => agg_category a = cat)
                  (map (aggregated toLowerCase capitalize includes
                          combineMeasurements)
                     (collect toLowerCase trim recipes))).
  { intros cat. destruct cat; simpl; apply Array_sort_perm. }
  split_and!.
  - intros cat. split; [apply Hb|]. rewrite (Hb cat).
    apply Forall_forall. intros a Ha. by apply list_elem_of_filter in Ha as [? _].
  - intros p Hp. rewrite (Hb _). apply list_elem_of_filter. split; [done|].
    apply list_elem_of_fmap. eauto.
  - rewrite !Hb, filter_category_length. apply length_map.
Qed.

(** The first matching category wins, and the table is searched in its
    own order: a name is filed under Produce when it contains a Produce
    keyword; otherwise under Protein when it contains a Protein keyword;
    otherwise under Dairy, then under Spices, in the same way; and under
    Pantry when it contains no keyword of the four.  So a name that
    contains a Produce keyword is Produce whatever else it contains, the
    keywords pepper, basil and thyme, which the table also lists under
    Spices, never file anything under Spices, and a name is filed under
    Spices only when it contains no keyword of Produce, Protein or Dairy. *)
Theorem categorizeIngredient_first_match (ingredientName : string) :
  let lowerName := toLowerCase ingredientName in
  let contains cat := existsb (includes lowerName) (keywords_of cat) in
  let category := categorizeIngredient toLowerCase includes ingredientName in
  category = (if contains Produce then Produce
              else if contains Protein then Protein
              else if contains Dairy then Dairy
              else if contains Spices then Spices
              else Pantry)
  /\ (contains Produce = true -> category = Produce)
  /\ (contains Produce = false -> contains Protein = true ->
      category = Protein)
  /\ (contains Produce = false -> contains Protein = false ->
      contains Dairy = true -> category = Dairy)
  /\ (contains Produce = false -> contains Protein = false ->
      contains Dairy = false -> contains Spices = true ->
      category = Spices)
  /\ (contains Produce = false -> contains Protein = false ->
      contains Dairy = false -> contains Spices = false ->
      category = Pantry)
  /\ (includes lowerName "pepper" = true \/ includes lowerName "basil" = true
      \/ includes lowerName "thyme" = true -> category = Produce)
  /\ (category = Spices ->
      contains Produce = false /\ contains Protein = false
      /\ contains Dairy = false /\ contains Spices = true).
Proof.
  cbv zeta. unfold categorizeIngredient, CATEGORY_KEYWORDS.
  cbn [List.find snd].
  set (lower := toLowerCase ingredientName).
  let l := eval vm_compute in (keywords_of Produce) in
    change (keywords_of Produce) with l; set (produce := l).
  let l := eval vm_compute in (keywords_of Protein) in
    change (keywords_of Protein) with l; set (protein := l).
  let l := eval vm_compute in (keywords_of Dairy) in
    change (keywords_of Dairy) with l; set (dairy := l).
  let l := eval vm_compute in (keywords_of Spices) in
    change (keywords_of Spices) with l; set (spices := l).
  assert (Hp : includes lower "pepper" = true \/ includes lower "basil" = true
               \/ includes lower "thyme" = true ->
               existsb (includes lower) produce = true).
  { intros H. apply existsb_exists.
    destruct H as [H|[H|H]]; eexists; (split; [|exact H]);
      unfold produce; cbn [In]; tauto. }
  destruct (existsb (includes lower) produce) eqn:H1;
    [split_and!; intros; done|].
  destruct (existsb (includes lower) protein) eqn:H2;
    [split_and!; intros; try done; match goal with H : _ \/ _ |- _ => by specialize (Hp H) end|].
  destruct (existsb (includes lower) dairy) eqn:H3;
    [split_and!; intros; try done; match goal with H : _ \/ _ |- _ => by specialize (Hp H) end|].
  destruct (existsb (includes lower) spices) eqn:H4;
    [split_and!; intros; try done; match goal with H : _ \/ _ |- _ => by specialize (Hp H) end|].
  match goal with
  | |- context [if ?b then Some (Pantry, _) else None] => destruct b
  end;
    split_and!; intros; try done;
    match goal with H : _ \/ _ |- _ => by specialize (Hp H) end.
Qed.
End aggregateIngredients_properties.
